(** * simple-peer: the orchestration core of [lite.js] and [src/index.ts]

    A shallow embedding of the peer object of simple-peer (the streamx
    fork): the negotiation coordinator, the connectivity monitor, the duplex
    stream adapter and the media sender registry, each method translated as
    a computation over the peer's fields, followed by the properties of the
    specification that concern them.

    Conventions.
    - The peer is one record, [Peer], holding the fields of [this].
    - A method is a computation in the monad [M]: it threads the peer and
      either returns or throws, as JavaScript does; what a method did
      before it threw stays done.
    - [queueMicrotask], [setTimeout], [setInterval] and promise
      continuations are kept as pending [Task]s; the environment decides
      which one runs next and how the engine answered.
    - The engine ([RTCPeerConnection]), the channel ([RTCDataChannel]) and
      the stream base class (streamx [Duplex]) are outside the repository:
      what the peer reads from them is data in [Pc], [Channel] and the
      [destroyed] flag; what it calls on them is recorded in the [log].
    - Listeners of the application are outside the model: [emit] records the
      event and runs the listeners the peer registered on itself. *)

From Stdlib Require Import String List Bool Arith Lia.
From stdpp Require Import base option list gmap strings.
Import ListNotations.
Local Open Scope string_scope.

(** ** Values exchanged with the engine and the channel *)

(** Payloads of the data channel and chunks of the stream: a text frame, an
    [ArrayBuffer] (what the channel delivers with [binaryType] set to
    ['arraybuffer']) or a [Uint8Array] view. *)
Inductive JsData :=
| JString (text : string)
| JArrayBuffer (bytes : list Byte.byte)
| JUint8Array (bytes : list Byte.byte).

(** JavaScript truthiness of a payload: the empty string is the one falsy
    value of the three shapes. *)
Definition truthy (d : JsData) : bool :=
  match d with
  | JString text => negb (text =? "")
  | JArrayBuffer _ | JUint8Array _ => true
  end.

(** Errors: [new Error(message)] tagged by [errCode(err, code)]. *)
Record Err := mkErr {
  err_name : string;
  err_message : string;
  err_code : option string
}.

Definition Error (message : string) : Err := mkErr "Error" message None.
Definition TypeError (message : string) : Err := mkErr "TypeError" message None.
Definition errCode (err : Err) (code : string) : Err :=
  mkErr (err_name err) (err_message err) (Some code).

Inductive IceConnectionState :=
| IceNew | IceChecking | IceConnected | IceCompleted
| IceDisconnected | IceFailed | IceClosed.

Inductive IceGatheringState := GatherNew | Gathering | GatherComplete.

Inductive SignalingState :=
| Stable | HaveLocalOffer | HaveRemoteOffer
| HaveLocalPranswer | HaveRemotePranswer | SignalingClosed.

Inductive ConnectionState :=
| ConnNew | ConnConnecting | ConnConnected
| ConnDisconnected | ConnFailed | ConnClosed.

Inductive ReadyState := RsConnecting | RsOpen | RsClosing | RsClosed.

(** [iceRestartEnabled]: [false], ["onFailure"] or ["onDisconnect"]. *)
Inductive IceRestart := RestartOff | OnFailure | OnDisconnect.

Definition restart_truthy (r : IceRestart) : bool :=
  match r with RestartOff => false | _ => true end.

Inductive SdpType := Offer | Answer | Pranswer | Rollback.

Record Description := mkDescription {
  d_type : option SdpType;
  d_sdp : string
}.

Record Candidate := mkCandidate {
  cand_candidate : string;
  cand_sdpMLineIndex : option nat;
  cand_sdpMid : option string;
  cand_address : option string    (* [RTCIceCandidate.address] *)
}.

(** Media objects are identified by their object identity. *)
Record MediaStreamTrack := mkTrack {
  track_obj : nat;
  track_kind : string
}.

Record MediaStream := mkStream {
  stream_obj : nat;
  stream_id : string;
  getTracks : list MediaStreamTrack
}.

Record Transceiver := mkTransceiver {
  tr_mid : bool;                       (* [transceiver.mid] is truthy *)
  tr_sender_track : option MediaStreamTrack;
  tr_requested : bool
}.

(** What the peer reads from its [RTCPeerConnection]. *)
Record Pc := mkPc {
  iceConnectionState : IceConnectionState;
  iceGatheringState : IceGatheringState;
  signalingState : SignalingState;
  connectionState : ConnectionState;
  remoteDescription : option Description;
  localDescription : option Description;
  pc_restartIce : bool;                (* [this._pc.restartIce] is defined *)
  getStats_length : nat;               (* [this._pc.getStats.length] *)
  getTransceivers : option (list Transceiver)
}.

(** What the peer reads from its [RTCDataChannel]. *)
Record Channel := mkChannel {
  readyState : ReadyState;
  bufferedAmount : nat;
  bufferedAmountLowThreshold : option nat;  (* [None]: not a number *)
  label : string;
  binaryType : string
}.

(** An [RTCRtpSender] as the registry sees it. *)
Record Sender := mkSender {
  removed : bool;
  sender_replaceTrack : bool           (* [sender.replaceTrack != null] *)
}.

Definition mark_removed (sd : Sender) : Sender :=
  mkSender true sd.(sender_replaceTrack).

(** The four shapes of a signaling payload. *)
Record SignalData := mkSignalData {
  sig_renegotiate : bool;
  sig_transceiverRequest : option (string * string);   (* kind, init *)
  sig_candidate : option Candidate;
  sig_sdp : option string;
  sig_type : option SdpType
}.

(** The argument of [signal]: an object, or a string handed to
    [JSON.parse] ([None] when it does not parse). *)
Inductive SignalArg :=
| ArgObject (data : SignalData)
| ArgString (parsed : option SignalData).

Inductive Signal :=
| SigRenegotiate
| SigTransceiverRequest (kind init : string)
| SigCandidate (candidate : string) (sdpMLineIndex : option nat) (sdpMid : option string)
| SigSdp (type : option SdpType) (sdp : string).

Inductive Event :=
| EvSignal (sg : Signal)
| EvConnect
| EvReconnect
| EvError (e : Err)
| EvNegotiated
| EvSignalingStateChange (st : SignalingState)
| EvIceStateChange (c : IceConnectionState) (g : IceGatheringState)
| EvIceTimeout
| EvIceGatheringComplete              (* the internal '_iceGatheringComplete' *)
| EvTrack (t : MediaStreamTrack) (st : MediaStream)
| EvStream (st : MediaStream).

(** One report of [getStats], with the properties [_maybeReady] tests. *)
Record StatItem := mkStatItem {
  item_type : string;
  item_id : string;
  item_selectedCandidatePairId : option string;
  item_googActiveConnection : string;
  item_selected : bool
}.

(** ** Effects, pending tasks and the peer *)

(** A write callback of the stream, named by the caller. *)
Definition Cb := nat.

(** The callback handed to [_destroy]: the no-op of [__destroy], or the one
    of the stream's own [destroy], which marks the stream destroyed. *)
Inductive DestroyCb := CbNoop | CbAfterDestroy.

Inductive PcOp :=
| OpRestartIce
| OpCreateOffer (iceRestart : bool)
| OpCreateAnswer
| OpSetLocalDescription (d : Description)
| OpSetRemoteDescription (d : Description)
| OpAddIceCandidate (c : Candidate)
| OpAddTrack (t : MediaStreamTrack) (st : MediaStream)
| OpRemoveTrack (sender : nat)
| OpReplaceTrack (sender : nat) (newTrack : option MediaStreamTrack)
| OpAddTransceiver (kind init : string)
| OpGetStats
| OpClose.

Inductive ChannelOp :=
| OpSend (chunk : JsData)
| OpChannelClose.

(** What the peer did to the outside, in order. *)
Inductive Effect :=
| Debug (msg : string)
| Warn (msg : string)
| Emit (ev : Event)
| PcCall (op : PcOp)
| ChannelCall (op : ChannelOp)
| Callback (cb : Cb) (err : option Err)     (* [cb(null)] or [cb(err)] *)
| Push (data : option JsData)               (* [this.push(data)] *)
| StreamEnd                                 (* [this.end()] *)
| DestroyDone (cb : DestroyCb).             (* [cb()] in [_destroy] *)

(** How the engine answers a call that returns or throws at once. *)
Inductive Reply :=
| ReplyOk
| ReplyThrow (e : Err)
| ReplySender (sender : nat) (replaceTrack : bool).

(** The closures registered with [once('_iceGatheringComplete', ...)]. *)
Inductive Listener :=
| SendOffer (offer : Description)
| SendAnswer (answer : Description).

(** The bodies handed to [queueMicrotask]. *)
Inductive Microtask :=
| NeedsNegotiation                    (* in [_needsNegotiation] *)
| OnStream (eventStream : MediaStream).   (* in [_onTrack] *)

(** The bodies waiting for a timer or for a promise of the engine. *)
Inductive Task :=
| TkCreateOffer                       (* [setTimeout(..., 0)] in [negotiate] *)
| TkTeardown (cb : DestroyCb) (err : option Err)  (* [setTimeout(..., 0)] in [_destroy] *)
| TkIceFailureRecovery
| TkIceComplete
| TkFindCandidatePair                 (* [setTimeout(findCandidatePair, 100)] *)
| TkDestroySoon
| TkClosingInterval (isClosing : bool)
| TkInterval
| TkSetRemoteDescription (d : Description)
| TkAddIceCandidate (c : Candidate)
| TkOfferCreated
| TkOfferSet (offer : Description)
| TkAnswerCreated
| TkAnswerSet (answer : Description)
| TkGetStats (standard : bool)
| TkPeerIdentity.

(** How a pending task is resumed: a timer elapsed, or a promise settled. *)
Inductive Resolution :=
| Elapsed
| Fulfilled
| FulfilledWith (d : Description)
| Reports (items : list StatItem)
| Rejected (e : Err).

(** [lite.js] exports the class [Peer]; [src/index.ts] extends it with the
    media sender registry. *)
Inductive PeerClass := LitePeer | FullPeer.

Record Peer := mkPeer {
  cls : PeerClass;
  __objectMode : bool;
  initiator : bool;
  channelName : option string;
  channelNegotiated : bool;
  trickle : bool;
  allowHalfTrickle : bool;
  iceCompleteTimeout : nat;
  iceRestartEnabled : IceRestart;
  iceFailureRecoveryTimeout : nat;
  sdpTransform : string -> string;
  offerOptions_iceRestart : bool;   (* [this.offerOptions.iceRestart] *)
  _isReactNativeWebrtc : bool;
  destroyed : bool;   (* streamx: the stream's destroyed bit *)
  _destroying : bool;
  _connected : bool;
  _connecting : bool;
  _connectedOnce : bool;
  _pcReady : bool;
  _channelReady : bool;
  _iceGatheringComplete : bool;
  _iceGatheringCompleteTimer : option nat;
  _iceFailureRecoveryTimer : option nat;
  _channel : option Channel;
  _pc : option Pc;
  _pendingCandidates : list Candidate;
  _isNegotiating : bool;
  _isRestartingIce : bool;
  _firstNegotiation : bool;
  _batchedNegotiation : bool;
  _queuedNegotiation : bool;
  _sendersAwaitingStable : list nat;   (* sender objects *)
  _closingInterval : option nat;
  _remoteTracks : option (list (MediaStreamTrack * MediaStream));
  _remoteStreams : option (list MediaStream);
  _chunk : option JsData;
  _cb : option Cb;
  _interval : option nat;
  _onFinishBound : bool;   (* a function, or null *)
  _senderMap : option (gmap nat nat);   (* track object to its submap object *)
  submaps : gmap nat (gmap nat (option nat));   (* the Map objects of the registry: stream object to sender *)
  senders : gmap nat Sender;   (* the sender objects the peer has marked *)
  onceIceGatheringComplete : list Listener;   (* once('_iceGatheringComplete', ...) *)
  onceConnect : nat;   (* once('connect', destroySoon), how many *)
  onceFinish : bool;   (* once('finish', this._onFinishBound) *)
  microtasks : list Microtask;
  pending : list (nat * Task);   (* timers, intervals and promise continuations *)
  next_id : nat;   (* the next timer id or object identity *)
  replies : list Reply;   (* how the engine answers the next calls *)
  log : list Effect
}.

(** Field updates. [set_f v s] is [s] after [this.f = v]: the record rebuilt
    from its projections, with [v] in place of [f s]. *)
Definition rebuild (s : Peer) : Peer :=
  mkPeer (s.(cls)) (s.(__objectMode)) (s.(initiator)) (s.(channelName))
    (s.(channelNegotiated)) (s.(trickle)) (s.(allowHalfTrickle))
    (s.(iceCompleteTimeout)) (s.(iceRestartEnabled))
    (s.(iceFailureRecoveryTimeout)) (s.(sdpTransform))
    (s.(offerOptions_iceRestart)) (s.(_isReactNativeWebrtc)) (s.(destroyed))
    (s.(_destroying)) (s.(_connected)) (s.(_connecting)) (s.(_connectedOnce))
    (s.(_pcReady)) (s.(_channelReady)) (s.(_iceGatheringComplete))
    (s.(_iceGatheringCompleteTimer)) (s.(_iceFailureRecoveryTimer))
    (s.(_channel)) (s.(_pc)) (s.(_pendingCandidates)) (s.(_isNegotiating))
    (s.(_isRestartingIce)) (s.(_firstNegotiation)) (s.(_batchedNegotiation))
    (s.(_queuedNegotiation)) (s.(_sendersAwaitingStable))
    (s.(_closingInterval)) (s.(_remoteTracks)) (s.(_remoteStreams))
    (s.(_chunk)) (s.(_cb)) (s.(_interval)) (s.(_onFinishBound))
    (s.(_senderMap)) (s.(submaps)) (s.(senders))
    (s.(onceIceGatheringComplete)) (s.(onceConnect)) (s.(onceFinish))
    (s.(microtasks)) (s.(pending)) (s.(next_id)) (s.(replies)) (s.(log)).

Ltac field_update proj :=
  let v := fresh "v" in
  let s := fresh "s" in
  intros v s;
  let body := eval cbv [rebuild] in (rebuild s) in
  match eval pattern (proj s) in body with
  | ?f _ => let r := eval cbv beta in (f v) in exact r
  end.

Definition set_channelName : option string -> Peer -> Peer := ltac:(field_update channelName).
Definition set_offerOptions_iceRestart : bool -> Peer -> Peer := ltac:(field_update offerOptions_iceRestart).
Definition set_destroyed : bool -> Peer -> Peer := ltac:(field_update destroyed).
Definition set_destroying : bool -> Peer -> Peer := ltac:(field_update _destroying).
Definition set_connected : bool -> Peer -> Peer := ltac:(field_update _connected).
Definition set_connecting : bool -> Peer -> Peer := ltac:(field_update _connecting).
Definition set_connectedOnce : bool -> Peer -> Peer := ltac:(field_update _connectedOnce).
Definition set_pcReady : bool -> Peer -> Peer := ltac:(field_update _pcReady).
Definition set_channelReady : bool -> Peer -> Peer := ltac:(field_update _channelReady).
Definition set_iceGatheringComplete : bool -> Peer -> Peer := ltac:(field_update _iceGatheringComplete).
Definition set_iceGatheringCompleteTimer : option nat -> Peer -> Peer := ltac:(field_update _iceGatheringCompleteTimer).
Definition set_iceFailureRecoveryTimer : option nat -> Peer -> Peer := ltac:(field_update _iceFailureRecoveryTimer).
Definition set_channel : option Channel -> Peer -> Peer := ltac:(field_update _channel).
Definition set_pc : option Pc -> Peer -> Peer := ltac:(field_update _pc).
Definition set_pendingCandidates : list Candidate -> Peer -> Peer := ltac:(field_update _pendingCandidates).
Definition set_isNegotiating : bool -> Peer -> Peer := ltac:(field_update _isNegotiating).
Definition set_isRestartingIce : bool -> Peer -> Peer := ltac:(field_update _isRestartingIce).
Definition set_firstNegotiation : bool -> Peer -> Peer := ltac:(field_update _firstNegotiation).
Definition set_batchedNegotiation : bool -> Peer -> Peer := ltac:(field_update _batchedNegotiation).
Definition set_queuedNegotiation : bool -> Peer -> Peer := ltac:(field_update _queuedNegotiation).
Definition set_sendersAwaitingStable : list nat -> Peer -> Peer := ltac:(field_update _sendersAwaitingStable).
Definition set_closingInterval : option nat -> Peer -> Peer := ltac:(field_update _closingInterval).
Definition set_remoteTracks : option (list (MediaStreamTrack * MediaStream)) -> Peer -> Peer := ltac:(field_update _remoteTracks).
Definition set_remoteStreams : option (list MediaStream) -> Peer -> Peer := ltac:(field_update _remoteStreams).
Definition set_chunk : option JsData -> Peer -> Peer := ltac:(field_update _chunk).
Definition set_cb : option Cb -> Peer -> Peer := ltac:(field_update _cb).
Definition set_interval : option nat -> Peer -> Peer := ltac:(field_update _interval).
Definition set_onFinishBound : bool -> Peer -> Peer := ltac:(field_update _onFinishBound).
Definition set_senderMap : option (gmap nat nat) -> Peer -> Peer := ltac:(field_update _senderMap).
Definition set_submaps : gmap nat (gmap nat (option nat)) -> Peer -> Peer := ltac:(field_update submaps).
Definition set_senders : gmap nat Sender -> Peer -> Peer := ltac:(field_update senders).
Definition set_onceIceGatheringComplete : list Listener -> Peer -> Peer := ltac:(field_update onceIceGatheringComplete).
Definition set_onceConnect : nat -> Peer -> Peer := ltac:(field_update onceConnect).
Definition set_onceFinish : bool -> Peer -> Peer := ltac:(field_update onceFinish).
Definition set_microtasks : list Microtask -> Peer -> Peer := ltac:(field_update microtasks).
Definition set_pending : list (nat * Task) -> Peer -> Peer := ltac:(field_update pending).
Definition set_next_id : nat -> Peer -> Peer := ltac:(field_update next_id).
Definition set_replies : list Reply -> Peer -> Peer := ltac:(field_update replies).
Definition set_log : list Effect -> Peer -> Peer := ltac:(field_update log).

(** ** Computations on the peer *)

(** A method returns a value or throws; either way the peer is as the
    method left it. *)
Inductive Outcome (A : Type) :=
| Ret (a : A) (s : Peer)
| Throw (e : Err) (s : Peer).
Arguments Ret {A} a s.
Arguments Throw {A} e s.

Definition M (A : Type) : Type := Peer -> Outcome A.

Definition state_of {A} (o : Outcome A) : Peer :=
  match o with Ret _ s | Throw _ s => s end.

Definition thrown {A} (o : Outcome A) : option Err :=
  match o with Ret _ _ => None | Throw e _ => Some e end.

#[global] Instance M_ret : MRet M := fun A a s => Ret a s.

#[global] Instance M_bind : MBind M := fun A B f m s =>
  match m s with
  | Ret a s' => f a s'
  | Throw e s' => Throw e s'
  end.

Definition throw {A} (e : Err) : M A := fun s => Throw e s.
Definition get : M Peer := fun s => Ret s s.
Definition modify (f : Peer -> Peer) : M unit := fun s => Ret tt (f s).
Definition skip : M unit := mret tt.

(** [try { m } catch (err) { h err }] *)
Definition try_catch {A} (m : M A) (h : Err -> M A) : M A := fun s =>
  match m s with
  | Ret a s' => Ret a s'
  | Throw e s' => h e s'
  end.

(** [xs.forEach(x => f x)]: a throw ends the loop. *)
Fixpoint forEach {A} (f : A -> M unit) (xs : list A) : M unit :=
  match xs with
  | [] => skip
  | x :: rest => f x ;; forEach f rest
  end.

Definition effect (e : Effect) : M unit :=
  modify (fun s => set_log (s.(log) ++ [e]) s).

Definition _debug (msg : string) : M unit := effect (Debug msg).
Definition warn (msg : string) : M unit := effect (Warn msg).

(** [this.emit(ev)] for an event the peer has no listener of its own on. *)
Definition emit (ev : Event) : M unit := effect (Emit ev).

(** [this._pc.x]: reading a property of [null] or [undefined] throws. *)
Definition the_pc : M Pc := fun s =>
  match s.(_pc) with
  | Some pc => Ret pc s
  | None => Throw (TypeError "Cannot read properties of null (this._pc)") s
  end.

Definition the_channel : M Channel := fun s =>
  match s.(_channel) with
  | Some ch => Ret ch s
  | None => Throw (TypeError "Cannot read properties of null (this._channel)") s
  end.

(** [setTimeout], [setInterval], and a promise's continuation: the body waits
    in [pending] under a fresh id. *)
Definition setTimeout (body : Task) : M nat := fun s =>
  let id := s.(next_id) in
  Ret id (set_next_id (S id) (set_pending (s.(pending) ++ [(id, body)]) s)).

Definition setInterval (body : Task) : M nat := setTimeout body.

Definition awaiting (body : Task) : M unit := setTimeout body ;; skip.

Definition without (id : nat) (l : list (nat * Task)) : list (nat * Task) :=
  filter (fun p => p.1 <> id) l.

(** [clearTimeout(t)], [clearInterval(t)]: nothing happens for [null]. *)
Definition clearTimeout (t : option nat) : M unit :=
  match t with
  | Some id => modify (fun s => set_pending (without id s.(pending)) s)
  | None => skip
  end.

Definition queueMicrotask (body : Microtask) : M unit :=
  modify (fun s => set_microtasks (s.(microtasks) ++ [body]) s).

(** The engine's answer to the next call that returns or throws at once. *)
Definition next_reply : M Reply := fun s =>
  match s.(replies) with
  | [] => Ret ReplyOk s
  | r :: rest => Ret r (set_replies rest s)
  end.

(** A call on the engine that returns nothing, or throws. *)
Definition pc_call (op : PcOp) : M unit :=
  effect (PcCall op) ;;
  r ← next_reply;
  match r with
  | ReplyThrow e => throw e
  | _ => skip
  end.

(** A call on the engine whose failure arrives through its promise. *)
Definition pc_async (op : PcOp) (continuation : Task) : M unit :=
  effect (PcCall op) ;; awaiting continuation.

(** ** [lite.js] *)

Definition MAX_BUFFERED_AMOUNT : nat := 64 * 1024.
Definition ICECOMPLETE_TIMEOUT : nat := 5 * 1000.
Definition CHANNEL_CLOSING_TIMEOUT : nat := 5 * 1000.
Definition ICEFAILURE_RECOVERY_TIMEOUT : nat := 5 * 1000.

Definition newline : string := String (Ascii.ascii_of_nat 10) "".

(** [\s] on a character of an SDP. The characters of a [string] are the
    code units below 256; among them [\s] matches space, tab, line feed,
    vertical tab, form feed, carriage return and the no-break space U+00A0
    (the other blanks of [\s] lie above: U+1680, U+2000 to U+200A, U+2028,
    U+2029, U+202F, U+205F, U+3000, U+FEFF). *)
Definition is_space (c : Ascii.ascii) : bool :=
  let n := Ascii.nat_of_ascii c in
  ((n =? 32) || ((9 <=? n) && (n <=? 13)) || (n =? 160))%nat.

(** Does [/a=ice-options:trickle\s\n/] match at the start of [sdp]? *)
Definition trickle_line_at (sdp : string) : bool :=
  String.prefix "a=ice-options:trickle" sdp &&
  match String.get 21 sdp, String.get 22 sdp with
  | Some c, Some nl => is_space c && (Ascii.nat_of_ascii nl =? 10)%nat
  | _, _ => false
  end.

Fixpoint filterTrickle_from (matched : nat) (sdp : string) : string :=
  match sdp with
  | EmptyString => EmptyString
  | String c rest =>
      match matched with
      | S k => filterTrickle_from k rest
      | 0 => if trickle_line_at sdp then filterTrickle_from 22 rest
             else String c (filterTrickle_from 0 rest)
      end
  end.

(** [sdp.replace(/a=ice-options:trickle\s\n/g, '')] *)
Definition filterTrickle (sdp : string) : string := filterTrickle_from 0 sdp.

(** [_destroy (cb, err)] *)
Definition _destroy (cb : DestroyCb) (err : option Err) : M unit :=
  s ← get;
  if s.(destroyed) || s.(_destroying) then skip
  else
    modify (set_destroying true) ;;
    _debug "destroying (error: %s)" ;;
    awaiting (TkTeardown cb err).

(** [__destroy (err)] *)
Definition __destroy (err : option Err) : M unit :=
  effect StreamEnd ;;
  _destroy CbNoop err.

(** The body [_destroy] defers with [setTimeout(..., 0)]. *)
Definition teardown (cb : DestroyCb) (err : option Err) : M unit :=
  modify (set_connected false) ;;
  modify (set_pcReady false) ;;
  modify (set_channelReady false) ;;
  modify (set_remoteTracks None) ;;
  modify (set_remoteStreams None) ;;
  modify (set_senderMap None) ;;
  s ← get; clearTimeout s.(_closingInterval) ;;
  modify (set_closingInterval None) ;;
  s ← get; clearTimeout s.(_interval) ;;
  modify (set_interval None) ;;
  modify (set_chunk None) ;;
  modify (set_cb None) ;;
  s ← get;
  (if s.(_onFinishBound) then modify (set_onceFinish false) else skip) ;;
  modify (set_onFinishBound false) ;;
  (* a throw of [close()] is caught and dropped *)
  (if s.(_channel) is Some _ then effect (ChannelCall OpChannelClose) else skip) ;;
  (if s.(_pc) is Some _ then effect (PcCall OpClose) else skip) ;;
  modify (set_pc None) ;;
  modify (set_channel None) ;;
  (if err is Some e then emit (EvError e) else skip) ;;
  effect (DestroyDone cb) ;;
  match cb with
  | CbNoop => skip
  | CbAfterDestroy => modify (set_destroyed true)
  end.

(** [send (chunk)] *)
Definition send (chunk : JsData) : M unit :=
  s ← get;
  if s.(_destroying) then skip
  else if s.(destroyed) then
    throw (errCode (Error "cannot send after peer is destroyed") "ERR_DESTROYED")
  else
    the_channel ;;
    effect (ChannelCall (OpSend chunk)) ;;
    r ← next_reply;
    match r with
    | ReplyThrow e => throw e
    | _ => skip
    end.

(** [_needsNegotiation ()] *)
Definition _needsNegotiation : M unit :=
  _debug "_needsNegotiation" ;;
  s ← get;
  if s.(_batchedNegotiation) then skip
  else
    modify (set_batchedNegotiation true) ;;
    queueMicrotask NeedsNegotiation.

(** [negotiate ()] *)
Definition negotiate : M unit :=
  s ← get;
  if s.(_destroying) then skip
  else if s.(destroyed) then
    throw (errCode (Error "cannot negotiate after peer is destroyed") "ERR_DESTROYED")
  else
    (if s.(initiator) then
       if s.(_isNegotiating) then
         modify (set_queuedNegotiation true) ;;
         _debug "already negotiating, queueing"
       else
         _debug "start negotiation" ;;
         awaiting TkCreateOffer
     else
       if s.(_isNegotiating) then
         modify (set_queuedNegotiation true) ;;
         _debug "already negotiating, queueing"
       else
         _debug "requesting negotiation from initiator" ;;
         emit (EvSignal SigRenegotiate)) ;;
    modify (set_isNegotiating true).

(** The microtask queued by [_needsNegotiation]. *)
Definition batchedNegotiation : M unit :=
  modify (set_batchedNegotiation false) ;;
  s ← get;
  (if s.(initiator) || negb s.(_firstNegotiation) then
     _debug "starting batched negotiation" ;;
     negotiate
   else
     _debug "non-initiator initial negotiation request discarded") ;;
  modify (set_firstNegotiation false).

(** [_startIceFailureRecoveryTimeout ()] *)
Definition _startIceFailureRecoveryTimeout : M unit :=
  s ← get;
  if s.(destroyed) || s.(_destroying) then skip
  else if s.(_iceFailureRecoveryTimer) is Some _ then skip
  else
    _debug "started iceFailureRecovery timeout" ;;
    modify (set_iceGatheringComplete false) ;;
    clearTimeout s.(_iceGatheringCompleteTimer) ;;
    modify (set_iceGatheringCompleteTimer None) ;;
    id ← setTimeout TkIceFailureRecovery;
    modify (set_iceFailureRecoveryTimer (Some id)).

Definition ice_established (c : IceConnectionState) : bool :=
  match c with IceConnected | IceCompleted => true | _ => false end.

(** The body of the recovery timer. *)
Definition iceFailureRecoveryTimeout_elapsed : M unit :=
  pc ← the_pc;
  _debug "checking iceFailureRecovery timeout" ;;
  let hasFailedToRecover := negb (ice_established pc.(iceConnectionState)) in
  if hasFailedToRecover then
    _debug "iceFailureRecovery timeout completed - failed" ;;
    __destroy (Some (errCode (Error "Ice connection recovery failed.")
                             "ERR_ICE_CONNECTION_FAILURE"))
  else skip.

(** [restartIce ()] *)
Definition restartIce : M bool :=
  s ← get;
  if s.(destroyed) || s.(_destroying) then mret false
  else if negb s.(initiator) then
    _debug "restartIce() only works for the initiator" ;;
    mret false
  else if s.(_isRestartingIce) then
    _debug "Already restarting ice, ignoring restartIce()" ;;
    mret false
  else
    _debug "Restarting ICE" ;;
    (if s.(_iceFailureRecoveryTimer) is Some _ then
       clearTimeout s.(_iceFailureRecoveryTimer) ;;
       modify (set_iceFailureRecoveryTimer None) ;;
       _startIceFailureRecoveryTimeout
     else skip) ;;
    modify (set_iceGatheringComplete false) ;;
    s' ← get; clearTimeout s'.(_iceGatheringCompleteTimer) ;;
    modify (set_iceGatheringCompleteTimer None) ;;
    modify (set_isNegotiating false) ;;
    modify (set_isRestartingIce true) ;;
    pc ← the_pc;
    (if pc.(pc_restartIce) then effect (PcCall OpRestartIce) else skip) ;;
    _needsNegotiation ;;
    mret true.

(** [addTransceiver (kind, init)] of [src/index.ts]; [signal] and
    [_createAnswer] of [lite.js] call it through [this]. *)
Definition addTransceiver (kind init : string) : M unit :=
  s ← get;
  if s.(_destroying) then skip
  else if s.(destroyed) then
    throw (errCode (Error "cannot addTransceiver after peer is destroyed") "ERR_DESTROYED")
  else
    _debug "addTransceiver()" ;;
    if s.(initiator) then
      try_catch
        ((if s.(_pc) is Some _ then pc_call (OpAddTransceiver kind init) else skip) ;;
         _needsNegotiation)
        (fun err => __destroy (Some (errCode err "ERR_ADD_TRANSCEIVER")))
    else
      emit (EvSignal (SigTransceiverRequest kind init)).

(** [this.addTransceiver(...)]: the class of [lite.js] has no such method. *)
Definition this_addTransceiver (kind init : string) : M unit :=
  s ← get;
  match s.(cls) with
  | FullPeer => addTransceiver kind init
  | LitePeer => throw (TypeError "this.addTransceiver is not a function")
  end.

Definition mark_requested (i : nat) (pc : Pc) : Pc :=
  mkPc pc.(iceConnectionState) pc.(iceGatheringState) pc.(signalingState)
       pc.(connectionState) pc.(remoteDescription) pc.(localDescription)
       pc.(pc_restartIce) pc.(getStats_length)
       (alter (fun t => mkTransceiver t.(tr_mid) t.(tr_sender_track) true) i
          <$> pc.(getTransceivers)).

(** [_requestMissingTransceivers ()] of [src/index.ts] *)
Definition _requestMissingTransceivers : M unit :=
  s ← get;
  match s.(_pc) ≫= getTransceivers with
  | Some transceivers =>
      forEach (fun '(i, transceiver) =>
        match transceiver.(tr_sender_track) with
        | Some track =>
            if negb transceiver.(tr_mid) && negb transceiver.(tr_requested) then
              modify (fun s => set_pc (mark_requested i <$> s.(_pc)) s) ;;
              addTransceiver track.(track_kind) "{}"
            else skip
        | None => skip
        end) (imap pair transceivers)
  | None => skip
  end.

(** The closure [sendOffer] of [_createOffer]. *)
Definition sendOffer (offer : Description) : M unit :=
  s ← get;
  if s.(destroyed) then skip
  else
    pc ← the_pc;
    let signal := default offer pc.(localDescription) in
    _debug "signal" ;;
    emit (EvSignal (SigSdp signal.(d_type) signal.(d_sdp))).

(** The closure [sendAnswer] of [_createAnswer]. *)
Definition sendAnswer (answer : Description) : M unit :=
  s ← get;
  if s.(destroyed) then skip
  else
    pc ← the_pc;
    let signal := default answer pc.(localDescription) in
    _debug "signal" ;;
    emit (EvSignal (SigSdp signal.(d_type) signal.(d_sdp))) ;;
    if negb s.(initiator) then
      match s.(cls) with
      | FullPeer => _requestMissingTransceivers
      | LitePeer => skip
      end
    else skip.

Definition listener_body (l : Listener) : M unit :=
  match l with
  | SendOffer offer => sendOffer offer
  | SendAnswer answer => sendAnswer answer
  end.

(** [this.emit('_iceGatheringComplete')]: each listener registered with
    [once] is withdrawn, then called. *)
Definition emit_iceGatheringComplete : M unit :=
  emit EvIceGatheringComplete ;;
  s ← get;
  forEach (fun l =>
    modify (fun s => set_onceIceGatheringComplete (tail s.(onceIceGatheringComplete)) s) ;;
    listener_body l) s.(onceIceGatheringComplete).

(** [_onIceGatheringComplete ()] *)
Definition _onIceGatheringComplete : M unit :=
  s ← get;
  if negb s.(_iceGatheringComplete) then
    _debug "iceGatheringComplete" ;;
    modify (set_iceGatheringComplete true) ;;
    emit_iceGatheringComplete ;;
    s' ← get; clearTimeout s'.(_iceGatheringCompleteTimer) ;;
    modify (set_iceGatheringCompleteTimer None)
  else skip.

(** [_startIceCompleteTimeout ()] *)
Definition _startIceCompleteTimeout : M unit :=
  s ← get;
  if s.(destroyed) then skip
  else if s.(_iceGatheringCompleteTimer) is Some _ then skip
  else
    _debug "started iceComplete timeout" ;;
    id ← setTimeout TkIceComplete;
    modify (set_iceGatheringCompleteTimer (Some id)).

(** The body of the gathering timer. *)
Definition iceCompleteTimeout_elapsed : M unit :=
  s ← get;
  if negb s.(_iceGatheringComplete) then
    _debug "iceComplete timeout completed" ;;
    emit EvIceTimeout ;;
    _onIceGatheringComplete
  else skip.

(** [_addIceCandidate (candidate)] *)
Definition _addIceCandidate (candidate : Candidate) : M unit :=
  the_pc ;;
  pc_async (OpAddIceCandidate candidate) (TkAddIceCandidate candidate).

Definition endsWith (s suffix : string) : bool :=
  let n := String.length s in
  let k := String.length suffix in
  (k <=? n)%nat && (String.substring (n - k) k s =? suffix).

(** The [catch] of [_addIceCandidate]. *)
Definition addIceCandidate_rejected (candidate : Candidate) (err : Err) : M unit :=
  match candidate.(cand_address) with
  | Some address =>
      if (address =? "") || endsWith address ".local" then
        warn "Ignoring unsupported ICE candidate."
      else __destroy (Some (errCode err "ERR_ADD_ICE_CANDIDATE"))
  | None => warn "Ignoring unsupported ICE candidate."
  end.

Definition transformed (s : Peer) (d : Description) : Description :=
  let sdp := if negb s.(trickle) && negb s.(allowHalfTrickle)
             then filterTrickle d.(d_sdp) else d.(d_sdp) in
  mkDescription d.(d_type) (s.(sdpTransform) sdp).

(** [_createOffer ()] *)
Definition _createOffer : M unit :=
  s ← get;
  if s.(destroyed) then skip
  else
    let offerOptions := s.(offerOptions_iceRestart) in
    (if s.(_isRestartingIce) then modify (set_offerOptions_iceRestart true) else skip) ;;
    the_pc ;;
    pc_async (OpCreateOffer offerOptions) TkOfferCreated.

(** [createOffer(...).then(offer => ...).catch(...)] *)
Definition offer_created (r : Resolution) : M unit :=
  let failed err := __destroy (Some (errCode err "ERR_CREATE_OFFER")) in
  match r with
  | FulfilledWith offer =>
      try_catch
        (s ← get;
         if s.(destroyed) then skip
         else
           let offer := transformed s offer in
           the_pc ;;
           pc_async (OpSetLocalDescription offer) (TkOfferSet offer))
        failed
  | Rejected err => failed err
  | _ => skip
  end.

(** The engine applies a description it accepted. *)
Definition with_localDescription (d : Description) (pc : Pc) : Pc :=
  mkPc pc.(iceConnectionState) pc.(iceGatheringState) pc.(signalingState)
       pc.(connectionState) pc.(remoteDescription) (Some d)
       pc.(pc_restartIce) pc.(getStats_length) pc.(getTransceivers).

Definition with_remoteDescription (d : Description) (pc : Pc) : Pc :=
  mkPc pc.(iceConnectionState) pc.(iceGatheringState) pc.(signalingState)
       pc.(connectionState) (Some d) pc.(localDescription)
       pc.(pc_restartIce) pc.(getStats_length) pc.(getTransceivers).

(** [setLocalDescription(offer).then(onSuccess).catch(onError)] *)
Definition offer_set (offer : Description) (r : Resolution) : M unit :=
  let onError err := __destroy (Some (errCode err "ERR_SET_LOCAL_DESCRIPTION")) in
  match r with
  | Fulfilled =>
      modify (fun s => set_pc (with_localDescription offer <$> s.(_pc)) s) ;;
      try_catch
        (_debug "createOffer success" ;;
         s ← get;
         if s.(destroyed) then skip
         else if s.(trickle) || s.(_iceGatheringComplete) then sendOffer offer
         else modify (fun s => set_onceIceGatheringComplete
                                 (s.(onceIceGatheringComplete) ++ [SendOffer offer]) s))
        onError
  | Rejected err => onError err
  | _ => skip
  end.

(** [_createAnswer ()] *)
Definition _createAnswer : M unit :=
  s ← get;
  if s.(destroyed) then skip
  else
    the_pc ;;
    pc_async OpCreateAnswer TkAnswerCreated.

Definition answer_created (r : Resolution) : M unit :=
  let failed err := __destroy (Some (errCode err "ERR_CREATE_ANSWER")) in
  match r with
  | FulfilledWith answer =>
      try_catch
        (s ← get;
         if s.(destroyed) then skip
         else
           let answer := transformed s answer in
           the_pc ;;
           pc_async (OpSetLocalDescription answer) (TkAnswerSet answer))
        failed
  | Rejected err => failed err
  | _ => skip
  end.

Definition answer_set (answer : Description) (r : Resolution) : M unit :=
  let onError err := __destroy (Some (errCode err "ERR_SET_LOCAL_DESCRIPTION")) in
  match r with
  | Fulfilled =>
      modify (fun s => set_pc (with_localDescription answer <$> s.(_pc)) s) ;;
      try_catch
        (s ← get;
         if s.(destroyed) then skip
         else if s.(trickle) || s.(_iceGatheringComplete) then sendAnswer answer
         else modify (fun s => set_onceIceGatheringComplete
                                 (s.(onceIceGatheringComplete) ++ [SendAnswer answer]) s))
        onError
  | Rejected err => onError err
  | _ => skip
  end.

Definition no_signal : SignalData := mkSignalData false None None None None.

Definition defined {A} (o : option A) : bool :=
  if o is Some _ then true else false.

Definition nonempty (o : option string) : bool :=
  match o with Some text => negb (text =? "") | None => false end.

(** [signal (data)] *)
Definition signal (arg : SignalArg) : M unit :=
  s ← get;
  if s.(_destroying) then skip
  else if s.(destroyed) then
    throw (errCode (Error "cannot signal after peer is destroyed") "ERR_DESTROYED")
  else
    let data := match arg with
                | ArgObject data => data
                | ArgString (Some data) => data
                | ArgString None => no_signal
                end in
    _debug "signal()" ;;
    (if data.(sig_renegotiate) && s.(initiator) then
       _debug "got request to renegotiate" ;;
       _needsNegotiation
     else skip) ;;
    (match data.(sig_transceiverRequest) with
     | Some (kind, init) =>
         if s.(initiator) then
           _debug "got request for transceiver" ;;
           this_addTransceiver kind init
         else skip
     | None => skip
     end) ;;
    (match data.(sig_candidate) with
     | Some candidate =>
         pc ← the_pc;
         if pc.(remoteDescription) is Some (mkDescription (Some _) _) then
           _addIceCandidate candidate
         else
           modify (fun s => set_pendingCandidates (s.(_pendingCandidates) ++ [candidate]) s)
     | None => skip
     end) ;;
    (if nonempty data.(sig_sdp) then
       the_pc ;;
       let d := mkDescription data.(sig_type) (default "" data.(sig_sdp)) in
       pc_async (OpSetRemoteDescription d) (TkSetRemoteDescription d)
     else skip) ;;
    (if negb (nonempty data.(sig_sdp)) && negb (defined data.(sig_candidate))
        && negb data.(sig_renegotiate) && negb (defined data.(sig_transceiverRequest)) then
       __destroy (Some (errCode (Error "signal() called with invalid signal data")
                                "ERR_SIGNALING"))
     else skip).

(** [setRemoteDescription(...).then(() => ...).catch(...)] *)
Definition remoteDescription_set (d : Description) (r : Resolution) : M unit :=
  let failed err := __destroy (Some (errCode err "ERR_SET_REMOTE_DESCRIPTION")) in
  match r with
  | Fulfilled =>
      modify (fun s => set_pc (with_remoteDescription d <$> s.(_pc)) s) ;;
      try_catch
        (s ← get;
         if s.(destroyed) then skip
         else
           forEach _addIceCandidate s.(_pendingCandidates) ;;
           modify (set_pendingCandidates []) ;;
           pc ← the_pc;
           match pc.(remoteDescription) with
           | Some remote =>
               if remote.(d_type) is Some Offer then _createAnswer else skip
           | None => throw (TypeError "Cannot read properties of null (remoteDescription)")
           end)
        failed
  | Rejected err => failed err
  | _ => skip
  end.

(** [_onChannelClose ()] *)
Definition _onChannelClose : M unit :=
  s ← get;
  if s.(destroyed) then skip
  else
    _debug "on channel close" ;;
    __destroy None.

Definition configured (ch : Channel) : Channel :=
  mkChannel ch.(readyState) ch.(bufferedAmount)
    (if ch.(bufferedAmountLowThreshold) is Some _ then Some MAX_BUFFERED_AMOUNT else None)
    ch.(label) "arraybuffer".

(** [_setupData (event)], on [event.channel]. *)
Definition _setupData (channel : option Channel) : M unit :=
  match channel with
  | None =>
      __destroy (Some (errCode (Error "Data channel event is missing `channel` property")
                               "ERR_DATA_CHANNEL"))
  | Some ch =>
      modify (set_channel (Some (configured ch))) ;;
      modify (set_channelName (Some ch.(label))) ;;
      id ← setInterval (TkClosingInterval false);
      modify (set_closingInterval (Some id))
  end.

(** One round of the interval of [_setupData]; the result is the closure's
    [isClosing] afterwards. *)
Definition closingInterval_elapsed (isClosing : bool) : M bool :=
  s ← get;
  match s.(_channel) with
  | Some ch =>
      if ch.(readyState) is RsClosing then
        (if isClosing then _onChannelClose else skip) ;;
        mret true
      else mret false
  | None => mret false
  end.

(** [channel.onerror] *)
Definition onChannelError (err : Err) : M unit :=
  __destroy (Some (errCode err "ERR_DATA_CHANNEL")).

(** [_write (chunk, cb)] *)
Definition _write (chunk : JsData) (cb : Cb) : M unit :=
  s ← get;
  if s.(destroyed) then
    effect (Callback cb (Some (errCode (Error "cannot write after peer is destroyed")
                                       "ERR_DATA_CHANNEL")))
  else if s.(_connected) then
    sent ← try_catch (send chunk ;; mret true)
             (fun err => __destroy (Some (errCode err "ERR_DATA_CHANNEL")) ;; mret false);
    if sent : bool then
      ch ← the_channel;
      if (MAX_BUFFERED_AMOUNT <? ch.(bufferedAmount))%nat then
        _debug "start backpressure: bufferedAmount %d" ;;
        modify (set_cb (Some cb))
      else effect (Callback cb None)
    else skip
  else
    _debug "write before connect" ;;
    modify (set_chunk (Some chunk)) ;;
    modify (set_cb (Some cb)).

(** [destroySoon] of [_onFinish]: [setTimeout(() => this.__destroy(), 1000)] *)
Definition destroySoon : M unit := awaiting TkDestroySoon.

(** [_onFinish ()] *)
Definition _onFinish : M unit :=
  s ← get;
  if s.(destroyed) then skip
  else if s.(_connected) then destroySoon
  else modify (fun s => set_onceConnect (S s.(onceConnect)) s).

(** [this.emit('connect')]: the [destroySoon] listeners registered with
    [once] are withdrawn, then called. *)
Definition emit_connect : M unit :=
  emit EvConnect ;;
  s ← get;
  forEach (fun _ : nat =>
    modify (fun s => set_onceConnect (pred s.(onceConnect)) s) ;;
    destroySoon) (seq 0 s.(onceConnect)).

(** [_final (cb)]; [ended] is the stream's [_readableState.ended]. *)
Definition _final (ended : bool) : M unit :=
  if negb ended then effect (Push None) else skip.

(** [_onChannelBufferedAmountLow ()] *)
Definition _onChannelBufferedAmountLow : M unit :=
  s ← get;
  match s.(_cb) with
  | Some cb =>
      if s.(destroyed) then skip
      else
        the_channel ;;
        _debug "ending backpressure: bufferedAmount %d" ;;
        modify (set_cb None) ;;
        effect (Callback cb None)
  | None => skip
  end.

(** [_onInterval ()] *)
Definition _onInterval : M unit :=
  s ← get;
  match s.(_cb), s.(_channel) with
  | Some _, Some ch =>
      if (MAX_BUFFERED_AMOUNT <? ch.(bufferedAmount))%nat then skip
      else _onChannelBufferedAmountLow
  | _, _ => skip
  end.

Definition is_type (item : StatItem) (names : list string) : bool :=
  existsb (String.eqb item.(item_type)) names.

(** The keys of [candidatePairs] and of [localCandidates] in [_maybeReady]. *)
Definition candidatePairs (items : list StatItem) : list StatItem :=
  filter (fun item => is_type item ["candidatepair"; "candidate-pair"]) items.

Definition localCandidates (items : list StatItem) : list StatItem :=
  filter (fun item => is_type item ["localcandidate"; "local-candidate"]) items.

Definition pair_known (items : list StatItem) (id : string) : bool :=
  existsb (fun pair => pair.(item_id) =? id) (candidatePairs items).

(** [candidatePairs[id]]: the report of that id stored last. *)
Definition candidatePair (items : list StatItem) (id : string) : option StatItem :=
  find (fun pair => pair.(item_id) =? id) (rev (candidatePairs items)).

(** [setSelectedCandidatePair (selectedCandidatePair)] of [_maybeReady]:
    reading a property of [undefined] throws; the addresses, ports and
    families it stores are not part of the model. *)
Definition setSelectedCandidatePair (pair : option StatItem) : M unit :=
  match pair with
  | None => throw (TypeError "Cannot read properties of undefined (selectedCandidatePair)")
  | Some _ => _debug "connect local: %s:%s remote: %s:%s"
  end.

Definition spec_compliant (item : StatItem) : bool :=
  is_type item ["transport"] && nonempty item.(item_selectedCandidatePairId).

Definition old_implementation (item : StatItem) : bool :=
  (is_type item ["googCandidatePair"] && (item.(item_googActiveConnection) =? "true"))
  || (is_type item ["candidatepair"; "candidate-pair"] && item.(item_selected)).

(** The second [items.forEach] of [_maybeReady]; it returns the variable
    [foundSelectedCandidatePair]. *)
Fixpoint selectCandidatePairs (all items : list StatItem) (found : bool) : M bool :=
  match items with
  | [] => mret found
  | item :: rest =>
      (if spec_compliant item
       then setSelectedCandidatePair
              (candidatePair all (default "" item.(item_selectedCandidatePairId)))
       else skip) ;;
      (if old_implementation item then setSelectedCandidatePair (Some item) else skip) ;;
      selectCandidatePairs all rest (found || spec_compliant item || old_implementation item)
  end.

(** What that loop comes to: whether a selected pair was found, or [None]
    when [setSelectedCandidatePair] is handed [undefined] and throws on
    reading it ([selectCandidatePairs_run] below). *)
Fixpoint foundSelectedCandidatePair (all items : list StatItem) (found : bool) : option bool :=
  match items with
  | [] => Some found
  | item :: rest =>
      let spec_compliant :=
        is_type item ["transport"] && nonempty item.(item_selectedCandidatePairId) in
      let old :=
        (is_type item ["googCandidatePair"] && (item.(item_googActiveConnection) =? "true"))
        || (is_type item ["candidatepair"; "candidate-pair"] && item.(item_selected)) in
      if spec_compliant
         && negb (pair_known all (default "" item.(item_selectedCandidatePairId)))
      then None
      else foundSelectedCandidatePair all rest (found || spec_compliant || old)
  end.

(** The number of pairs that loop selects, up to its end or to its throw. *)
Fixpoint selections (all items : list StatItem) : nat :=
  match items with
  | [] => 0
  | item :: rest =>
      if spec_compliant item
         && negb (pair_known all (default "" item.(item_selectedCandidatePairId)))
      then 0
      else (if spec_compliant item then 1 else 0)
           + ((if old_implementation item then 1 else 0) + selections all rest)
  end.

Definition double_quote : string := String (Ascii.ascii_of_nat 34) EmptyString.

(** ['sent chunk from "write before connect"'] *)
Definition sent_chunk_message : string :=
  Eval cbv in ("sent chunk from " ++ double_quote ++ "write before connect" ++ double_quote)%string.

(** The callback [findCandidatePair] hands to [getStats]. *)
Definition onStats (res : Err + list StatItem) : M unit :=
  s ← get;
  if s.(destroyed) || s.(_destroying) then skip
  else
    let items := match res with inl _ => [] | inr items => items end in
    found ← selectCandidatePairs items items false;
    if negb found && (match candidatePairs items with [] => true | _ => false end
                      || match localCandidates items with [] => false | _ => true end)
    then awaiting TkFindCandidatePair
    else
      modify (set_connecting false) ;;
      modify (set_connected true) ;;
      s ← get;
      flushed ←
        match s.(_chunk) with
        | Some chunk =>
            if truthy chunk then
              sent ← try_catch (send chunk ;; mret true)
                       (fun err => __destroy (Some (errCode err "ERR_DATA_CHANNEL")) ;;
                                   mret false);
              if sent : bool then
                modify (set_chunk None) ;;
                _debug sent_chunk_message ;;
                s ← get;
                modify (set_cb None) ;;
                match s.(_cb) with
                | Some cb => effect (Callback cb None) ;; mret true
                | None => throw (TypeError "cb is not a function")
                end
              else mret false
            else mret true
        | None => mret true
        end;
      if flushed : bool then
        s ← get;
        if negb s.(_connectedOnce) then
          modify (set_connectedOnce true) ;;
          ch ← the_channel;
          (if ch.(bufferedAmountLowThreshold) is None then
             id ← setInterval TkInterval;
             modify (set_interval (Some id))
           else skip) ;;
          _debug "connect" ;;
          emit_connect
        else
          _debug "reconnect" ;;
          emit EvReconnect
      else skip.

(** [getStats (cb)] with the callback of [findCandidatePair]. *)
Definition getStats : M unit :=
  pc ← the_pc;
  s ← get;
  if (pc.(getStats_length) =? 0)%nat || s.(_isReactNativeWebrtc) then
    pc_async OpGetStats (TkGetStats true)
  else if (0 <? pc.(getStats_length))%nat then
    pc_async OpGetStats (TkGetStats false)
  else onStats (inr []).

(** The continuation of the engine's [getStats]: the promise style, or the
    callback style, which first checks [this.destroyed]. *)
Definition stats_ready (standard : bool) (r : Resolution) : M unit :=
  match r with
  | Reports items =>
      if standard then onStats (inr items)
      else
        s ← get;
        if s.(destroyed) then skip else onStats (inr items)
  | Rejected err => onStats (inl err)
  | _ => skip
  end.

(** [findCandidatePair] of [_maybeReady] *)
Definition findCandidatePair : M unit :=
  s ← get;
  if s.(destroyed) || s.(_destroying) then skip
  else getStats.

(** [_maybeReady ()] *)
Definition _maybeReady : M unit :=
  _debug "maybeReady pc %s channel %s" ;;
  s ← get;
  if s.(_connecting) || negb s.(_pcReady) || negb s.(_channelReady) then skip
  else
    modify (set_connecting true) ;;
    findCandidatePair.

(** [_onConnectionStateChange ()] *)
Definition _onConnectionStateChange : M unit :=
  s ← get;
  if s.(destroyed) || s.(_destroying) then skip
  else
    pc ← the_pc;
    let state := pc.(connectionState) in
    _debug "_onConnectionStateChange " ;;
    (if state is ConnConnected then skip else modify (set_connected false)) ;;
    proceed ←
      (if state is ConnFailed then
         s ← get;
         if restart_truthy s.(iceRestartEnabled) || s.(_isRestartingIce) then
           _startIceFailureRecoveryTimeout ;; mret true
         else
           __destroy (Some (errCode (Error "Connection failed.") "ERR_CONNECTION_FAILURE")) ;;
           mret false
       else mret true);
    if proceed : bool then
      s ← get;
      if match state, s.(iceRestartEnabled) with
         | ConnFailed, OnFailure | ConnDisconnected, OnDisconnect => true
         | _, _ => false
         end
      then
        if s.(initiator) && negb s.(_isRestartingIce) then restartIce ;; skip else skip
      else skip
    else skip.

(** [_onIceStateChange ()] *)
Definition _onIceStateChange : M unit :=
  s ← get;
  if s.(destroyed) then skip
  else
    pc ← the_pc;
    let iceConnectionState := pc.(iceConnectionState) in
    let iceGatheringState := pc.(iceGatheringState) in
    _debug "iceStateChange (connection: %s) (gathering: %s)" ;;
    emit (EvIceStateChange iceConnectionState iceGatheringState) ;;
    (if iceGatheringState is GatherComplete then _onIceGatheringComplete else skip) ;;
    (if ice_established iceConnectionState then
       s ← get;
       (if s.(_iceFailureRecoveryTimer) is Some _ then
          clearTimeout s.(_iceFailureRecoveryTimer) ;;
          modify (set_iceFailureRecoveryTimer None)
        else skip) ;;
       modify (set_pcReady true) ;;
       modify (set_isRestartingIce false) ;;
       _maybeReady
     else skip) ;;
    s ← get;
    (if iceConnectionState is IceClosed then
       __destroy (Some (errCode (Error "Ice connection closed.") "ERR_ICE_CONNECTION_CLOSED"))
     else if iceConnectionState is IceFailed then
       if negb (restart_truthy s.(iceRestartEnabled)) && negb s.(_isRestartingIce) then
         __destroy (Some (errCode (Error "Ice connection failed.") "ERR_ICE_CONNECTION_FAILURE"))
       else if restart_truthy s.(iceRestartEnabled) || s.(_isRestartingIce) then
         _startIceFailureRecoveryTimeout
       else skip
     else skip) ;;
    s ← get;
    if match iceConnectionState, s.(iceRestartEnabled) with
       | IceFailed, OnFailure | IceDisconnected, OnDisconnect => true
       | _, _ => false
       end
    then
      if s.(initiator) && negb s.(_isRestartingIce) then restartIce ;; skip else skip
    else skip.

(** [_onSignalingStateChange ()] *)
Definition _onSignalingStateChange : M unit :=
  s ← get;
  if s.(destroyed) then skip
  else
    pc ← the_pc;
    (if pc.(signalingState) is Stable then
       modify (set_isNegotiating false) ;;
       _debug "flushing sender queue" ;;
       s ← get;
       forEach (fun sender =>
         the_pc ;;
         pc_call (OpRemoveTrack sender) ;;
         modify (set_queuedNegotiation true)) s.(_sendersAwaitingStable) ;;
       modify (set_sendersAwaitingStable []) ;;
       s ← get;
       if s.(_queuedNegotiation) then
         _debug "flushing negotiation queue" ;;
         modify (set_queuedNegotiation false) ;;
         _needsNegotiation
       else
         _debug "negotiated" ;;
         emit EvNegotiated
     else skip) ;;
    pc ← the_pc;
    _debug "signalingStateChange %s" ;;
    emit (EvSignalingStateChange pc.(signalingState)).

(** [_onIceCandidate (event)], on [event.candidate]. *)
Definition _onIceCandidate (candidate : option Candidate) : M unit :=
  s ← get;
  if s.(destroyed) then skip
  else
    (match candidate with
     | Some c =>
         if s.(trickle) then
           emit (EvSignal (SigCandidate c.(cand_candidate) c.(cand_sdpMLineIndex)
                                        c.(cand_sdpMid)))
         else skip
     | None =>
         if negb s.(_iceGatheringComplete) then _onIceGatheringComplete else skip
     end) ;;
    if candidate is Some _ then _startIceCompleteTimeout else skip.

(** [_onChannelOpen ()] *)
Definition _onChannelOpen : M unit :=
  s ← get;
  if s.(_connected) || s.(destroyed) then skip
  else
    _debug "on channel open" ;;
    modify (set_channelReady true) ;;
    _maybeReady.

(** [get connected ()] *)
Definition connected : M bool :=
  s ← get;
  if s.(_connected) then
    ch ← the_channel;
    mret (if ch.(readyState) is RsOpen then true else false)
  else mret false.

(** [get bufferSize ()] *)
Definition bufferSize (s : Peer) : nat :=
  match s.(_channel) with
  | Some ch => ch.(bufferedAmount)
  | None => 0
  end.

(** ** [src/index.ts]: the media sender registry

    [_senderMap] is a [Map] from track to a [Map] from stream to sender.
    The inner maps are objects of their own, kept in [submaps] by identity,
    so that two tracks can share one; the senders are kept in [senders]. *)

(** [this._senderMap?.get(track)] *)
Definition senderMap_get (s : Peer) (track : MediaStreamTrack) : option nat :=
  s.(_senderMap) ≫= (fun m => m !! track.(track_obj)).

(** [submap.get(stream)]; [None] is [undefined]. *)
Definition submap_get (s : Peer) (submap : nat) (stream : MediaStream) : option nat :=
  mjoin ((s.(submaps) !! submap) ≫= (fun m => m !! stream.(stream_obj))).

(** [new Map()] *)
Definition new_Map : M nat := fun s =>
  let id := s.(next_id) in
  Ret id (set_next_id (S id) (set_submaps (<[id := ∅]> s.(submaps)) s)).

(** [submap.set(stream, sender)], on the [Map] object [submap]. *)
Definition submap_set (submap : nat) (stream : MediaStream) (sender : option nat) : M unit :=
  modify (fun s =>
    set_submaps (<[submap := <[stream.(stream_obj) := sender]>
                               (default ∅ (s.(submaps) !! submap))]> s.(submaps)) s).

(** [this._senderMap?.set(track, submap)] *)
Definition senderMap_set (track : MediaStreamTrack) (submap : nat) : M unit :=
  modify (fun s => set_senderMap ((fun m => <[track.(track_obj) := submap]> m) <$> s.(_senderMap)) s).

(** [sender.removed] *)
Definition sender_removed (s : Peer) (sender : nat) : bool :=
  match s.(senders) !! sender with
  | Some sd => sd.(removed)
  | None => false
  end.

(** [this._pc?.addTrack(track, stream)]: the sender the engine returns. *)
Definition pc_addTrack (track : MediaStreamTrack) (stream : MediaStream) : M (option nat) :=
  s ← get;
  match s.(_pc) with
  | None => mret None
  | Some _ =>
      effect (PcCall (OpAddTrack track stream)) ;;
      r ← next_reply;
      match r with
      | ReplyThrow e => throw e
      | ReplySender sender replaceTrack =>
          modify (fun s =>
            if s.(senders) !! sender is Some _ then s
            else set_senders (<[sender := mkSender false replaceTrack]> s.(senders)) s) ;;
          mret (Some sender)
      | ReplyOk =>
          s ← get;
          let sender := s.(next_id) in
          modify (set_next_id (S sender)) ;;
          modify (fun s => set_senders (<[sender := mkSender false true]> s.(senders)) s) ;;
          mret (Some sender)
      end
  end.

(** [addTrack (track, stream)] *)
Definition addTrack (track : MediaStreamTrack) (stream : MediaStream) : M unit :=
  s ← get;
  if s.(_destroying) then skip
  else if s.(destroyed) then
    throw (errCode (Error "cannot addTrack after peer is destroyed") "ERR_DESTROYED")
  else
    _debug "addTrack()" ;;
    submap ← (if senderMap_get s track is Some submap then mret submap else new_Map);
    s ← get;
    match submap_get s submap stream with
    | None =>
        sender ← pc_addTrack track stream;
        submap_set submap stream sender ;;
        senderMap_set track submap ;;
        _needsNegotiation
    | Some sender =>
        if sender_removed s sender then
          throw (errCode (Error ("Track has been removed. You should enable/disable tracks "
                                 ++ "that you want to re-add.")) "ERR_SENDER_REMOVED")
        else
          throw (errCode (Error "Track has already been added to that stream.")
                         "ERR_SENDER_ALREADY_ADDED")
    end.

(** [addStream (stream)] *)
Definition addStream (stream : MediaStream) : M unit :=
  s ← get;
  if s.(_destroying) then skip
  else if s.(destroyed) then
    throw (errCode (Error "cannot addStream after peer is destroyed") "ERR_DESTROYED")
  else
    _debug "addStream()" ;;
    forEach (fun track => addTrack track stream) stream.(getTracks).

(** [replaceTrack (oldTrack, newTrack, stream)] *)
Definition replaceTrack (oldTrack : MediaStreamTrack) (newTrack : option MediaStreamTrack)
    (stream : MediaStream) : M unit :=
  s ← get;
  if s.(_destroying) then skip
  else if s.(destroyed) then
    throw (errCode (Error "cannot replaceTrack after peer is destroyed") "ERR_DESTROYED")
  else
    _debug "replaceTrack()" ;;
    match senderMap_get s oldTrack with
    | Some submap =>
        match submap_get s submap stream with
        | Some sender =>
            (if newTrack is Some track then senderMap_set track submap else skip) ;;
            if default true (sender_replaceTrack <$> s.(senders) !! sender) then
              effect (PcCall (OpReplaceTrack sender newTrack))
            else
              __destroy (Some (errCode (Error "replaceTrack is not supported in this browser")
                                       "ERR_UNSUPPORTED_REPLACETRACK"))
        | None =>
            throw (errCode (Error "Cannot replace track that was never added.")
                           "ERR_TRACK_NOT_ADDED")
        end
    | None =>
        throw (errCode (Error "Cannot replace track that was never added.")
                       "ERR_TRACK_NOT_ADDED")
    end.

(** [removeTrack (track, stream)] *)
Definition removeTrack (track : MediaStreamTrack) (stream : MediaStream) : M unit :=
  s ← get;
  if s.(_destroying) then skip
  else if s.(destroyed) then
    throw (errCode (Error "cannot removeTrack after peer is destroyed") "ERR_DESTROYED")
  else
    _debug "removeSender()" ;;
    match senderMap_get s track ≫= (fun submap => submap_get s submap stream) with
    | Some sender =>
        try_catch
          (modify (fun s =>
             set_senders (<[sender := mark_removed
                              (default (mkSender false true) (s.(senders) !! sender))]>
                            s.(senders)) s) ;;
           if s.(_pc) is Some _ then pc_call (OpRemoveTrack sender) else skip)
          (fun err =>
             if err.(err_name) =? "NS_ERROR_UNEXPECTED" then
               modify (fun s => set_sendersAwaitingStable
                                  (s.(_sendersAwaitingStable) ++ [sender]) s)
             else __destroy (Some (errCode err "ERR_REMOVE_TRACK"))) ;;
        _needsNegotiation
    | None =>
        throw (errCode (Error "Cannot remove track that was never added.")
                       "ERR_TRACK_NOT_ADDED")
    end.

(** [removeStream (stream)] *)
Definition removeStream (stream : MediaStream) : M unit :=
  s ← get;
  if s.(_destroying) then skip
  else if s.(destroyed) then
    throw (errCode (Error "cannot removeStream after peer is destroyed") "ERR_DESTROYED")
  else
    _debug "removeSenders()" ;;
    forEach (fun track => removeTrack track stream) stream.(getTracks).

(** [_onTrack (event)], on [event.track] and [event.streams]. *)
Definition _onTrack (track : MediaStreamTrack) (streams : list MediaStream) : M unit :=
  s ← get;
  if s.(destroyed) then skip
  else
    forEach (fun eventStream =>
      _debug "on track" ;;
      emit (EvTrack track eventStream) ;;
      modify (fun s => set_remoteTracks
                         ((fun l => (l ++ [(track, eventStream)])%list) <$> s.(_remoteTracks)) s) ;;
      s ← get;
      if default false (existsb (fun remoteStream => remoteStream.(stream_id) =? eventStream.(stream_id))
                          <$> s.(_remoteStreams))
      then skip
      else
        modify (fun s => set_remoteStreams
                           ((fun l => (l ++ [eventStream])%list) <$> s.(_remoteStreams)) s) ;;
        queueMicrotask (OnStream eventStream)) streams.

(** The microtask queued by [_onTrack]. *)
Definition onStream (eventStream : MediaStream) : M unit :=
  _debug "on stream" ;;
  emit (EvStream eventStream).

(** ** Construction *)

Inductive RestartOption := OptFalse | OptTrue | OptOnFailure | OptOnDisconnect.

(** The options of [new Peer(opts)] the constructors read. *)
Record PeerOpts := mkOpts {
  opt_initiator : bool;
  opt_channelName : option string;
  opt_channelNegotiated : bool;               (* [channelConfig.negotiated] *)
  opt_offerOptions_iceRestart : bool;
  opt_sdpTransform : option (string -> string);
  opt_trickle : option bool;
  opt_allowHalfTrickle : option bool;
  opt_iceCompleteTimeout : option nat;
  opt_objectMode : bool;
  opt_wrtc : bool;
  opt_iceRestartEnabled : option RestartOption;
  opt_iceFailureRecoveryTimeout : option nat;
  opt_streams : list MediaStream              (* [streams], or [[stream]] *)
}.

(** What the platform hands to the constructor. *)
Record Platform := mkPlatform {
  RTCPeerConnection_defined : bool;
  window_defined : bool;
  new_RTCPeerConnection : Err + Pc;           (* the engine, or what its constructor throws *)
  peerConnectionId_is_number : bool;
  peerIdentity_is_object : bool;
  createDataChannel : option Channel;
  randomName : string                         (* [arr2hex(randomBytes(20))] *)
}.

(** The fields as the constructor of [lite.js] initialises them, before the
    engine is created. *)
Definition fields (c : PeerClass) (opts : PeerOpts) (env : Platform) : Peer :=
  let trickle := default true opts.(opt_trickle) in
  {| cls := c;
     __objectMode := opts.(opt_objectMode);
     initiator := opts.(opt_initiator);
     channelName :=
       if opts.(opt_initiator)
       then Some (if nonempty opts.(opt_channelName)
                  then default "" opts.(opt_channelName) else env.(randomName))
       else None;
     channelNegotiated := opts.(opt_channelNegotiated);
     trickle := trickle;
     allowHalfTrickle := default false opts.(opt_allowHalfTrickle);
     iceCompleteTimeout :=
       match opts.(opt_iceCompleteTimeout) with
       | Some (S n) => S n
       | _ => ICECOMPLETE_TIMEOUT
       end;
     iceRestartEnabled :=
       match opts.(opt_iceRestartEnabled) with
       | Some OptFalse => RestartOff
       | Some OptTrue | Some OptOnFailure => OnFailure
       | Some OptOnDisconnect => OnDisconnect
       | None => if trickle && negb opts.(opt_wrtc) then OnFailure else RestartOff
       end;
     iceFailureRecoveryTimeout :=
       default ICEFAILURE_RECOVERY_TIMEOUT opts.(opt_iceFailureRecoveryTimeout);
     sdpTransform := default (fun sdp => sdp) opts.(opt_sdpTransform);
     offerOptions_iceRestart := opts.(opt_offerOptions_iceRestart);
     _isReactNativeWebrtc := env.(peerConnectionId_is_number);
     destroyed := false;
     _destroying := false;
     _connected := false;
     _connecting := false;
     _connectedOnce := false;
     _pcReady := false;
     _channelReady := false;
     _iceGatheringComplete := false;
     _iceGatheringCompleteTimer := None;
     _iceFailureRecoveryTimer := None;
     _channel := None;
     _pc := None;
     _pendingCandidates := [];
     _isNegotiating := false;
     _isRestartingIce := false;
     _firstNegotiation := true;
     _batchedNegotiation := false;
     _queuedNegotiation := false;
     _sendersAwaitingStable := [];
     _closingInterval := None;
     _remoteTracks := Some [];
     _remoteStreams := Some [];
     _chunk := None;
     _cb := None;
     _interval := None;
     _onFinishBound := false;
     _senderMap := None;
     submaps := ∅;
     senders := ∅;
     onceIceGatheringComplete := [];
     onceConnect := 0;
     onceFinish := false;
     microtasks := [];
     pending := [];
     next_id := 1;
     replies := [];
     log := [] |}.

(** The constructor of [lite.js], from the creation of the engine on. *)
Definition lite_constructor (env : Platform) : M unit :=
  _debug "new peer %o" ;;
  match env.(new_RTCPeerConnection) with
  | inl err => __destroy (Some (errCode err "ERR_PC_CONSTRUCTOR"))
  | inr pc =>
      modify (set_pc (Some pc)) ;;
      (if env.(peerIdentity_is_object) then awaiting TkPeerIdentity else skip) ;;
      s ← get;
      (if s.(initiator) || s.(channelNegotiated)
       then _setupData env.(createDataChannel) else skip) ;;
      _debug "initial negotiation" ;;
      _needsNegotiation ;;
      modify (set_onFinishBound true) ;;
      modify (set_onceFinish true)
  end.

(** The constructor of [src/index.ts]. *)
Definition full_constructor (opts : PeerOpts) (env : Platform) : M unit :=
  lite_constructor env ;;
  s ← get;
  match s.(_pc) with
  | None => skip
  | Some _ =>
      modify (set_senderMap (Some ∅)) ;;
      forEach addStream opts.(opt_streams)
  end.

Definition ERR_WEBRTC_SUPPORT (env : Platform) : Err :=
  errCode (Error (if env.(window_defined)
                  then "No WebRTC support: Not a supported browser"
                  else "No WebRTC support: Specify `opts.wrtc` option in this environment"))
          "ERR_WEBRTC_SUPPORT".

(** [new Peer(opts)]: what the constructor throws, or how it leaves the peer
    (also when a later statement of the constructor threw). *)
Definition new_Peer (c : PeerClass) (opts : PeerOpts) (env : Platform) : Err + Peer :=
  if negb env.(RTCPeerConnection_defined) then inl (ERR_WEBRTC_SUPPORT env)
  else
    inr (state_of
      (match c with
       | LitePeer => lite_constructor env
       | FullPeer => full_constructor opts env
       end (fields c opts env))).

(** ** The event loop *)

Section EventLoop.

(** [text2arr] of the package uint8-util, applied to the payload of a
    message. *)
Variable text2arr : JsData -> list Byte.byte.

(** [_onChannelMessage (event)], on [event.data]. *)
Definition _onChannelMessage (data : JsData) : M unit :=
  s ← get;
  if s.(destroyed) then skip
  else
    let data :=
      match data with
      | JArrayBuffer bytes => JUint8Array bytes
      | _ => if negb s.(__objectMode) then JUint8Array (text2arr data) else data
      end in
    effect (Push (Some data)).

(** The body of a pending task, resumed with [r]. *)
Definition run_task (t : Task) (r : Resolution) : M unit :=
  match t with
  | TkCreateOffer => _createOffer
  | TkTeardown cb err => teardown cb err
  | TkIceFailureRecovery => iceFailureRecoveryTimeout_elapsed
  | TkIceComplete => iceCompleteTimeout_elapsed
  | TkFindCandidatePair => findCandidatePair
  | TkDestroySoon => __destroy None
  | TkClosingInterval isClosing => closingInterval_elapsed isClosing ;; skip
  | TkInterval => _onInterval
  | TkSetRemoteDescription d => remoteDescription_set d r
  | TkAddIceCandidate c =>
      if r is Rejected err then addIceCandidate_rejected c err else skip
  | TkOfferCreated => offer_created r
  | TkOfferSet offer => offer_set offer r
  | TkAnswerCreated => answer_created r
  | TkAnswerSet answer => answer_set answer r
  | TkGetStats standard => stats_ready standard r
  | TkPeerIdentity =>
      if r is Rejected err then __destroy (Some (errCode err "ERR_PC_PEER_IDENTITY"))
      else skip
  end.

Fixpoint task_in (id : nat) (l : list (nat * Task)) : option Task :=
  match l with
  | [] => None
  | (k, t) :: rest => if (k =? id)%nat then Some t else task_in id rest
  end.

Definition task_of (id : nat) (s : Peer) : option Task := task_in id s.(pending).

(** A timer fires or a promise settles: a timeout or a continuation leaves
    [pending] and runs; an interval runs and stays, the one of [_setupData]
    with the [isClosing] its round left. *)
Definition fire (id : nat) (r : Resolution) : M unit :=
  s ← get;
  match task_of id s with
  | None => skip
  | Some (TkClosingInterval isClosing) =>
      isClosing' ← closingInterval_elapsed isClosing;
      modify (fun s => set_pending
        (map (fun p => if decide (p.1 = id) then (id, TkClosingInterval isClosing') else p)
             s.(pending)) s)
  | Some TkInterval => _onInterval
  | Some t => modify (fun s => set_pending (without id s.(pending)) s) ;; run_task t r
  end.

(** The next microtask runs. *)
Definition run_microtask : M unit :=
  s ← get;
  match s.(microtasks) with
  | [] => skip
  | NeedsNegotiation :: rest => modify (set_microtasks rest) ;; batchedNegotiation
  | OnStream eventStream :: rest => modify (set_microtasks rest) ;; onStream eventStream
  end.

(** What can happen to a peer. *)
Inductive Input :=
(* the application *)
| CallSignal (arg : SignalArg)
| CallSend (chunk : JsData)
| CallNegotiate
| CallRestartIce
| CallAddTransceiver (kind init : string)
| CallAddStream (stream : MediaStream)
| CallAddTrack (track : MediaStreamTrack) (stream : MediaStream)
| CallReplaceTrack (oldTrack : MediaStreamTrack) (newTrack : option MediaStreamTrack)
                   (stream : MediaStream)
| CallRemoveTrack (track : MediaStreamTrack) (stream : MediaStream)
| CallRemoveStream (stream : MediaStream)
| ReadConnected
(* the stream base class *)
| StreamWrite (chunk : JsData) (cb : Cb)
| StreamFinish
| StreamFinal (ended : bool)
| StreamDestroy
(* the engine *)
| PcAttributes (pc : Pc)
| OnIceStateChange
| OnConnectionStateChange
| OnSignalingStateChange
| OnIceCandidate (candidate : option Candidate)
| OnDataChannel (channel : option Channel)
| OnTrack (track : MediaStreamTrack) (streams : list MediaStream)
(* the channel *)
| ChannelAttributes (state : ReadyState) (buffered : nat)
| OnOpen
| OnClose
| OnMessage (data : JsData)
| OnError (err : Err)
| OnBufferedAmountLow
(* time, promises and microtasks *)
| Fire (id : nat) (r : Resolution)
| RunMicrotask.

Definition if_full (m : M unit) : M unit :=
  s ← get;
  if s.(cls) is FullPeer then m else skip.

(** The engine raises its events while the peer holds it. *)
Definition if_pc (m : M unit) : M unit :=
  s ← get;
  if s.(_pc) is Some _ then m else skip.

(** The channel raises its events while the peer holds it. *)
Definition if_channel (m : M unit) : M unit :=
  s ← get;
  if s.(_channel) is Some _ then m else skip.

Definition with_attributes (state : ReadyState) (buffered : nat) (ch : Channel) : Channel :=
  mkChannel state buffered ch.(bufferedAmountLowThreshold) ch.(label) ch.(binaryType).

Definition handle (i : Input) : M unit :=
  match i with
  | CallSignal arg => signal arg
  | CallSend chunk => send chunk
  | CallNegotiate => negotiate
  | CallRestartIce => restartIce ;; skip
  | CallAddTransceiver kind init => if_full (addTransceiver kind init)
  | CallAddStream stream => if_full (addStream stream)
  | CallAddTrack track stream => if_full (addTrack track stream)
  | CallReplaceTrack oldTrack newTrack stream => if_full (replaceTrack oldTrack newTrack stream)
  | CallRemoveTrack track stream => if_full (removeTrack track stream)
  | CallRemoveStream stream => if_full (removeStream stream)
  | ReadConnected => connected ;; skip
  | StreamWrite chunk cb => _write chunk cb
  | StreamFinish =>
      s ← get;
      if s.(onceFinish) then modify (set_onceFinish false) ;; _onFinish else skip
  | StreamFinal ended => _final ended
  | StreamDestroy => _destroy CbAfterDestroy None
  | PcAttributes pc => if_pc (modify (set_pc (Some pc)))
  | OnIceStateChange => if_pc _onIceStateChange
  | OnConnectionStateChange => if_pc _onConnectionStateChange
  | OnSignalingStateChange => if_pc _onSignalingStateChange
  | OnIceCandidate candidate => if_pc (_onIceCandidate candidate)
  | OnDataChannel channel =>
      s ← get;
      if s.(initiator) || s.(channelNegotiated) then skip else if_pc (_setupData channel)
  | OnTrack track streams => if_full (if_pc (_onTrack track streams))
  | ChannelAttributes state buffered =>
      modify (fun s => set_channel (with_attributes state buffered <$> s.(_channel)) s)
  | OnOpen => if_channel _onChannelOpen
  | OnClose => if_channel _onChannelClose
  | OnMessage data => if_channel (_onChannelMessage data)
  | OnError err => if_channel (onChannelError err)
  | OnBufferedAmountLow => if_channel _onChannelBufferedAmountLow
  | Fire id r => fire id r
  | RunMicrotask => run_microtask
  end.

(** One step of the peer: the engine's answers to the calls of this step
    are [answers]; an exception that leaves the handler is the caller's (or
    nobody's), and the peer stays as the handler left it. *)
Definition step (i : Input) (answers : list Reply) (s : Peer) : Peer :=
  state_of (handle i (set_replies answers s)).

(** The states a peer goes through. *)
Inductive reachable : Peer -> Prop :=
| reachable_new c opts env s :
    new_Peer c opts env = inr s -> reachable s
| reachable_step i answers s :
    reachable s -> reachable (step i answers s).

End EventLoop.

(** [n] calls of [m] in a row, with nothing in between. *)
Fixpoint repeatedly (n : nat) (m : M unit) : M unit :=
  match n with
  | 0 => skip
  | S k => m ;; repeatedly k m
  end.

(** * Properties *)

Local Open Scope list_scope.

(** ** The shape of a run *)

Lemma bind_ret {A B} (m : M A) (k : A -> M B) s a s' :
  m s = Ret a s' -> (m ≫= k) s = k a s'.
Proof. intros E. unfold mbind, M_bind. now rewrite E. Qed.


(** ** What a handler may change *)

Definition is_stats (t : Task) : bool :=
  match t with TkFindCandidatePair | TkGetStats _ => true | _ => false end.

Definition is_teardown (t : Task) : bool :=
  match t with TkTeardown _ _ => true | _ => false end.

Definition waits (kind : Task -> bool) (s : Peer) : bool :=
  existsb (fun p => kind p.2) s.(pending).

(** Both sides of the connection have been seen ready. *)
Definition both_ready (s : Peer) : Prop :=
  s.(_pcReady) = true /\ s.(_channelReady) = true.

(** [moves s s']: what separates two states of a run in which the deferred
    body of [_destroy] did not run. *)
Record moves (s s' : Peer) : Prop := mkMoves {
  mv_connected : s'.(_connected) = true -> s.(_connected) = true \/ both_ready s';
  mv_pcReady : s.(_pcReady) = true -> s'.(_pcReady) = true;
  mv_channelReady : s.(_channelReady) = true -> s'.(_channelReady) = true;
  mv_destroying : s.(_destroying) = true -> s'.(_destroying) = true;
  mv_first : s.(_firstNegotiation) = false -> s'.(_firstNegotiation) = false;
  mv_stats : waits is_stats s' = true -> waits is_stats s = true \/ both_ready s';
  mv_teardown : waits is_teardown s' = true ->
                waits is_teardown s = true \/ s'.(_destroying) = true;
  mv_pc : is_Some s.(_pc) -> is_Some s'.(_pc);
  mv_initiator : s'.(initiator) = s.(initiator);
  mv_cls : s'.(cls) = s.(cls)
}.

Lemma moves_refl s : moves s s.
Proof. constructor; auto. Qed.

Lemma moves_trans s1 s2 s3 : moves s1 s2 -> moves s2 s3 -> moves s1 s3.
Proof.
  intros [a1 b1 c1 d1 e1 f1 g1 h1 i1 j1] [a2 b2 c2 d2 e2 f2 g2 h2 i2 j2].
  constructor; try solve [auto | congruence].
  - intros H. destruct (a2 H) as [H'|H']; [|now right].
    destruct (a1 H') as [?|[? ?]]; [now left|right; split; auto].
  - intros H. destruct (f2 H) as [H'|H']; [|now right].
    destruct (f1 H') as [?|[? ?]]; [now left|right; split; auto].
  - intros H. destruct (g2 H) as [H'|H']; [|now right].
    destruct (g1 H') as [?|?]; [now left|right; auto].
Qed.

(** The engine and channel were seen ready, unless the peer is going. *)
Definition ready (s : Peer) : Prop :=
  s.(_destroying) = false -> both_ready s.

Lemma ready_moves s s' : ready s -> moves s s' -> ready s'.
Proof.
  intros R [Mc Mp Mh Md Mf Ms Mt Me Mi Ml] D'. destruct (_destroying s) eqn:D.
  - rewrite Md in D' by reflexivity. discriminate.
  - destruct (R D). split; auto.
Qed.

(** [m] only moves the peer, from any state / from a ready state. *)
Definition Moves {A} (m : M A) : Prop := forall s, moves s (state_of (m s)).
Definition MovesReady {A} (m : M A) : Prop :=
  forall s, ready s -> moves s (state_of (m s)).

Lemma Moves_ready {A} (m : M A) : Moves m -> MovesReady m.
Proof. intros H s _. apply H. Qed.

Lemma Moves_ret {A} (a : A) : Moves (mret a).
Proof. intros s. apply moves_refl. Qed.

Lemma Moves_skip : Moves skip.
Proof. apply Moves_ret. Qed.

Lemma Moves_throw {A} e : Moves (@throw A e).
Proof. intros s. apply moves_refl. Qed.

Lemma Moves_get : Moves get.
Proof. intros s. apply moves_refl. Qed.

Lemma Moves_bind {A B} (m : M A) (k : A -> M B) :
  Moves m -> (forall a, Moves (k a)) -> Moves (m ≫= k).
Proof.
  intros Hm Hk s. unfold mbind, M_bind. specialize (Hm s).
  destruct (m s) as [a s'|e s']; simpl in *; [|exact Hm].
  eapply moves_trans; [exact Hm|apply Hk].
Qed.

Lemma MovesReady_bind {A B} (m : M A) (k : A -> M B) :
  MovesReady m -> (forall a, MovesReady (k a)) -> MovesReady (m ≫= k).
Proof.
  intros Hm Hk s R. unfold mbind, M_bind. specialize (Hm s R).
  destruct (m s) as [a s'|e s']; simpl in *; [|exact Hm].
  eapply moves_trans; [exact Hm|apply Hk]. eapply ready_moves; eauto.
Qed.

Lemma Moves_try_catch {A} (m : M A) (h : Err -> M A) :
  Moves m -> (forall e, Moves (h e)) -> Moves (try_catch m h).
Proof.
  intros Hm Hh s. unfold try_catch. specialize (Hm s).
  destruct (m s) as [a s'|e s']; simpl in *; [exact Hm|].
  eapply moves_trans; [exact Hm|apply Hh].
Qed.

Lemma MovesReady_try_catch {A} (m : M A) (h : Err -> M A) :
  MovesReady m -> (forall e, MovesReady (h e)) -> MovesReady (try_catch m h).
Proof.
  intros Hm Hh s R. unfold try_catch. specialize (Hm s R).
  destruct (m s) as [a s'|e s']; simpl in *; [exact Hm|].
  eapply moves_trans; [exact Hm|apply Hh]. eapply ready_moves; eauto.
Qed.

Lemma Moves_modify f : (forall s, moves s (f s)) -> Moves (modify f).
Proof. intros H s. apply H. Qed.

Lemma Moves_forEach {A} (f : A -> M unit) xs :
  (forall x, Moves (f x)) -> Moves (forEach f xs).
Proof.
  intros H. induction xs as [|x xs IH]; simpl.
  - apply Moves_skip.
  - apply Moves_bind; auto.
Qed.

Lemma MovesReady_forEach {A} (f : A -> M unit) xs :
  (forall x, MovesReady (f x)) -> MovesReady (forEach f xs).
Proof.
  intros H. induction xs as [|x xs IH]; simpl.
  - apply Moves_ready, Moves_skip.
  - apply MovesReady_bind; auto.
Qed.

Lemma waits_app kind s l :
  existsb (fun p : nat * Task => kind p.2) (s ++ l)
  = existsb (fun p => kind p.2) s || existsb (fun p => kind p.2) l.
Proof. apply existsb_app. Qed.

Lemma waits_without kind id l :
  existsb (fun p : nat * Task => kind p.2) (without id l) = true ->
  existsb (fun p => kind p.2) l = true.
Proof.
  unfold without. induction l as [|p l IH]; simpl; [easy|].
  rewrite filter_cons. destruct (decide (p.1 <> id)); simpl.
  - intros H. apply orb_true_iff in H as [H|H]; [now rewrite H|].
    rewrite IH by assumption. apply orb_true_r.
  - intros H. rewrite IH by assumption. apply orb_true_r.
Qed.

Create HintDb moves.

(** Closes [moves s (f s)] for an update [f] of fields that [moves] does not
    watch, or watches in the direction of the update. *)
Ltac frame :=
  intros; constructor; unfold both_ready, waits; simpl; intros;
  rewrite ?waits_app in *; simpl in *; rewrite ?orb_false_r in *;
  try solve [ eauto using waits_without | congruence | tauto
            | apply fmap_is_Some; assumption ].

(** Walks through a method, statement by statement. *)
Ltac walk :=
  repeat first
    [ progress intros
    | apply Moves_skip | apply Moves_ret | apply Moves_throw | apply Moves_get
    | solve [auto with moves]
    | apply Moves_bind
    | apply Moves_try_catch
    | apply Moves_forEach
    | match goal with
      | |- Moves (if ?b then _ else _) => destruct b
      | |- Moves (match ?x with _ => _ end) => destruct x
      | |- Moves (let _ := _ in _) => cbv zeta
      end
    | apply Moves_modify; solve [frame]
    | apply Moves_modify; intros; repeat case_match; solve [apply moves_refl | frame] ].

Lemma Moves_effect e : Moves (effect e).
Proof. unfold effect. walk. Qed.
#[global] Hint Resolve Moves_effect : moves.

Lemma Moves_debug msg : Moves (_debug msg).
Proof. apply Moves_effect. Qed.

Lemma Moves_warn msg : Moves (warn msg).
Proof. apply Moves_effect. Qed.

Lemma Moves_emit ev : Moves (emit ev).
Proof. apply Moves_effect. Qed.
#[global] Hint Resolve Moves_debug Moves_warn Moves_emit : moves.

Lemma Moves_the_pc : Moves the_pc.
Proof. intros s. unfold the_pc. destruct (_pc s); apply moves_refl. Qed.

Lemma Moves_the_channel : Moves the_channel.
Proof. intros s. unfold the_channel. destruct (_channel s); apply moves_refl. Qed.

Lemma Moves_next_reply : Moves next_reply.
Proof. intros s. unfold next_reply. destruct (replies s); simpl; [apply moves_refl|frame]. Qed.
#[global] Hint Resolve Moves_the_pc Moves_the_channel Moves_next_reply : moves.

Lemma Moves_setTimeout body :
  is_stats body = false -> is_teardown body = false -> Moves (setTimeout body).
Proof.
  intros H1 H2 s. unfold setTimeout. simpl. frame.
  - rewrite H1 in *. rewrite orb_false_r in *. now left.
  - rewrite H2 in *. rewrite orb_false_r in *. now left.
Qed.

Lemma Moves_awaiting body :
  is_stats body = false -> is_teardown body = false -> Moves (awaiting body).
Proof. intros. unfold awaiting. apply Moves_bind; [now apply Moves_setTimeout|walk]. Qed.

Lemma Moves_clearTimeout t : Moves (clearTimeout t).
Proof. unfold clearTimeout. walk. Qed.

Lemma Moves_queueMicrotask body : Moves (queueMicrotask body).
Proof. unfold queueMicrotask. walk. Qed.
#[global] Hint Resolve Moves_clearTimeout Moves_queueMicrotask : moves.
#[global] Hint Extern 1 (Moves (setTimeout _)) => apply Moves_setTimeout; reflexivity : moves.
#[global] Hint Extern 1 (Moves (setInterval _)) => apply Moves_setTimeout; reflexivity : moves.
#[global] Hint Extern 1 (Moves (awaiting _)) => apply Moves_awaiting; reflexivity : moves.

Lemma Moves_pc_call op : Moves (pc_call op).
Proof. unfold pc_call. walk. Qed.

Lemma Moves_pc_async op body :
  is_stats body = false -> is_teardown body = false -> Moves (pc_async op body).
Proof. intros. unfold pc_async. apply Moves_bind; [walk|intros; now apply Moves_awaiting]. Qed.
#[global] Hint Resolve Moves_pc_call : moves.
#[global] Hint Extern 1 (Moves (pc_async _ _)) => apply Moves_pc_async; reflexivity : moves.

(** [_destroy] sets [_destroying] before it defers the teardown. *)
Lemma Moves_destroy cb err : Moves (_destroy cb err).
Proof.
  intros s. unfold _destroy, mbind, M_bind, get. simpl.
  destruct (destroyed s || _destroying s); simpl; [apply moves_refl|].
  frame.
Qed.
#[global] Hint Resolve Moves_destroy : moves.

Lemma Moves___destroy err : Moves (__destroy err).
Proof. unfold __destroy. walk. Qed.
#[global] Hint Resolve Moves___destroy : moves.

Lemma Moves_send chunk : Moves (send chunk).
Proof. unfold send. walk. Qed.

Lemma Moves_needsNegotiation : Moves _needsNegotiation.
Proof. unfold _needsNegotiation. walk. Qed.

Lemma Moves_negotiate : Moves negotiate.
Proof. unfold negotiate. walk. Qed.
#[global] Hint Resolve Moves_send Moves_needsNegotiation Moves_negotiate : moves.

Lemma Moves_batchedNegotiation : Moves batchedNegotiation.
Proof. unfold batchedNegotiation. walk. Qed.

Lemma Moves_startIceFailureRecoveryTimeout : Moves _startIceFailureRecoveryTimeout.
Proof. unfold _startIceFailureRecoveryTimeout. walk. Qed.
#[global] Hint Resolve Moves_batchedNegotiation Moves_startIceFailureRecoveryTimeout : moves.

Lemma Moves_iceFailureRecoveryTimeout_elapsed : Moves iceFailureRecoveryTimeout_elapsed.
Proof. unfold iceFailureRecoveryTimeout_elapsed. walk. Qed.

Lemma Moves_restartIce : Moves restartIce.
Proof. unfold restartIce. walk. Qed.
#[global] Hint Resolve Moves_iceFailureRecoveryTimeout_elapsed Moves_restartIce : moves.

Lemma Moves_addTransceiver kind init : Moves (addTransceiver kind init).
Proof. unfold addTransceiver. walk. Qed.
#[global] Hint Resolve Moves_addTransceiver : moves.

Lemma Moves_this_addTransceiver kind init : Moves (this_addTransceiver kind init).
Proof. unfold this_addTransceiver. walk. Qed.

Lemma Moves_requestMissingTransceivers : Moves _requestMissingTransceivers.
Proof. unfold _requestMissingTransceivers. walk. Qed.
#[global] Hint Resolve Moves_this_addTransceiver Moves_requestMissingTransceivers : moves.

Lemma Moves_sendOffer offer : Moves (sendOffer offer).
Proof. unfold sendOffer. walk. Qed.

Lemma Moves_sendAnswer answer : Moves (sendAnswer answer).
Proof. unfold sendAnswer. walk. Qed.
#[global] Hint Resolve Moves_sendOffer Moves_sendAnswer : moves.

Lemma Moves_listener_body l : Moves (listener_body l).
Proof. unfold listener_body. walk. Qed.
#[global] Hint Resolve Moves_listener_body : moves.

Lemma Moves_emit_iceGatheringComplete : Moves emit_iceGatheringComplete.
Proof. unfold emit_iceGatheringComplete. walk. Qed.
#[global] Hint Resolve Moves_emit_iceGatheringComplete : moves.

Lemma Moves_onIceGatheringComplete : Moves _onIceGatheringComplete.
Proof. unfold _onIceGatheringComplete. walk. Qed.
#[global] Hint Resolve Moves_onIceGatheringComplete : moves.

Lemma Moves_startIceCompleteTimeout : Moves _startIceCompleteTimeout.
Proof. unfold _startIceCompleteTimeout. walk. Qed.

Lemma Moves_iceCompleteTimeout_elapsed : Moves iceCompleteTimeout_elapsed.
Proof. unfold iceCompleteTimeout_elapsed. walk. Qed.

Lemma Moves_addIceCandidate c : Moves (_addIceCandidate c).
Proof. unfold _addIceCandidate. walk. Qed.

Lemma Moves_addIceCandidate_rejected c err : Moves (addIceCandidate_rejected c err).
Proof. unfold addIceCandidate_rejected. walk. Qed.
#[global] Hint Resolve Moves_startIceCompleteTimeout Moves_iceCompleteTimeout_elapsed
  Moves_addIceCandidate Moves_addIceCandidate_rejected : moves.

Lemma Moves_createOffer : Moves _createOffer.
Proof. unfold _createOffer. walk. Qed.

Lemma Moves_offer_created r : Moves (offer_created r).
Proof. unfold offer_created. walk. Qed.

Lemma Moves_offer_set offer r : Moves (offer_set offer r).
Proof. unfold offer_set. walk. Qed.

Lemma Moves_createAnswer : Moves _createAnswer.
Proof. unfold _createAnswer. walk. Qed.
#[global] Hint Resolve Moves_createOffer Moves_offer_created Moves_offer_set
  Moves_createAnswer : moves.

Lemma Moves_answer_created r : Moves (answer_created r).
Proof. unfold answer_created. walk. Qed.

Lemma Moves_answer_set answer r : Moves (answer_set answer r).
Proof. unfold answer_set. walk. Qed.

Lemma Moves_signal arg : Moves (signal arg).
Proof. unfold signal. walk. Qed.

Lemma Moves_remoteDescription_set d r : Moves (remoteDescription_set d r).
Proof. unfold remoteDescription_set. walk. Qed.
#[global] Hint Resolve Moves_answer_created Moves_answer_set Moves_signal
  Moves_remoteDescription_set : moves.

Lemma Moves_onChannelClose : Moves _onChannelClose.
Proof. unfold _onChannelClose. walk. Qed.
#[global] Hint Resolve Moves_onChannelClose : moves.

Lemma Moves_setupData channel : Moves (_setupData channel).
Proof. unfold _setupData. walk. Qed.

Lemma Moves_closingInterval_elapsed b : Moves (closingInterval_elapsed b).
Proof. unfold closingInterval_elapsed. walk. Qed.

Lemma Moves_onChannelError err : Moves (onChannelError err).
Proof. unfold onChannelError. walk. Qed.

Lemma Moves_write chunk cb : Moves (_write chunk cb).
Proof. unfold _write. walk. Qed.
#[global] Hint Resolve Moves_setupData Moves_closingInterval_elapsed
  Moves_onChannelError Moves_write : moves.

Lemma Moves_destroySoon : Moves destroySoon.
Proof. unfold destroySoon. walk. Qed.
#[global] Hint Resolve Moves_destroySoon : moves.

Lemma Moves_onFinish : Moves _onFinish.
Proof. unfold _onFinish. walk. Qed.

Lemma Moves_emit_connect : Moves emit_connect.
Proof. unfold emit_connect. walk. Qed.

Lemma Moves_final ended : Moves (_final ended).
Proof. unfold _final. walk. Qed.

Lemma Moves_onChannelBufferedAmountLow : Moves _onChannelBufferedAmountLow.
Proof. unfold _onChannelBufferedAmountLow. walk. Qed.
#[global] Hint Resolve Moves_onFinish Moves_emit_connect Moves_final
  Moves_onChannelBufferedAmountLow : moves.

Lemma Moves_onInterval : Moves _onInterval.
Proof. unfold _onInterval. walk. Qed.
#[global] Hint Resolve Moves_onInterval : moves.

Lemma moves_bind_at {A B} (m : M A) (k : A -> M B) s :
  moves s (state_of (m s)) ->
  (forall a s', m s = Ret a s' -> moves s' (state_of (k a s'))) ->
  moves s (state_of ((m ≫= k) s)).
Proof.
  intros Hm Hk. unfold mbind, M_bind. destruct (m s) as [a s'|e s'] eqn:E; simpl in *.
  - eapply moves_trans; [exact Hm|now apply Hk].
  - exact Hm.
Qed.

Ltac walkr :=
  repeat first
    [ progress intros
    | solve [apply Moves_ready; walk]
    | apply MovesReady_bind
    | apply MovesReady_try_catch
    | apply MovesReady_forEach
    | match goal with
      | |- MovesReady (if ?b then _ else _) => destruct b
      | |- MovesReady (match ?x with _ => _ end) => destruct x
      end ].

Lemma orb_false_both a b : a || b = false -> a = false /\ b = false.
Proof. destruct a, b; simpl; auto. Qed.

(** *** The selection loop of [_maybeReady] *)

Lemma find_None_existsb {A} (f : A -> bool) l : find f l = None <-> existsb f l = false.
Proof.
  induction l as [|x l IH]; simpl; [tauto|].
  destruct (f x); simpl; [split; discriminate|exact IH].
Qed.

Lemma existsb_reversed {A} (f : A -> bool) l : existsb f (rev l) = existsb f l.
Proof.
  induction l as [|x l IH]; simpl; [reflexivity|].
  rewrite existsb_app, IH. simpl. rewrite orb_false_r. apply orb_comm.
Qed.

Lemma candidatePair_known items id :
  candidatePair items id = None <-> pair_known items id = false.
Proof.
  unfold candidatePair, pair_known. now rewrite find_None_existsb, existsb_reversed.
Qed.

(** The peer after [n] pairs were selected. *)
Definition selected (n : nat) (s : Peer) : Peer :=
  set_log (s.(log) ++ repeat (Debug "connect local: %s:%s remote: %s:%s") n) s.

Lemma selected_0 s : selected 0 s = s.
Proof. destruct s. unfold selected. simpl. now rewrite app_nil_r. Qed.

Lemma selected_S n s :
  selected n (set_log (s.(log) ++ [Debug "connect local: %s:%s remote: %s:%s"]) s)
  = selected (S n) s.
Proof. destruct s. unfold selected. simpl. now rewrite <- app_assoc. Qed.

(** The loop returns what [foundSelectedCandidatePair] computes, or throws
    where it gives [None], having logged each selection. *)
Lemma selectCandidatePairs_run all items found s :
  selectCandidatePairs all items found s
  = match foundSelectedCandidatePair all items found with
    | Some b => Ret b (selected (selections all items) s)
    | None => Throw (TypeError "Cannot read properties of undefined (selectedCandidatePair)")
                    (selected (selections all items) s)
    end.
Proof.
  revert found s. induction items as [|item rest IH]; intros found s.
  - simpl. now rewrite selected_0.
  - cbn [selectCandidatePairs foundSelectedCandidatePair selections].
    change (is_type item ["transport"] && nonempty (item_selectedCandidatePairId item))
      with (spec_compliant item).
    change (is_type item ["googCandidatePair"] && (item_googActiveConnection item =? "true")
            || is_type item ["candidatepair"; "candidate-pair"] && item_selected item)
      with (old_implementation item).
    unfold mbind, M_bind, setSelectedCandidatePair, _debug, effect, modify, skip, mret,
      M_ret, throw.
    destruct (spec_compliant item); cbn [andb orb Nat.add].
    + destruct (pair_known all _) eqn:K; cbn [negb].
      * destruct (candidatePair all _) eqn:C;
          [|apply candidatePair_known in C; congruence].
        destruct (old_implementation item); rewrite IH;
          destruct (foundSelectedCandidatePair all rest _);
          rewrite ?selected_S; reflexivity.
      * apply candidatePair_known in K. rewrite K. now rewrite selected_0.
    + destruct (old_implementation item); rewrite IH;
        destruct (foundSelectedCandidatePair all rest _);
        rewrite ?selected_S; reflexivity.
Qed.

Lemma Moves_selectCandidatePairs all items found :
  Moves (selectCandidatePairs all items found).
Proof.
  intros s. rewrite selectCandidatePairs_run.
  destruct (foundSelectedCandidatePair all items found); destruct s; simpl; frame.
Qed.

(** Once both sides are ready, resolution may set [_connected], or poll
    again. *)
Lemma MovesReady_onStats res : MovesReady (onStats res).
Proof.
  intros s R. unfold onStats.
  apply moves_bind_at; [apply moves_refl|]. intros s0 s' E. injection E as <- <-.
  destruct (destroyed s || _destroying s) eqn:G; [apply moves_refl|].
  apply orb_false_both in G as [_ D]. cbv zeta.
  apply moves_bind_at; [apply Moves_selectCandidatePairs|]. intros found s1 E.
  assert (R1 : both_ready s1).
  { rewrite selectCandidatePairs_run in E. destruct (R D) as [P H].
    destruct (foundSelectedCandidatePair _ _ _); [|discriminate].
    injection E as _ <-. destruct s; split; assumption. }
  clear E. destruct R1 as [P H].
  match goal with |- context [if ?c then _ else _] => destruct c end.
  - unfold awaiting. apply moves_bind_at; [|intros; apply moves_refl].
    unfold setTimeout. simpl. frame.
  - apply moves_bind_at; [simpl; frame|]. intros a s2 E. injection E as <- <-.
    apply moves_bind_at; [simpl; frame|]. intros a s3 E. injection E as <- <-.
    match goal with |- moves ?x (state_of (?m ?x)) => generalize x; change (Moves m) end.
    walk.
Qed.

Lemma moves_getStats s : both_ready s -> moves s (state_of (getStats s)).
Proof.
  intros [P H]. unfold getStats.
  apply moves_bind_at; [apply Moves_the_pc|]. intros pc s' E.
  assert (s' = s) as -> by (unfold the_pc in E; destruct (_pc s); congruence).
  apply moves_bind_at; [apply moves_refl|]. intros s0 s' E'. injection E' as <- <-.
  assert (St : forall b, moves s (state_of (pc_async OpGetStats (TkGetStats b) s))).
  { intros b. unfold pc_async, awaiting, setTimeout, effect, modify, mbind, M_bind. simpl.
    frame. }
  destruct (_ || _); [apply St|]. destruct (_ <? _)%nat; [apply St|].
  apply MovesReady_onStats. intros _. now split.
Qed.

Lemma MovesReady_findCandidatePair : MovesReady findCandidatePair.
Proof.
  intros s R. unfold findCandidatePair.
  apply moves_bind_at; [apply moves_refl|]. intros s0 s' E. injection E as <- <-.
  destruct (destroyed s || _destroying s) eqn:G; [apply moves_refl|].
  apply orb_false_both in G as [_ D]. apply moves_getStats, R, D.
Qed.

Lemma MovesReady_stats_ready standard r : MovesReady (stats_ready standard r).
Proof.
  unfold stats_ready. destruct r; try (apply Moves_ready; walk; fail);
    try apply MovesReady_onStats.
  destruct standard; [apply MovesReady_onStats|].
  apply MovesReady_bind; [apply Moves_ready, Moves_get|]. intros s.
  destruct (destroyed s); [apply Moves_ready, Moves_skip|apply MovesReady_onStats].
Qed.

(** [_maybeReady] starts the resolution only when both flags are set. *)
Lemma Moves_maybeReady : Moves _maybeReady.
Proof.
  intros s. unfold _maybeReady.
  apply moves_bind_at; [apply Moves_debug|]. intros a s1 E.
  assert (F : _pcReady s1 = _pcReady s /\ _channelReady s1 = _channelReady s
              /\ _connecting s1 = _connecting s /\ _destroying s1 = _destroying s).
  { unfold _debug, effect, modify in E. injection E as <- <-. simpl. auto. }
  clear E. destruct F as (F1 & F2 & F3 & F4).
  apply moves_bind_at; [apply moves_refl|]. intros s0 s' E. injection E as <- <-.
  destruct (_connecting s1 || negb (_pcReady s1) || negb (_channelReady s1)) eqn:G;
    [apply moves_refl|].
  apply orb_false_both in G as [G H]. apply orb_false_both in G as [_ P].
  apply negb_false_iff in P, H.
  apply moves_bind_at; [simpl; frame|]. intros a' s2 E. injection E as <- <-.
  apply MovesReady_findCandidatePair. intros _. split; simpl; assumption.
Qed.
#[global] Hint Resolve Moves_maybeReady : moves.

Lemma Moves_onConnectionStateChange : Moves _onConnectionStateChange.
Proof. unfold _onConnectionStateChange. walk. Qed.

Lemma Moves_onIceStateChange : Moves _onIceStateChange.
Proof. unfold _onIceStateChange. walk. Qed.

Lemma Moves_onSignalingStateChange : Moves _onSignalingStateChange.
Proof. unfold _onSignalingStateChange. walk. Qed.

Lemma Moves_onIceCandidate c : Moves (_onIceCandidate c).
Proof. unfold _onIceCandidate. walk. Qed.

Lemma Moves_onChannelOpen : Moves _onChannelOpen.
Proof. unfold _onChannelOpen. walk. Qed.

Lemma Moves_connected : Moves connected.
Proof. unfold connected. walk. Qed.
#[global] Hint Resolve Moves_onConnectionStateChange Moves_onIceStateChange
  Moves_onSignalingStateChange Moves_onIceCandidate Moves_onChannelOpen
  Moves_connected : moves.

Lemma Moves_new_Map : Moves new_Map.
Proof. intros s. unfold new_Map. simpl. frame. Qed.

Lemma Moves_submap_set submap stream sender : Moves (submap_set submap stream sender).
Proof. unfold submap_set. walk. Qed.

Lemma Moves_senderMap_set track submap : Moves (senderMap_set track submap).
Proof. unfold senderMap_set. walk. Qed.

Lemma Moves_pc_addTrack track stream : Moves (pc_addTrack track stream).
Proof. unfold pc_addTrack. walk. Qed.
#[global] Hint Resolve Moves_new_Map Moves_submap_set Moves_senderMap_set
  Moves_pc_addTrack : moves.

Lemma Moves_addTrack track stream : Moves (addTrack track stream).
Proof. unfold addTrack. walk. Qed.
#[global] Hint Resolve Moves_addTrack : moves.

Lemma Moves_addStream stream : Moves (addStream stream).
Proof. unfold addStream. walk. Qed.

Lemma Moves_replaceTrack oldTrack newTrack stream :
  Moves (replaceTrack oldTrack newTrack stream).
Proof. unfold replaceTrack. walk. Qed.

Lemma Moves_removeTrack track stream : Moves (removeTrack track stream).
Proof. unfold removeTrack. walk. Qed.
#[global] Hint Resolve Moves_addStream Moves_replaceTrack Moves_removeTrack : moves.

Lemma Moves_removeStream stream : Moves (removeStream stream).
Proof. unfold removeStream. walk. Qed.

Lemma Moves_onTrack track streams : Moves (_onTrack track streams).
Proof. unfold _onTrack. walk. Qed.

Lemma Moves_onStream st : Moves (onStream st).
Proof. unfold onStream. walk. Qed.
#[global] Hint Resolve Moves_removeStream Moves_onTrack Moves_onStream : moves.

(** ** Properties kept along a run

    [Keeps R m]: every run of [m] relates the state it starts from to the
    state it ends in, whether it returns or throws. For a preorder [R] this
    follows statement by statement. *)

Definition Keeps (R : relation Peer) {A} (m : M A) : Prop :=
  forall s, R s (state_of (m s)).

Section Keeps.

Context (R : relation Peer) `{!PreOrder R}.

Lemma Keeps_ret {A} (a : A) : Keeps R (mret a).
Proof. intros s. reflexivity. Qed.

Lemma Keeps_skip : Keeps R skip.
Proof. apply Keeps_ret. Qed.

Lemma Keeps_throw {A} e : Keeps R (@throw A e).
Proof. intros s. reflexivity. Qed.

Lemma Keeps_get : Keeps R get.
Proof. intros s. reflexivity. Qed.

Lemma Keeps_bind {A B} (m : M A) (k : A -> M B) :
  Keeps R m -> (forall a, Keeps R (k a)) -> Keeps R (m ≫= k).
Proof.
  intros Hm Hk s. unfold mbind, M_bind. specialize (Hm s).
  destruct (m s) as [a s'|e s']; simpl in *; [|exact Hm].
  etransitivity; [exact Hm|apply Hk].
Qed.

Lemma Keeps_try_catch {A} (m : M A) (h : Err -> M A) :
  Keeps R m -> (forall e, Keeps R (h e)) -> Keeps R (try_catch m h).
Proof.
  intros Hm Hh s. unfold try_catch. specialize (Hm s).
  destruct (m s) as [a s'|e s']; simpl in *; [exact Hm|].
  etransitivity; [exact Hm|apply Hh].
Qed.

Lemma Keeps_modify f : (forall s, R s (f s)) -> Keeps R (modify f).
Proof. intros H s. apply H. Qed.

Lemma Keeps_forEach {A} (f : A -> M unit) xs :
  (forall x, Keeps R (f x)) -> Keeps R (forEach f xs).
Proof.
  intros H. induction xs as [|x xs IH]; simpl.
  - apply Keeps_skip.
  - apply Keeps_bind; auto.
Qed.

Lemma Keeps_repeatedly n m : Keeps R m -> Keeps R (repeatedly n m).
Proof.
  intros H. induction n as [|n IH]; simpl.
  - apply Keeps_skip.
  - apply Keeps_bind; auto.
Qed.

Lemma Keeps_selectCandidatePairs all items found :
  (forall n s, R s (selected n s)) -> Keeps R (selectCandidatePairs all items found).
Proof.
  intros H s. rewrite selectCandidatePairs_run.
  destruct (foundSelectedCandidatePair all items found); apply H.
Qed.

End Keeps.

Create HintDb keeps.
Create HintDb model.

#[global] Hint Unfold effect _debug warn emit awaiting setInterval clearTimeout
  queueMicrotask pc_call pc_async _destroy __destroy send _needsNegotiation negotiate
  batchedNegotiation _startIceFailureRecoveryTimeout iceFailureRecoveryTimeout_elapsed
  restartIce addTransceiver this_addTransceiver _requestMissingTransceivers sendOffer
  sendAnswer listener_body emit_iceGatheringComplete _onIceGatheringComplete
  _startIceCompleteTimeout iceCompleteTimeout_elapsed _addIceCandidate
  addIceCandidate_rejected _createOffer offer_created offer_set _createAnswer
  answer_created answer_set signal remoteDescription_set _onChannelClose _setupData
  closingInterval_elapsed onChannelError _write destroySoon _onFinish emit_connect _final
  _onChannelBufferedAmountLow _onInterval onStats getStats stats_ready findCandidatePair
  _maybeReady _onConnectionStateChange _onIceStateChange _onSignalingStateChange
  _onIceCandidate _onChannelOpen connected submap_set senderMap_set pc_addTrack addTrack
  addStream replaceTrack removeTrack removeStream _onTrack onStream teardown : model.

(** Closes [R s (f s)] for a relation given as a record of conditions on
    fields, when [f] updates fields the conditions do not constrain. *)
Ltac holds :=
  intros; constructor; unfold waits; simpl; intros;
  try solve [ reflexivity | assumption | eauto using waits_without | congruence | tauto ].

Ltac head_of t := lazymatch t with ?f _ => head_of f | _ => t end.

(** Walks through a method and the methods it calls, statement by
    statement; [keeps] holds what was proved of a method as a whole. *)
Ltac stroll :=
  repeat first
    [ progress intros
    | match goal with |- PreOrder _ => exact _ end
    | apply Keeps_skip | apply Keeps_ret | apply Keeps_throw | apply Keeps_get
    | solve [auto with keeps]
    | apply Keeps_bind
    | apply Keeps_try_catch
    | apply Keeps_forEach
    | apply Keeps_repeatedly
    | match goal with
      | |- Keeps _ (if ?b then _ else _) => destruct b
      | |- Keeps _ (match ?x with _ => _ end) => destruct x
      | |- Keeps _ (let _ := _ in _) => cbv zeta
      end
    | apply Keeps_modify; solve [holds]
    | apply Keeps_modify; intros; repeat case_match; solve [reflexivity | holds]
    | match goal with
      | |- Keeps _ ?m =>
          let h := head_of m in
          first [ is_const h | fail 1 ];
          lazymatch h with
          | setTimeout => fail | new_Map => fail | next_reply => fail
          | the_pc => fail | the_channel => fail
          | _ => unfold h
          end
      end
    | match goal with
      | |- Keeps _ _ =>
          intros ?; unfold setTimeout, new_Map, next_reply, the_pc, the_channel;
          repeat case_match; simpl; solve [reflexivity | holds]
      end ].

(** *** The deferred body of [_destroy] *)

Record torn (s s' : Peer) : Prop := mkTorn {
  torn_destroying : s'.(_destroying) = s.(_destroying);
  torn_connected : s.(_connected) = false -> s'.(_connected) = false;
  torn_waits : forall kind, waits kind s' = true -> waits kind s = true
}.

#[global] Instance torn_preorder : PreOrder torn.
Proof.
  split.
  - intros s. constructor; auto.
  - intros a b c [? ? ?] [? ? ?]. constructor; auto; congruence.
Qed.

Lemma teardown_torn cb err s :
  torn (set_connected false s) (state_of (teardown cb err s)).
Proof.
  unfold teardown.
  rewrite (bind_ret _ _ s tt (set_connected false s) eq_refl).
  match goal with
  | |- torn ?x (state_of (?m ?x)) => generalize x; change (Keeps torn m)
  end.
  stroll.
Qed.

Lemma teardown_connected cb err s : (state_of (teardown cb err s)).(_connected) = false.
Proof. now apply (teardown_torn cb err s). Qed.

Lemma teardown_destroying cb err s :
  (state_of (teardown cb err s)).(_destroying) = s.(_destroying).
Proof. apply (teardown_torn cb err s). Qed.

(** ** The invariant of the connectivity flags *)

Record Inv (s : Peer) : Prop := mkInv {
  inv_connected : s.(_connected) = true -> both_ready s;
  inv_stats : s.(_destroying) = false -> waits is_stats s = true -> both_ready s;
  inv_teardown : waits is_teardown s = true -> s.(_destroying) = true;
  inv_pc : s.(_destroying) = false -> is_Some s.(_pc)
}.

Lemma Inv_moves s s' : Inv s -> moves s s' -> Inv s'.
Proof.
  intros [I1 I2 I3 I4] [Mc Mp Mh Md Mf Ms Mt Me Mi Ml]. constructor.
  - intros C. destruct (Mc C) as [C0|?]; [|assumption].
    destruct (I1 C0). split; auto.
  - intros D' St. destruct (Ms St) as [St0|?]; [|assumption].
    destruct (_destroying s) eqn:D.
    + rewrite Md in D' by reflexivity. discriminate.
    + destruct (I2 eq_refl St0). split; auto.
  - intros Td. destruct (Mt Td) as [Td0|?]; auto.
  - intros D'. destruct (_destroying s) eqn:D.
    + rewrite Md in D' by reflexivity. discriminate.
    + auto.
Qed.

Lemma task_in_waits kind id l t :
  task_in id l = Some t -> kind t = true ->
  existsb (fun p : nat * Task => kind p.2) l = true.
Proof.
  induction l as [|[k t'] l IH]; simpl; [discriminate|].
  destruct (k =? id)%nat.
  - intros [= ->] ->. reflexivity.
  - intros. rewrite IH by assumption. apply orb_true_r.
Qed.

Lemma Inv_teardown cb err s :
  s.(_destroying) = true -> Inv (state_of (teardown cb err s)).
Proof.
  intros D. pose proof (teardown_connected cb err s) as C.
  pose proof (teardown_destroying cb err s) as D'.
  constructor; congruence.
Qed.

Lemma without_moves id s : moves s (set_pending (without id (pending s)) s).
Proof. frame. Qed.

Lemma rearmed_waits kind id b l :
  kind (TkClosingInterval b) = false ->
  existsb (fun p : nat * Task => kind p.2)
    (map (fun p => if decide (p.1 = id) then (id, TkClosingInterval b) else p) l) = true ->
  existsb (fun p => kind p.2) l = true.
Proof.
  intros K. induction l as [|p l IH]; simpl; [easy|].
  destruct (decide (p.1 = id)); simpl.
  - rewrite K. simpl. intros H. rewrite IH by assumption. apply orb_true_r.
  - intros H. apply orb_true_iff in H as [H|H]; [now rewrite H|].
    rewrite IH by assumption. apply orb_true_r.
Qed.

Lemma rearm_moves id b s :
  moves s (set_pending
    (map (fun p => if decide (p.1 = id) then (id, TkClosingInterval b) else p)
         (pending s)) s).
Proof.
  constructor; unfold both_ready, waits; simpl; auto; intros H; left;
    eapply rearmed_waits; eauto.
Qed.

Lemma Moves_run_microtask : Moves run_microtask.
Proof. unfold run_microtask. walk. Qed.

Section Reachable.

Variable text2arr : JsData -> list Byte.byte.

Lemma Moves_onChannelMessage data : Moves (_onChannelMessage text2arr data).
Proof. unfold _onChannelMessage. walk. Qed.

(** A pending body other than the teardown, resumed. *)
Lemma moves_run_task t r s :
  is_teardown t = false -> (is_stats t = true -> ready s) ->
  moves s (state_of (run_task t r s)).
Proof.
  intros T R. destruct t; simpl in *; try discriminate;
    try (apply MovesReady_findCandidatePair; auto; fail);
    try (apply MovesReady_stats_ready; auto; fail);
    match goal with |- moves ?x (state_of (?m ?x)) => generalize x; change (Moves m) end;
    walk.
Qed.

Lemma Inv_fire id r s : Inv s -> Inv (state_of (fire id r s)).
Proof.
  intros I. unfold fire, mbind at 1, M_bind at 1, get, task_of.
  destruct (task_in id (pending s)) as [t|] eqn:E; [|exact I].
  assert (Stats : is_stats t = true -> ready s).
  { intros St D. apply (inv_stats s I D). eapply (task_in_waits is_stats); eauto. }
  assert (Td : is_teardown t = true -> _destroying s = true).
  { intros T. apply (inv_teardown s I). eapply (task_in_waits is_teardown); eauto. }
  assert (Gone : is_teardown t = false ->
    Inv (state_of ((modify (fun s => set_pending (without id (pending s)) s) ;;
                    run_task t r) s))).
  { intros T. apply (Inv_moves s); [exact I|].
    apply moves_bind_at; [apply without_moves|]. intros a s' Es. injection Es as <- <-.
    apply moves_run_task; [exact T|]. intros St.
    eapply ready_moves; [apply Stats, St|apply without_moves]. }
  destruct t; try (apply Gone; reflexivity).
  - (* the teardown *)
    unfold mbind, M_bind, modify. simpl. apply Inv_teardown. simpl. now apply Td.
  - (* the interval of [_setupData] *)
    apply (Inv_moves s); [exact I|].
    apply moves_bind_at; [apply Moves_closingInterval_elapsed|]. intros b s' _.
    apply rearm_moves.
  - (* the polling interval *)
    apply (Inv_moves s); [exact I|apply Moves_onInterval].
Qed.

Lemma Moves_handle i : (forall id r, i <> Fire id r) -> Moves (handle text2arr i).
Proof.
  intros NF. destruct i; simpl; try (now destruct (NF id r));
    unfold if_full, if_pc, if_channel; walk;
    auto using Moves_onChannelMessage, Moves_run_microtask.
Qed.

Lemma Inv_step i answers s : Inv s -> Inv (step text2arr i answers s).
Proof.
  intros I. unfold step.
  assert (I' : Inv (set_replies answers s)).
  { apply (Inv_moves s); [exact I|frame]. }
  destruct i; try (apply (Inv_moves _ _ I'), Moves_handle; discriminate).
  now apply Inv_fire.
Qed.

Lemma Inv_bind_at {A B} (m : M A) (k : A -> M B) s :
  (forall a s', m s = Ret a s' -> Inv (state_of (k a s'))) ->
  (forall e s', m s = Throw e s' -> Inv s') ->
  Inv (state_of ((m ≫= k) s)).
Proof.
  intros Hr Ht. unfold mbind, M_bind. destruct (m s) as [a s'|e s']; simpl; eauto.
Qed.

Lemma Inv_new c opts env s : new_Peer c opts env = inr s -> Inv s.
Proof.
  unfold new_Peer. destruct (negb _); [discriminate|]. intros [= <-].
  assert (L : Inv (state_of (lite_constructor env (fields c opts env)))).
  { unfold lite_constructor.
    apply Inv_bind_at; [|discriminate]. intros [] s1 E.
    unfold _debug, effect, modify in E. injection E as <-.
    destruct (new_RTCPeerConnection env) as [err|pc].
    - constructor; vm_compute; intros; try discriminate; auto.
    - apply Inv_bind_at; [|discriminate]. intros [] s2 E.
      unfold modify in E. injection E as <-.
      match goal with
      | |- Inv (state_of (?m ?x)) => apply (Inv_moves x); [|generalize x; change (Moves m)]
      end.
      + constructor; simpl; try discriminate; eauto.
      + walk. }
  destruct c; [exact L|]. unfold full_constructor.
  unfold mbind at 1, M_bind at 1.
  destruct (lite_constructor env (fields FullPeer opts env)) as [[] s1|e s1];
    simpl in L |- *; [|exact L].
  match goal with
  | |- Inv (state_of (?m ?x)) => apply (Inv_moves x); [exact L|generalize x; change (Moves m)]
  end.
  walk.
Qed.

(** Every state a peer goes through satisfies the invariant. *)
Lemma reachable_Inv s : reachable text2arr s -> Inv s.
Proof.
  induction 1 as [c opts env s E|i answers s _ IH].
  - eapply Inv_new; eauto.
  - now apply Inv_step.
Qed.

End Reachable.

(** ** Running a method on a symbolic state

    The state is opened into its fields; the monad, the methods and the
    field updates are then reduced, and nothing else: lists, maps and
    strings stay as they are. Where the run depends on a field, the field
    is decided by a hypothesis, or by cases. *)

Ltac reduce :=
  lazy beta iota zeta delta
      [mbind M_bind mret M_ret get modify skip throw try_catch state_of thrown orb andb
       negb fst snd mjoin option_join option_bind fmap option_fmap option_map default
       from_option senderMap_get submap_get sender_removed cls __objectMode initiator channelName channelNegotiated trickle
       allowHalfTrickle iceCompleteTimeout iceRestartEnabled iceFailureRecoveryTimeout
       sdpTransform offerOptions_iceRestart _isReactNativeWebrtc destroyed _destroying
       _connected _connecting _connectedOnce _pcReady _channelReady _iceGatheringComplete
       _iceGatheringCompleteTimer _iceFailureRecoveryTimer _channel _pc _pendingCandidates
       _isNegotiating _isRestartingIce _firstNegotiation _batchedNegotiation
       _queuedNegotiation _sendersAwaitingStable _closingInterval _remoteTracks
       _remoteStreams _chunk _cb _interval _onFinishBound _senderMap submaps senders
       onceIceGatheringComplete onceConnect onceFinish microtasks pending next_id replies
       log set_channelName set_offerOptions_iceRestart set_destroyed set_destroying
       set_connected set_connecting set_connectedOnce set_pcReady set_channelReady
       set_iceGatheringComplete set_iceGatheringCompleteTimer set_iceFailureRecoveryTimer
       set_channel set_pc set_pendingCandidates set_isNegotiating set_isRestartingIce
       set_firstNegotiation set_batchedNegotiation set_queuedNegotiation
       set_sendersAwaitingStable set_closingInterval set_remoteTracks set_remoteStreams
       set_chunk set_cb set_interval set_onFinishBound set_senderMap set_submaps
       set_senders set_onceIceGatheringComplete set_onceConnect set_onceFinish
       set_microtasks set_pending set_next_id set_replies set_log effect _debug warn emit
       awaiting setTimeout setInterval clearTimeout queueMicrotask next_reply the_pc
       the_channel pc_call pc_async _destroy __destroy send _needsNegotiation negotiate
       batchedNegotiation _startIceFailureRecoveryTimeout iceFailureRecoveryTimeout_elapsed
       restartIce addTransceiver this_addTransceiver _requestMissingTransceivers sendOffer
       sendAnswer listener_body emit_iceGatheringComplete _onIceGatheringComplete
       _startIceCompleteTimeout iceCompleteTimeout_elapsed _addIceCandidate
       addIceCandidate_rejected _createOffer offer_created offer_set _createAnswer
       answer_created answer_set signal remoteDescription_set _onChannelClose _setupData
       closingInterval_elapsed onChannelError _write destroySoon _onFinish 
       _final _onChannelBufferedAmountLow _onInterval onStats getStats stats_ready
       findCandidatePair _maybeReady _onConnectionStateChange _onIceStateChange
       _onSignalingStateChange _onIceCandidate _onChannelOpen connected new_Map submap_set
       senderMap_set pc_addTrack addTrack addStream replaceTrack removeTrack removeStream
       _onTrack onStream teardown run_microtask ice_established
       restart_truthy defined nonempty truthy] in *.

Ltac open_state s :=
  destruct s; reduce; subst.

Ltac branch :=
  match goal with
  | |- context [match ?x with _ => _ end] =>
      first [ is_var x; destruct x
            | lazymatch x with
              | context [match _ with _ => _ end] => fail
              | context [forEach] => fail
              | context [emit_connect] => fail
              | _ => destruct x eqn:?
              end ]
  end.

Ltac run := reduce; repeat (branch; reduce).

(** ** Running a method by hand *)

Lemma get_bind {B} (k : Peer -> M B) s : (get ≫= k) s = k s s.
Proof. reflexivity. Qed.

Lemma ret_bind {A B} (a : A) (k : A -> M B) s : (mret a ≫= k) s = k a s.
Proof. reflexivity. Qed.

Lemma modify_bind {B} f (k : unit -> M B) s : (modify f ≫= k) s = k tt (f s).
Proof. reflexivity. Qed.

Lemma effect_bind {B} e (k : unit -> M B) s :
  (effect e ≫= k) s = k tt (set_log (log s ++ [e]) s).
Proof. reflexivity. Qed.

Lemma debug_bind {B} msg (k : unit -> M B) s :
  (_debug msg ≫= k) s = k tt (set_log (log s ++ [Debug msg]) s).
Proof. reflexivity. Qed.

Lemma bind_assoc {A B C} (m : M A) (k : A -> M B) (h : B -> M C) s :
  ((m ≫= k) ≫= h) s = (m ≫= (fun a => k a ≫= h)) s.
Proof. unfold mbind, M_bind. destruct (m s); reflexivity. Qed.

(** [_needsNegotiation], case by case. *)
Lemma needsNegotiation_batched s :
  s.(_batchedNegotiation) = true ->
  _needsNegotiation s = Ret tt (set_log (log s ++ [Debug "_needsNegotiation"]) s).
Proof.
  intros B. unfold _needsNegotiation. rewrite debug_bind, get_bind. simpl. now rewrite B.
Qed.

Lemma needsNegotiation_first s :
  s.(_batchedNegotiation) = false ->
  _needsNegotiation s =
    Ret tt (set_microtasks (microtasks s ++ [NeedsNegotiation])
             (set_batchedNegotiation true
                (set_log (log s ++ [Debug "_needsNegotiation"]) s))).
Proof.
  intros B. unfold _needsNegotiation. rewrite debug_bind, get_bind. simpl. now rewrite B.
Qed.

Lemma repeatedly_batched n s :
  s.(_batchedNegotiation) = true ->
  repeatedly n _needsNegotiation s =
    Ret tt (set_log (log s ++ repeat (Debug "_needsNegotiation") n) s).
Proof.
  revert s. induction n as [|n IH]; intros s B; simpl.
  - destruct s; simpl. now rewrite app_nil_r.
  - rewrite (bind_ret _ _ _ _ _ (needsNegotiation_batched s B)).
    rewrite IH by exact B. simpl. now rewrite <- app_assoc.
Qed.

(** How many times the log holds an effect of some kind. *)
Definition occurrences (kind : Effect -> bool) (l : list Effect) : nat :=
  length (List.filter kind l).

Lemma occurrences_app kind l l' :
  occurrences kind (l ++ l') = occurrences kind l + occurrences kind l'.
Proof. unfold occurrences. now rewrite List.filter_app, length_app. Qed.

(** [batchedNegotiation] is about to call [negotiate]. *)
Definition starts_negotiation (e : Effect) : bool :=
  match e with
  | Debug msg => msg =? "starting batched negotiation"
  | _ => false
  end.

Definition is_createOffer (t : Task) : bool :=
  match t with TkCreateOffer => true | _ => false end.

Definition asks_renegotiation (e : Effect) : bool :=
  match e with
  | Emit (EvSignal SigRenegotiate) => true
  | _ => false
  end.

(** A round that [negotiate] started: an offer about to be created on the
    initiator, a request sent to the initiator on the responder. *)
Definition rounds_started (s : Peer) : nat :=
  length (List.filter (fun p => is_createOffer p.2) s.(pending))
  + occurrences asks_renegotiation s.(log).

Lemma run_microtask_batch s rest :
  s.(microtasks) = NeedsNegotiation :: rest ->
  run_microtask s = batchedNegotiation (set_microtasks rest s).
Proof. intros E. unfold run_microtask. rewrite get_bind, E. reflexivity. Qed.

(** What [negotiate] adds when the peer is not destroyed. *)
Lemma negotiate_alive s :
  s.(destroyed) = false ->
  exists s', negotiate s = Ret tt s'
    /\ s'.(_firstNegotiation) = s.(_firstNegotiation)
    /\ s'.(_batchedNegotiation) = s.(_batchedNegotiation)
    /\ s'.(microtasks) = s.(microtasks)
    /\ occurrences starts_negotiation s'.(log) = occurrences starts_negotiation s.(log)
    /\ rounds_started s' =
         rounds_started s + (if s.(_destroying) || s.(_isNegotiating) then 0 else 1)
    /\ s'.(_queuedNegotiation) =
         (if s.(_destroying) then s.(_queuedNegotiation)
          else s.(_queuedNegotiation) || s.(_isNegotiating))
    /\ s'.(_isNegotiating) = (if s.(_destroying) then s.(_isNegotiating) else true).
Proof.
  intros D. unfold negotiate. rewrite get_bind, D.
  destruct (_destroying s) eqn:Dg; simpl.
  - eexists; repeat split; try reflexivity. apply plus_n_O.
  - unfold rounds_started, occurrences, awaiting, setTimeout.
    destruct (initiator s), (_isNegotiating s) eqn:N; simpl;
      (eexists; split; [reflexivity|]); simpl;
      rewrite ?List.filter_app, ?length_app; simpl;
      rewrite ?N, ?orb_true_r, ?orb_false_r; repeat split;
      rewrite ?Nat.add_0_r; try reflexivity; try lia.
Qed.

Lemma needsNegotiation_calls n s :
  s.(_batchedNegotiation) = false ->
  repeatedly (S n) _needsNegotiation s =
    Ret tt (set_log (log s ++ repeat (Debug "_needsNegotiation") (S n))
             (set_microtasks (microtasks s ++ [NeedsNegotiation])
                (set_batchedNegotiation true s))).
Proof.
  intros B. simpl repeatedly.
  rewrite (bind_ret _ _ _ _ _ (needsNegotiation_first s B)).
  rewrite repeatedly_batched by reflexivity. simpl. now rewrite <- app_assoc.
Qed.

Lemma filter_repeat_none {A} (kind : A -> bool) e n :
  kind e = false -> List.filter kind (repeat e n) = [].
Proof. intros K. induction n as [|n IH]; simpl; [|rewrite K]; auto. Qed.

(** What the microtask of a batch does on a peer that is not destroyed. *)
Lemma batchedNegotiation_alive s :
  s.(destroyed) = false ->
  let wanted := s.(initiator) || negb s.(_firstNegotiation) in
  exists s', batchedNegotiation s = Ret tt s'
    /\ s'.(_batchedNegotiation) = false
    /\ s'.(_firstNegotiation) = false
    /\ s'.(microtasks) = s.(microtasks)
    /\ occurrences starts_negotiation s'.(log)
       = occurrences starts_negotiation s.(log) + (if wanted then 1 else 0)
    /\ rounds_started s'
       = rounds_started s
         + (if wanted && negb (s.(_destroying) || s.(_isNegotiating)) then 1 else 0)
    /\ s'.(_queuedNegotiation)
       = (if wanted && negb s.(_destroying)
          then s.(_queuedNegotiation) || s.(_isNegotiating) else s.(_queuedNegotiation)).
Proof.
  intros D wanted. unfold batchedNegotiation.
  rewrite modify_bind, get_bind. simpl. fold wanted.
  destruct wanted.
  - rewrite bind_assoc, debug_bind.
    set (s1 := set_log _ _).
    destruct (negotiate_alive s1 D) as (s2 & E & F & B & Mi & O & Ro & Q & N).
    rewrite (bind_ret _ _ _ _ _ E). unfold modify.
    eexists; split; [reflexivity|]. simpl.
    unfold rounds_started, occurrences in *. simpl in *.
    rewrite List.filter_app, length_app in O, Ro. simpl in O, Ro.
    destruct (_destroying s), (_isNegotiating s); simpl in *;
      repeat split; auto; lia.
  - rewrite debug_bind. unfold modify.
    eexists; split; [reflexivity|]. simpl.
    unfold rounds_started, occurrences. simpl.
    rewrite !List.filter_app, !length_app. simpl. repeat split; lia.
Qed.

(** C1. Any number of calls of [_needsNegotiation] in one tick, on a peer
    that is not destroyed, start one negotiation: the first call sets the
    batching flag and queues the microtask, every further call only logs and
    returns, and the microtask calls [negotiate] once, or not at all for the
    first request of a responder. [negotiate] then starts one round, unless
    the peer is on its way out, or a round is in flight and this one is
    queued behind it. *)
Theorem needsNegotiation_one_round_per_tick n s :
  s.(_batchedNegotiation) = false -> s.(microtasks) = [] -> s.(destroyed) = false ->
  let s1 := state_of (repeatedly (S n) _needsNegotiation s) in
  let s2 := state_of (run_microtask s1) in
  let wanted := s.(initiator) || negb s.(_firstNegotiation) in
  repeatedly (S n) _needsNegotiation s =
    Ret tt (set_log (log s ++ repeat (Debug "_needsNegotiation") (S n))
             (set_microtasks [NeedsNegotiation] (set_batchedNegotiation true s)))
  /\ run_microtask s1 = Ret tt s2
  /\ s2.(microtasks) = []
  /\ s2.(_batchedNegotiation) = false
  /\ occurrences starts_negotiation s2.(log)
     = occurrences starts_negotiation s.(log) + (if wanted then 1 else 0)
  /\ rounds_started s2
     = rounds_started s
       + (if wanted && negb (s.(_destroying) || s.(_isNegotiating)) then 1 else 0)
  /\ s2.(_queuedNegotiation)
     = (if wanted && negb s.(_destroying)
        then s.(_queuedNegotiation) || s.(_isNegotiating) else s.(_queuedNegotiation)).
Proof.
  intros B Mi D s1 s2 wanted.
  assert (E1 : repeatedly (S n) _needsNegotiation s =
    Ret tt (set_log (log s ++ repeat (Debug "_needsNegotiation") (S n))
             (set_microtasks [NeedsNegotiation] (set_batchedNegotiation true s)))).
  { rewrite needsNegotiation_calls by exact B. now rewrite Mi. }
  split; [exact E1|].
  subst s2. subst s1. rewrite E1. cbn [state_of].
  set (s1 := set_log _ _).
  rewrite (run_microtask_batch s1 []) by reflexivity.
  set (s1' := set_microtasks [] s1).
  destruct (batchedNegotiation_alive s1' D) as (s2 & E & Bf & _ & M2 & O & Ro & Q).
  rewrite E. cbn [state_of]. clear E.
  subst s1' s1.
  cbn [initiator _firstNegotiation _destroying _isNegotiating _queuedNegotiation
       microtasks log pending set_microtasks set_log set_batchedNegotiation] in *.
  fold wanted in O, Ro, Q. unfold rounds_started, occurrences in *.
  cbn [log pending set_microtasks set_log set_batchedNegotiation] in *.
  rewrite List.filter_app, length_app, filter_repeat_none in O, Ro by reflexivity.
  simpl in O, Ro. repeat split; auto; lia.
Qed.

(** ** [restartIce] *)

Definition restarts_engine (e : Effect) : bool :=
  match e with PcCall OpRestartIce => true | _ => false end.

(** The conditions under which [restartIce] declines. *)
Definition restart_refused (s : Peer) : bool :=
  s.(destroyed) || s.(_destroying) || negb s.(initiator) || s.(_isRestartingIce).

(** [pending] after [clearTimeout(t)]. *)
Definition cleared (t : option nat) (l : list (nat * Task)) : list (nat * Task) :=
  match t with Some id => without id l | None => l end.

(** [restartIce] on a peer that holds its engine. *)
Lemma restartIce_run s pc :
  s.(_pc) = Some pc ->
  exists s', restartIce s = Ret (negb (restart_refused s)) s'
  /\ (restart_refused s = true ->
      s'.(pending) = s.(pending) /\ s'.(microtasks) = s.(microtasks)
      /\ s'.(_isRestartingIce) = s.(_isRestartingIce)
      /\ s'.(_isNegotiating) = s.(_isNegotiating)
      /\ s'.(_iceGatheringComplete) = s.(_iceGatheringComplete)
      /\ s'.(_batchedNegotiation) = s.(_batchedNegotiation)
      /\ occurrences restarts_engine s'.(log) = occurrences restarts_engine s.(log))
  /\ (restart_refused s = false ->
      s'.(_iceGatheringComplete) = false
      /\ s'.(_iceGatheringCompleteTimer) = None
      /\ s'.(pending) =
           match s.(_iceFailureRecoveryTimer) with
           | Some r =>
               (cleared s.(_iceGatheringCompleteTimer) (without r s.(pending))
                ++ [(s.(next_id), TkIceFailureRecovery)])
           | None => cleared s.(_iceGatheringCompleteTimer) s.(pending)
           end
      /\ s'.(_isNegotiating) = false
      /\ s'.(_isRestartingIce) = true
      /\ occurrences restarts_engine s'.(log)
         = occurrences restarts_engine s.(log) + (if pc.(pc_restartIce) then 1 else 0)
      /\ s'.(_batchedNegotiation) = true
      /\ s'.(microtasks) =
           (if s.(_batchedNegotiation) then s.(microtasks)
            else (s.(microtasks) ++ [NeedsNegotiation]))).
Proof.
  intros P. unfold restart_refused, occurrences, cleared. open_state s. run;
    (eexists; split; [reflexivity|]); reduce; (split; [try discriminate|try discriminate]);
    intros _; rewrite ?List.filter_app, ?length_app; simpl;
    rewrite ?Nat.add_0_r; repeat split; try lia.
Qed.

(** ** The public operations on a peer that is going *)

Inductive Operation :=
| DoSignal (arg : SignalArg)
| DoSend (chunk : JsData)
| DoNegotiate
| DoRestartIce
| DoAddTransceiver (kind init : string)
| DoAddStream (stream : MediaStream)
| DoAddTrack (track : MediaStreamTrack) (stream : MediaStream)
| DoReplaceTrack (oldTrack : MediaStreamTrack) (newTrack : option MediaStreamTrack)
                 (stream : MediaStream)
| DoRemoveTrack (track : MediaStreamTrack) (stream : MediaStream)
| DoRemoveStream (stream : MediaStream).

(** The call of an operation, with what it returns: a boolean for
    [restartIce], nothing for the others. *)
Definition call (op : Operation) : M (option bool) :=
  match op with
  | DoSignal arg => signal arg ;; mret None
  | DoSend chunk => send chunk ;; mret None
  | DoNegotiate => negotiate ;; mret None
  | DoRestartIce => b ← restartIce; mret (Some b)
  | DoAddTransceiver kind init => addTransceiver kind init ;; mret None
  | DoAddStream stream => addStream stream ;; mret None
  | DoAddTrack track stream => addTrack track stream ;; mret None
  | DoReplaceTrack oldTrack newTrack stream =>
      replaceTrack oldTrack newTrack stream ;; mret None
  | DoRemoveTrack track stream => removeTrack track stream ;; mret None
  | DoRemoveStream stream => removeStream stream ;; mret None
  end.

Definition declined (op : Operation) : option bool :=
  match op with DoRestartIce => Some false | _ => None end.

Definition is_ERR_DESTROYED (e : Err) : bool :=
  match e.(err_code) with Some code => code =? "ERR_DESTROYED" | None => false end.

(** While [_destroying] is set every operation returns at once and leaves
    the peer, its log included, as it was. *)
Lemma call_while_destroying op s :
  s.(_destroying) = true -> call op s = Ret (declined op) s.
Proof.
  intros D. destruct op; unfold call; open_state s; run; reflexivity.
Qed.

(** Once the stream is destroyed and [_destroying] is not set, every
    operation but [restartIce] throws [ERR_DESTROYED]; [restartIce] returns
    false. *)
Lemma call_when_destroyed op s :
  s.(_destroying) = false -> s.(destroyed) = true ->
  match op with
  | DoRestartIce => call op s = Ret (Some false) s
  | _ => exists e, call op s = Throw e s /\ is_ERR_DESTROYED e = true
  end.
Proof.
  intros D X. destruct op; unfold call; open_state s; run;
    solve [reflexivity | eexists; split; reflexivity].
Qed.

(** ** [get connected] *)

Definition is_open (ch : Channel) : bool :=
  if ch.(readyState) is RsOpen then true else false.

(** ** [_write] and the chunk written before the connection *)

Definition sends (chunk : JsData) (e : Effect) : Prop := e = ChannelCall (OpSend chunk).

Definition is_send (e : Effect) : bool :=
  match e with ChannelCall (OpSend _) => true | _ => false end.

Definition is_callback (e : Effect) : bool :=
  match e with Callback _ _ => true | _ => false end.

(** [_write] before the connection keeps the chunk and the callback. *)
Lemma write_before_connect chunk cb s :
  s.(destroyed) = false -> s.(_connected) = false ->
  _write chunk cb s =
    Ret tt (set_cb (Some cb) (set_chunk (Some chunk)
              (set_log (log s ++ [Debug "write before connect"]) s))).
Proof. intros D C. open_state s. reduce. reflexivity. Qed.

(** [_write] on a connected peer hands the chunk to the channel at once,
    whatever the chunk. *)
Lemma write_when_connected chunk cb s ch :
  s.(destroyed) = false -> s.(_destroying) = false -> s.(_connected) = true ->
  s.(_channel) = Some ch -> s.(replies) = [] ->
  exists s', _write chunk cb s = Ret tt s'
    /\ s'.(log) = s.(log) ++ [ChannelCall (OpSend chunk)]
         ++ (if (MAX_BUFFERED_AMOUNT <? ch.(bufferedAmount))%nat
             then [Debug "start backpressure: bufferedAmount %d"]
             else [Callback cb None])
    /\ s'.(_chunk) = s.(_chunk)
    /\ s'.(_cb) = (if (MAX_BUFFERED_AMOUNT <? ch.(bufferedAmount))%nat
                   then Some cb else s.(_cb)).
Proof.
  intros D G C Ch R. open_state s. run;
    (eexists; split; [reflexivity|]); reduce; rewrite <- ?app_assoc; auto.
Qed.

(** The chunks handed to the channel, in order. *)
Definition sent (s : Peer) : list JsData :=
  omap (fun e => if e is ChannelCall (OpSend chunk) then Some chunk else None) s.(log).

(** The write callbacks invoked without an error, in order. *)
Definition completed (s : Peer) : list Cb :=
  omap (fun e => if e is Callback cb None then Some cb else None) s.(log).

(** Resolution succeeded on these reports: a selected pair was found, or
    the engine reports pairs but no local candidate. *)
Definition resolved (items : list StatItem) : bool :=
  match foundSelectedCandidatePair items items false with
  | Some found =>
      negb (negb found && (match candidatePairs items with [] => true | _ => false end
                           || match localCandidates items with [] => false | _ => true end))
  | None => false
  end.

(** What the listeners of 'connect' leave untouched. *)
Record announced (s s' : Peer) : Prop := mkAnnounced {
  an_log : s'.(log) = s.(log);
  an_chunk : s'.(_chunk) = s.(_chunk);
  an_cb : s'.(_cb) = s.(_cb);
  an_connected : s'.(_connected) = s.(_connected);
  an_connectedOnce : s'.(_connectedOnce) = s.(_connectedOnce);
  an_destroying : s'.(_destroying) = s.(_destroying);
  an_destroyed : s'.(destroyed) = s.(destroyed);
  an_channel : s'.(_channel) = s.(_channel);
  an_interval : s'.(_interval) = s.(_interval)
}.

Lemma destroySoon_listeners l s :
  exists s',
    forEach (fun _ : nat =>
      modify (fun s => set_onceConnect (pred s.(onceConnect)) s) ;; destroySoon) l s
    = Ret tt s' /\ announced s s'.
Proof.
  revert s. induction l as [|x l IH]; intros s; simpl.
  - eexists; split; [reflexivity|]. constructor; reflexivity.
  - match goal with
    | |- context [(?m ≫= ?k) s] =>
        assert (E : exists s1, m s = Ret tt s1 /\ announced s s1)
    end.
    { open_state s. reduce. eexists; split; [reflexivity|]. constructor; reflexivity. }
    destruct E as (s1 & E & A1). rewrite (bind_ret _ _ _ _ _ E).
    destruct (IH s1) as (s2 & E2 & A2). exists s2. split; [exact E2|].
    destruct A1, A2. constructor; congruence.
Qed.

Lemma emit_connect_run s :
  exists s', emit_connect s = Ret tt s'
    /\ s'.(log) = s.(log) ++ [Emit EvConnect]
    /\ s'.(_chunk) = s.(_chunk) /\ s'.(_cb) = s.(_cb)
    /\ s'.(_connected) = s.(_connected) /\ s'.(_connectedOnce) = s.(_connectedOnce)
    /\ s'.(_destroying) = s.(_destroying) /\ s'.(destroyed) = s.(destroyed)
    /\ s'.(_channel) = s.(_channel) /\ s'.(_interval) = s.(_interval).
Proof.
  unfold emit_connect, emit. rewrite effect_bind, get_bind.
  match goal with |- context [forEach ?f ?l ?x] =>
    destruct (destroySoon_listeners l x) as (s' & E & [A1 A2 A3 A4 A5 A6 A7 A8 A9])
  end.
  exists s'. split; [exact E|]. rewrite A1, A2, A3, A4, A5, A6, A7, A8, A9.
  repeat split.
Qed.

Lemma omap_repeat_None {A B} (f : A -> option B) x n :
  f x = None -> omap f (repeat x n) = [].
Proof. intros E. induction n as [|n IH]; simpl; [reflexivity|]. now rewrite E. Qed.

(** The resolution of connectivity on a peer holding a chunk written before
    the connection: a truthy chunk is handed to the channel, the slot and
    the callback are cleared and the callback is invoked; a falsy chunk, the
    empty string, stays in the slot with its callback. *)
Lemma resolution_flush items chunk cb ch s :
  resolved items = true ->
  s.(destroyed) = false -> s.(_destroying) = false ->
  s.(_chunk) = Some chunk -> s.(_cb) = Some cb ->
  s.(_channel) = Some ch -> s.(replies) = [] ->
  exists s', onStats (inr items) s = Ret tt s'
    /\ s'.(_connected) = true
    /\ sent s' = sent s ++ (if truthy chunk then [chunk] else [])
    /\ completed s' = completed s ++ (if truthy chunk then [cb] else [])
    /\ s'.(_chunk) = (if truthy chunk then None else Some chunk)
    /\ s'.(_cb) = (if truthy chunk then None else Some cb).
Proof.
  intros R D G Ck Cb Ch Rp. unfold resolved in R. unfold sent, completed.
  open_state s. unfold onStats. reduce. rewrite selectCandidatePairs_run.
  destruct (foundSelectedCandidatePair items items false) as [found|]; [|discriminate].
  unfold selected. reduce.
  apply negb_true_iff in R. rewrite R.
  destruct (truthy chunk) eqn:T; run;
    try match goal with
    | |- context [emit_connect ?x] =>
        destruct (emit_connect_run x) as (s' & E & L & K1 & K2 & K3 & _); rewrite E
    end;
    (eexists; split; [reflexivity|]); reduce;
    rewrite ?L, ?K1, ?K2, ?K3; reduce;
    rewrite ?omap_app; rewrite ?omap_repeat_None by reflexivity; simpl;
    rewrite ?app_nil_r, <- ?app_assoc; auto.
Qed.

(** ** The media sender registry *)

(** The sender registered for a track and a stream: [submap.get(stream)] on
    [this._senderMap.get(track)]. *)
Definition registered (s : Peer) (track : MediaStreamTrack) (stream : MediaStream)
    : option nat :=
  senderMap_get s track ≫= (fun submap => submap_get s submap stream).

Definition ERR_SENDER_REMOVED : Err :=
  errCode (Error ("Track has been removed. You should enable/disable tracks "
                  +:+ "that you want to re-add.")) "ERR_SENDER_REMOVED".

Definition ERR_SENDER_ALREADY_ADDED : Err :=
  errCode (Error "Track has already been added to that stream.") "ERR_SENDER_ALREADY_ADDED".

(** The peer after a call that only logged its name. *)
Definition logged (msg : string) (s : Peer) : Peer :=
  set_log (log s ++ [Debug msg]) s.

(** [addTrack] for a pair that has a sender: it throws, and nothing but the
    log line of the call is left of it. *)
Lemma addTrack_registered track stream sender s :
  s.(destroyed) = false -> s.(_destroying) = false ->
  registered s track stream = Some sender ->
  addTrack track stream s =
    Throw (if sender_removed s sender then ERR_SENDER_REMOVED else ERR_SENDER_ALREADY_ADDED)
          (logged "addTrack()" s).
Proof.
  intros D G R. unfold registered, logged in *. open_state s. reduce.
  repeat match goal with
         | H : match ?x with _ => _ end = Some _ |- _ =>
             destruct x eqn:?; [|discriminate H]; reduce
         end.
  subst. reduce.
  match goal with |- context [?m !! sender] => destruct (m !! sender) as [[[] ?]|] end;
    reflexivity.
Qed.

Ltac run_maps :=
  reduce;
  repeat (rewrite ?lookup_insert_eq in *; reduce; first [discriminate | branch]; reduce);
  rewrite ?lookup_insert_eq in *; reduce.

(** Has the peer marked removed the sender the engine hands out at the
    next call of its [addTrack]? The engine may hand out a sender it
    handed out before. *)
Definition engine_sender_marked (s : Peer) : bool :=
  match s.(replies) with
  | ReplySender sender _ :: _ => sender_removed s sender
  | _ => false
  end.

(** [addTrack] for a pair that has no sender, on a peer that holds its
    engine: unless the engine throws, the pair is registered with the
    engine's sender, marked removed or not as it was. *)
Lemma addTrack_registers track stream s pc m :
  s.(destroyed) = false -> s.(_destroying) = false ->
  s.(_senderMap) = Some m -> s.(_pc) = Some pc ->
  registered s track stream = None ->
  match addTrack track stream s with
  | Ret _ s1 =>
      exists sender, registered s1 track stream = Some sender
        /\ sender_removed s1 sender = engine_sender_marked s
        /\ s1.(destroyed) = false /\ s1.(_destroying) = false
        /\ s1.(_batchedNegotiation) = true
  | Throw e s1 => exists rest, s.(replies) = ReplyThrow e :: rest
  end.
Proof.
  intros D G Sm P R. unfold registered, engine_sender_marked in *.
  open_state s. run_maps.
  all: try (eexists; reflexivity).
  all: try (eexists; repeat split; reduce; rewrite ?lookup_insert_eq; reduce;
            rewrite ?lookup_insert_eq; reduce; try reflexivity; try assumption).
  all: try congruence.
  all: repeat match goal with H : ?x = _ |- context [?x] => rewrite H end; reflexivity.
Qed.

(** [removeTrack] for a pair that has a sender: the sender is marked
    removed and stays registered, whatever the engine answers, and a
    negotiation is requested. *)
Lemma removeTrack_marks track stream sender s :
  s.(destroyed) = false -> s.(_destroying) = false ->
  registered s track stream = Some sender ->
  exists s', removeTrack track stream s = Ret tt s'
    /\ registered s' track stream = Some sender
    /\ sender_removed s' sender = true
    /\ s'.(destroyed) = false
    /\ s'.(_batchedNegotiation) = true.
Proof.
  intros D G R. unfold registered in *. open_state s. run_maps.
  all: try discriminate.
  all: eexists; split; [reflexivity|]; reduce; rewrite ?lookup_insert_eq; reduce;
    repeat match goal with H : ?x = _ |- context [?x] => rewrite H end; reduce;
    injection R as ->; rewrite ?lookup_insert_eq; repeat split; reflexivity.
Qed.

(** C8, corrected. On a live peer [addTrack] throws for a track and a
    stream when the registry holds a sender for the pair:
    [ERR_SENDER_REMOVED] if that sender is marked removed,
    [ERR_SENDER_ALREADY_ADDED] if not; the peer is then left as it was but
    for the log line of the call: no sender is added, no negotiation is
    requested, and the peer is not destroyed; and [removeTrack] for the
    pair returns, after which, unless it started a teardown, [addTrack]
    throws [ERR_SENDER_REMOVED]. For a pair that has no sender
    on a peer holding its engine, [addTrack] returns unless the engine
    throws; called again at once it throws, [ERR_SENDER_ALREADY_ADDED]
    unless the engine handed out a sender that was marked removed, and
    then [ERR_SENDER_REMOVED]; and called at once after a [removeTrack] of
    the pair that did not start a teardown it throws [ERR_SENDER_REMOVED].
    What other calls between the two do to the registry decides
    otherwise. *)
Theorem addTrack_on_registered_pair track stream s :
  s.(destroyed) = false -> s.(_destroying) = false ->
  (forall sender,
     registered s track stream = Some sender ->
     addTrack track stream s
     = Throw (if sender_removed s sender
              then ERR_SENDER_REMOVED else ERR_SENDER_ALREADY_ADDED)
             (logged "addTrack()" s)
     /\ (logged "addTrack()" s).(senders) = s.(senders)
     /\ (logged "addTrack()" s).(submaps) = s.(submaps)
     /\ (logged "addTrack()" s).(_senderMap) = s.(_senderMap)
     /\ (logged "addTrack()" s).(microtasks) = s.(microtasks)
     /\ (logged "addTrack()" s).(_batchedNegotiation) = s.(_batchedNegotiation)
     /\ (logged "addTrack()" s).(_destroying) = false
     /\ (logged "addTrack()" s).(destroyed) = false
     /\ exists s1,
          removeTrack track stream s = Ret tt s1
          /\ (s1.(_destroying) = false ->
              addTrack track stream s1
              = Throw ERR_SENDER_REMOVED (logged "addTrack()" s1)))
  /\ (forall pc m,
        s.(_senderMap) = Some m -> s.(_pc) = Some pc ->
        registered s track stream = None ->
        (exists e rest s1,
            s.(replies) = ReplyThrow e :: rest /\ addTrack track stream s = Throw e s1)
        \/ exists s1,
             addTrack track stream s = Ret tt s1
             /\ addTrack track stream s1
                = Throw (if engine_sender_marked s
                         then ERR_SENDER_REMOVED else ERR_SENDER_ALREADY_ADDED)
                        (logged "addTrack()" s1)
             /\ forall s2,
                  removeTrack track stream s1 = Ret tt s2 -> s2.(_destroying) = false ->
                  addTrack track stream s2
                  = Throw ERR_SENDER_REMOVED (logged "addTrack()" s2)).
Proof.
  intros D G. split.
  - intros sender R.
    split; [exact (addTrack_registered track stream sender s D G R)|].
    do 7 (split; [destruct s; first [reflexivity | assumption]|]).
    destruct (removeTrack_marks track stream sender s D G R) as (s1 & E & R1 & N1 & D1 & _).
    exists s1. split; [exact E|]. intros G1.
    pose proof (addTrack_registered track stream sender s1 D1 G1 R1) as T1.
    now rewrite N1 in T1.
  - intros pc m Sm P R.
    pose proof (addTrack_registers track stream s pc m D G Sm P R) as H.
    destruct (addTrack track stream s) as [[] s1|e s1] eqn:A.
    + right. exists s1. split; [reflexivity|].
      destruct H as (sender & R1 & N1 & D1 & G1 & _).
      pose proof (addTrack_registered track stream sender s1 D1 G1 R1) as T1.
      rewrite N1 in T1. split; [exact T1|].
      intros s2 Rm G2.
      destruct (removeTrack_marks track stream sender s1 D1 G1 R1)
        as (s2' & E & R2 & N2 & D2 & _).
      rewrite E in Rm. injection Rm as <-.
      pose proof (addTrack_registered track stream sender s2' D2 G2 R2) as T2.
      now rewrite N2 in T2.
    + left. destruct H as (rest & E). exists e, rest, s1. split; [exact E|reflexivity].
Qed.

(** ** What no method but the teardown changes *)

Record stays (s s' : Peer) : Prop := mkStays {
  stays_destroyed : s'.(destroyed) = s.(destroyed);
  stays_destroying : s.(_destroying) = true -> s'.(_destroying) = true;
  stays_first : s.(_firstNegotiation) = false -> s'.(_firstNegotiation) = false
}.

#[global] Instance stays_preorder : PreOrder stays.
Proof.
  split.
  - intros s. constructor; auto.
  - intros a b c [? ? ?] [? ? ?]. constructor; auto; congruence.
Qed.

Lemma stays_refl s : stays s s.
Proof. constructor; auto. Qed.

Lemma stays_the_pc : Keeps stays the_pc.
Proof. intros s. unfold the_pc. destruct (_pc s); apply stays_refl. Qed.

Lemma stays_the_channel : Keeps stays the_channel.
Proof. intros s. unfold the_channel. destruct (_channel s); apply stays_refl. Qed.

Lemma stays_next_reply : Keeps stays next_reply.
Proof. intros s. unfold next_reply. destruct (replies s); constructor; auto. Qed.

Lemma stays_setTimeout body : Keeps stays (setTimeout body).
Proof. intros s. constructor; auto. Qed.

Lemma stays_new_Map : Keeps stays new_Map.
Proof. intros s. constructor; auto. Qed.

Lemma stays_clearTimeout t : Keeps stays (clearTimeout t).
Proof. intros s. destruct t; constructor; auto. Qed.

Lemma stays_submap_set submap stream sender : Keeps stays (submap_set submap stream sender).
Proof. intros s. constructor; auto. Qed.

Lemma stays_senderMap_set track submap : Keeps stays (senderMap_set track submap).
Proof. intros s. constructor; auto. Qed.

Lemma stays_setupData_channel ch s : stays s (set_channel ch s).
Proof. constructor; auto. Qed.

#[global] Hint Resolve stays_the_pc stays_the_channel stays_next_reply stays_setTimeout
  stays_new_Map stays_clearTimeout stays_submap_set stays_senderMap_set : keeps.

Lemma stays_destroy cb err : Keeps stays (_destroy cb err).
Proof. stroll. Qed.
#[global] Hint Resolve stays_destroy : keeps.

Lemma stays__destroy err : Keeps stays (__destroy err).
Proof. stroll. Qed.
#[global] Hint Resolve stays__destroy : keeps.

Lemma stays_send chunk : Keeps stays (send chunk).
Proof. stroll. Qed.
#[global] Hint Resolve stays_send : keeps.

Lemma stays_needsNegotiation : Keeps stays _needsNegotiation.
Proof. stroll. Qed.
#[global] Hint Resolve stays_needsNegotiation : keeps.

Lemma stays_negotiate : Keeps stays negotiate.
Proof. stroll. Qed.
#[global] Hint Resolve stays_negotiate : keeps.

Lemma stays_startIceFailureRecoveryTimeout : Keeps stays _startIceFailureRecoveryTimeout.
Proof. stroll. Qed.
#[global] Hint Resolve stays_startIceFailureRecoveryTimeout : keeps.

Lemma stays_restartIce : Keeps stays restartIce.
Proof. stroll. Qed.
#[global] Hint Resolve stays_restartIce : keeps.

Lemma stays_addTransceiver kind init : Keeps stays (addTransceiver kind init).
Proof. stroll. Qed.
#[global] Hint Resolve stays_addTransceiver : keeps.

Lemma stays_requestMissingTransceivers : Keeps stays _requestMissingTransceivers.
Proof. stroll. Qed.
#[global] Hint Resolve stays_requestMissingTransceivers : keeps.

Lemma stays_onIceGatheringComplete : Keeps stays _onIceGatheringComplete.
Proof. stroll. Qed.
#[global] Hint Resolve stays_onIceGatheringComplete : keeps.

Lemma stays_startIceCompleteTimeout : Keeps stays _startIceCompleteTimeout.
Proof. stroll. Qed.
#[global] Hint Resolve stays_startIceCompleteTimeout : keeps.

Lemma stays_addIceCandidate c : Keeps stays (_addIceCandidate c).
Proof. stroll. Qed.
#[global] Hint Resolve stays_addIceCandidate : keeps.

Lemma stays_createOffer : Keeps stays _createOffer.
Proof. stroll. Qed.
#[global] Hint Resolve stays_createOffer : keeps.

Lemma stays_createAnswer : Keeps stays _createAnswer.
Proof. stroll. Qed.
#[global] Hint Resolve stays_createAnswer : keeps.

Lemma stays_signal arg : Keeps stays (signal arg).
Proof. stroll. Qed.
#[global] Hint Resolve stays_signal : keeps.

Lemma stays_destroySoon : Keeps stays destroySoon.
Proof. stroll. Qed.
#[global] Hint Resolve stays_destroySoon : keeps.

Lemma stays_emit_connect : Keeps stays emit_connect.
Proof. stroll. Qed.
#[global] Hint Resolve stays_emit_connect : keeps.

Lemma stays_selectCandidatePairs all items found :
  Keeps stays (selectCandidatePairs all items found).
Proof. apply Keeps_selectCandidatePairs. intros n s. destruct s. holds. Qed.
#[global] Hint Resolve stays_selectCandidatePairs : keeps.

Lemma stays_onStats res : Keeps stays (onStats res).
Proof. stroll. Qed.
#[global] Hint Resolve stays_onStats : keeps.

Lemma stays_findCandidatePair : Keeps stays findCandidatePair.
Proof. stroll. Qed.
#[global] Hint Resolve stays_findCandidatePair : keeps.

Lemma stays_maybeReady : Keeps stays _maybeReady.
Proof. stroll. Qed.
#[global] Hint Resolve stays_maybeReady : keeps.

Lemma stays_setupData channel : Keeps stays (_setupData channel).
Proof. stroll. Qed.
#[global] Hint Resolve stays_setupData : keeps.

Lemma stays_onChannelClose : Keeps stays _onChannelClose.
Proof. stroll. Qed.
#[global] Hint Resolve stays_onChannelClose : keeps.

Lemma stays_addTrack track stream : Keeps stays (addTrack track stream).
Proof. stroll. Qed.
#[global] Hint Resolve stays_addTrack : keeps.

Lemma stays_removeTrack track stream : Keeps stays (removeTrack track stream).
Proof. stroll. Qed.
#[global] Hint Resolve stays_removeTrack : keeps.

Lemma stays_run_microtask : Keeps stays run_microtask.
Proof. unfold run_microtask. stroll. Qed.

Lemma stays_run_task t r : is_teardown t = false -> Keeps stays (run_task t r).
Proof. destruct t; simpl; try discriminate; intros _; stroll. Qed.


Lemma classic_fire i : (exists id r, i = Fire id r) \/ (forall id r, i <> Fire id r).
Proof. destruct i; try (right; discriminate). left; eauto. Qed.

Section Stays.

Variable text2arr : JsData -> list Byte.byte.

Lemma stays_handle i : (forall id r, i <> Fire id r) -> Keeps stays (handle text2arr i).
Proof.
  intros NF. destruct i; simpl; try (now destruct (NF id r));
    unfold if_full, if_pc, if_channel, _onChannelMessage; stroll;
    apply stays_run_microtask.
Qed.

End Stays.

Section Runs.

Variable text2arr : JsData -> list Byte.byte.

(** A timer or a continuation either runs the teardown or leaves the peer
    as any other method does. *)
Lemma fire_cases id r s :
  stays s (state_of (fire id r s))
  \/ exists cb err, task_of id s = Some (TkTeardown cb err)
       /\ state_of (fire id r s)
          = state_of (teardown cb err (set_pending (without id s.(pending)) s)).
Proof.
  unfold fire. rewrite get_bind.
  destruct (task_of id s) as [t|] eqn:E; [|left; apply stays_refl].
  destruct (is_teardown t) eqn:T.
  - right. destruct t; try discriminate. eauto.
  - left.
    assert (K : Keeps stays
      (modify (fun s => set_pending (without id s.(pending)) s) ;; run_task t r)).
    { apply Keeps_bind; [exact _| |intros _; now apply stays_run_task].
      intros s'. constructor; auto. }
    destruct t; try discriminate; try apply K.
    + generalize s. apply Keeps_bind; [exact _| |]; [stroll|].
      intros b s'. constructor; auto.
    + generalize s. change (Keeps stays _onInterval). stroll.
Qed.

Lemma stays_step i answers s :
  stays s (step text2arr i answers s)
  \/ exists id r cb err, i = Fire id r /\ task_of id s = Some (TkTeardown cb err)
       /\ step text2arr i answers s
          = state_of (teardown cb err
              (set_pending (without id s.(pending)) (set_replies answers s))).
Proof.
  unfold step.
  assert (S0 : stays s (set_replies answers s)) by (constructor; auto).
  destruct (classic_fire i) as [(id & r & ->)|NF].
  - simpl. destruct (fire_cases id r (set_replies answers s)) as [S1|(cb & err & E & F)].
    + left. now transitivity (set_replies answers s).
    + right. exists id, r, cb, err. repeat split; [|exact F].
      revert E. unfold task_of. destruct s; exact (fun E => E).
  - left. transitivity (set_replies answers s); [exact S0|].
    now apply stays_handle.
Qed.


(** [s'] comes after [s] in a run. *)
Inductive reaches (s : Peer) : Peer -> Prop :=
| reaches_refl : reaches s s
| reaches_step i answers s' : reaches s s' -> reaches s (step text2arr i answers s').



(** The constructors leave a peer that is not destroyed. *)
Lemma new_Peer_stays c opts env s :
  new_Peer c opts env = inr s -> stays (fields c opts env) s.
Proof.
  unfold new_Peer. destruct (negb _); [discriminate|]. intros [= <-].
  assert (L : Keeps stays (lite_constructor env)) by (unfold lite_constructor; stroll).
  destruct c; [apply L|]. generalize (fields FullPeer opts env).
  change (Keeps stays (full_constructor opts env)). unfold full_constructor, addStream.
  stroll.
Qed.

(** [destroyed] is set by the teardown only, which [_destroying] precedes. *)
Lemma reachable_destroyed s :
  reachable text2arr s -> s.(destroyed) = true -> s.(_destroying) = true.
Proof.
  induction 1 as [c opts env s E|i answers s R IH].
  - destruct (new_Peer_stays c opts env s E) as [D _ _]. rewrite D. discriminate.
  - destruct (stays_step i answers s) as [[D G _]|(id & r & cb & err & _ & T & ->)].
    + rewrite D. auto.
    + intros _. rewrite teardown_destroying.
      pose proof (inv_teardown s (reachable_Inv text2arr s R)) as I.
      assert (W : waits is_teardown s = true)
        by (eapply (task_in_waits is_teardown); [exact T|reflexivity]).
      specialize (I W). destruct s; exact I.
Qed.

End Runs.

(** ** The first negotiation of a responder *)











Section Responder.

Variable text2arr : JsData -> list Byte.byte.


End Responder.

(** ** [restartIce] on the states a peer goes through *)

(** A refused [restartIce] changes nothing but the log. *)
Lemma restartIce_refused s :
  restart_refused s = true ->
  exists msgs, restartIce s = Ret false (set_log (log s ++ map Debug msgs) s).
Proof.
  unfold restart_refused. intros R.
  destruct (destroyed s) eqn:?, (_destroying s) eqn:?, (initiator s) eqn:?,
    (_isRestartingIce s) eqn:?; try discriminate; open_state s;
    first [ exists []; simpl; rewrite app_nil_r; reflexivity
          | eexists [_]; reflexivity ].
Qed.

Section Claims.

Variable text2arr : JsData -> list Byte.byte.

(** C3. In every state a peer goes through, [restartIce] returns false
    exactly when the peer is destroyed or destroying, is not the initiator,
    or is restarting ICE already, and then changes nothing but the log.
    Otherwise it returns true, and has reset [_iceGatheringComplete],
    cancelled its timer, cleared [_isNegotiating], set [_isRestartingIce],
    called the engine's [restartIce] once if the engine has one, and
    requested a negotiation. *)
Theorem restartIce_returns s :
  reachable text2arr s ->
  exists s', restartIce s = Ret (negb (restart_refused s)) s'
  /\ (restart_refused s = true ->
      exists msgs, s' = set_log (log s ++ map Debug msgs) s)
  /\ (restart_refused s = false ->
      exists pc, s.(_pc) = Some pc
      /\ s'.(_iceGatheringComplete) = false
      /\ s'.(_iceGatheringCompleteTimer) = None
      /\ s'.(pending) =
           match s.(_iceFailureRecoveryTimer) with
           | Some r =>
               cleared s.(_iceGatheringCompleteTimer) (without r s.(pending))
               ++ [(s.(next_id), TkIceFailureRecovery)]
           | None => cleared s.(_iceGatheringCompleteTimer) s.(pending)
           end
      /\ s'.(_isNegotiating) = false
      /\ s'.(_isRestartingIce) = true
      /\ occurrences restarts_engine s'.(log)
         = occurrences restarts_engine s.(log) + (if pc.(pc_restartIce) then 1 else 0)
      /\ s'.(_batchedNegotiation) = true
      /\ s'.(microtasks) =
           (if s.(_batchedNegotiation) then s.(microtasks)
            else s.(microtasks) ++ [NeedsNegotiation])).
Proof.
  intros R. destruct (restart_refused s) eqn:Rf.
  - destruct (restartIce_refused s Rf) as (msgs & E).
    eexists. split; [exact E|]. split; [eauto|discriminate].
  - assert (G : _destroying s = false).
    { unfold restart_refused in Rf. destruct (destroyed s), (_destroying s); auto. }
    destruct (inv_pc s (reachable_Inv text2arr s R) G) as [pc P].
    destruct (restartIce_run s pc P) as (s' & E & _ & Y).
    rewrite Rf in E. exists s'. split; [exact E|]. split; [discriminate|].
    intros _. exists pc. split; [exact P|]. now apply Y.
Qed.

(** C4. In every state a peer goes through, [_connected] is set only if
    [_pcReady] and [_channelReady] are: whatever the order of the events of
    the engine and of the channel, of the timers and of the calls. *)
Theorem connected_only_when_both_ready s :
  reachable text2arr s -> s.(_connected) = true ->
  s.(_pcReady) = true /\ s.(_channelReady) = true.
Proof. intros R C. exact (inv_connected s (reachable_Inv text2arr s R) C). Qed.

End Claims.

(** C10. On a peer that holds its channel, the getter [connected] returns
    true exactly when [_connected] is set and the channel's [readyState] is
    'open', and leaves the peer as it is; so it returns false once the
    channel is closing, whatever [_connected] is. *)
Theorem connected_getter s ch :
  s.(_channel) = Some ch ->
  connected s = Ret (s.(_connected) && is_open ch) s
  /\ (ch.(readyState) = RsClosing -> connected s = Ret false s).
Proof.
  intros C. unfold is_open.
  assert (E : connected s =
              Ret (_connected s && (if readyState ch is RsOpen then true else false)) s).
  { destruct (_connected s) eqn:?; open_state s; reflexivity. }
  split; [exact E|]. intros Cl. rewrite E, Cl. now rewrite andb_false_r.
Qed.

(** ** The two errors of a failed ICE connection *)

(** The errors the pending teardowns will emit. *)
Definition destroy_errors (s : Peer) : list Err :=
  omap (fun p : nat * Task => if p.2 is TkTeardown _ (Some e) then Some e else None)
       s.(pending).

(** C6. The error with which the recovery timer destroys the peer when ICE
    has not come back, and the error with which [_onIceStateChange]
    destroys it when ICE has failed, restarts are disabled and none is
    under way, carry the same code, [ERR_ICE_CONNECTION_FAILURE]; they
    differ in their messages only. *)
Theorem ice_failure_errors s1 pc1 s2 pc2 :
  s1.(destroyed) = false -> s1.(_destroying) = false -> s1.(_pc) = Some pc1 ->
  ice_established pc1.(iceConnectionState) = false ->
  s2.(destroyed) = false -> s2.(_destroying) = false -> s2.(_pc) = Some pc2 ->
  pc2.(iceConnectionState) = IceFailed ->
  (pc2.(iceGatheringState) = GatherComplete -> s2.(_iceGatheringComplete) = true) ->
  s2.(iceRestartEnabled) = RestartOff -> s2.(_isRestartingIce) = false ->
  exists e1 e2,
    destroy_errors (state_of (iceFailureRecoveryTimeout_elapsed s1))
      = destroy_errors s1 ++ [e1]
    /\ destroy_errors (state_of (_onIceStateChange s2)) = destroy_errors s2 ++ [e2]
    /\ e1.(err_code) = Some "ERR_ICE_CONNECTION_FAILURE"
    /\ e2.(err_code) = Some "ERR_ICE_CONNECTION_FAILURE"
    /\ e1.(err_message) = "Ice connection recovery failed."
    /\ e2.(err_message) = "Ice connection failed."
    /\ e1.(err_name) = e2.(err_name).
Proof.
  intros D1 G1 P1 I1 D2 G2 P2 I2 Gc R2 N2.
  exists (errCode (Error "Ice connection recovery failed.") "ERR_ICE_CONNECTION_FAILURE"),
         (errCode (Error "Ice connection failed.") "ERR_ICE_CONNECTION_FAILURE").
  unfold destroy_errors. split; [|split; [|repeat split]].
  - clear D2 G2 P2 I2 Gc R2 N2. open_state s1. rewrite I1. reduce.
    rewrite omap_app. reflexivity.
  - clear D1 G1 P1 I1. open_state s2. rewrite !I2.
    destruct (iceGatheringState pc2); try rewrite (Gc eq_refl); reduce;
      rewrite omap_app; reflexivity.
Qed.

(** ** What the readable side is handed *)

Definition pushed (s : Peer) : list (option JsData) :=
  omap (fun e => if e is Push data then Some data else None) s.(log).

Section Messages.

Variable text2arr : JsData -> list Byte.byte.

(** C7. A message of the channel on a peer that is not destroyed is pushed
    once to the readable side, and nothing else happens: an [ArrayBuffer]
    as a [Uint8Array] on its bytes, in object mode too; any other payload
    as it is in object mode, and as the bytes [text2arr] makes of it
    otherwise. *)
Theorem onChannelMessage_pushes data s :
  s.(destroyed) = false ->
  exists payload,
    _onChannelMessage text2arr data s = Ret tt (set_log (log s ++ [Push (Some payload)]) s)
    /\ pushed (set_log (log s ++ [Push (Some payload)]) s) = pushed s ++ [Some payload]
    /\ (forall bytes, data = JArrayBuffer bytes -> payload = JUint8Array bytes)
    /\ ((forall bytes, data <> JArrayBuffer bytes) ->
        payload = if s.(__objectMode) then data else JUint8Array (text2arr data)).
Proof.
  intros D. unfold pushed.
  exists (match data with
          | JArrayBuffer bytes => JUint8Array bytes
          | _ => if s.(__objectMode) then data else JUint8Array (text2arr data)
          end).
  split; [|split; [|split]].
  - unfold _onChannelMessage.
    destruct data, (__objectMode s) eqn:?; open_state s; reflexivity.
  - destruct s; simpl. rewrite omap_app. reflexivity.
  - intros bytes ->. reflexivity.
  - intros N. destruct data; try reflexivity. now destruct (N bytes).
Qed.

(** ** The operations on a peer that is gone *)

Lemma destroying_step i answers s :
  s.(_destroying) = true -> (step text2arr i answers s).(_destroying) = true.
Proof.
  intros G. destruct (stays_step text2arr i answers s)
    as [[_ S _]|(id & r & cb & err & _ & _ & ->)].
  - now apply S.
  - rewrite teardown_destroying. destruct s; exact G.
Qed.

Lemma destroying_reaches s s' :
  reaches text2arr s s' -> s.(_destroying) = true -> s'.(_destroying) = true.
Proof. induction 1; auto using destroying_step. Qed.

(** C9. In every state a peer goes through, once [_destroying] is set or
    the stream is destroyed, every operation returns at once, [restartIce]
    with false, without throwing and leaving the peer and its log as they
    are; and so it is in every later state, the teardown done or not:
    [_destroying] is never cleared, and no operation ever throws
    [ERR_DESTROYED]. *)
Theorem operations_once_destroying op s :
  reachable text2arr s ->
  s.(_destroying) = true \/ s.(destroyed) = true ->
  forall s', reaches text2arr s s' ->
    s'.(_destroying) = true /\ call op s' = Ret (declined op) s'.
Proof.
  intros R H s' R'.
  assert (G : _destroying s = true).
  { destruct H as [G|D]; [exact G|]. now apply (reachable_destroyed text2arr s R). }
  pose proof (destroying_reaches s s' R' G) as G'.
  split; [exact G'|]. now apply call_while_destroying.
Qed.

End Messages.

(** ** The empty chunk written before the connection *)

(** C5. A chunk written before the connection is kept with its callback;
    when connectivity is resolved, it is handed to the channel once, the
    slot and the callback are cleared and the callback is invoked, if the
    chunk is truthy. The empty string is not: it is not handed to the
    channel, its callback is not invoked, and both stay in the slot. *)
Theorem chunk_before_connect chunk cb items ch s :
  resolved items = true ->
  s.(destroyed) = false -> s.(_destroying) = false -> s.(_connected) = false ->
  s.(_channel) = Some ch -> s.(replies) = [] ->
  exists s1 s2,
    _write chunk cb s = Ret tt s1
    /\ s1.(_chunk) = Some chunk /\ s1.(_cb) = Some cb /\ sent s1 = sent s
    /\ onStats (inr items) s1 = Ret tt s2
    /\ s2.(_connected) = true
    /\ (truthy chunk = true ->
        sent s2 = sent s ++ [chunk] /\ completed s2 = completed s ++ [cb]
        /\ s2.(_chunk) = None /\ s2.(_cb) = None)
    /\ (chunk = JString "" ->
        sent s2 = sent s /\ completed s2 = completed s
        /\ s2.(_chunk) = Some chunk /\ s2.(_cb) = Some cb).
Proof.
  intros R D G C Ch Rp.
  pose proof (write_before_connect chunk cb s D C) as W.
  set (s1 := set_cb _ _) in W.
  destruct (resolution_flush items chunk cb ch s1 R) as (s2 & E & C2 & S2 & K2 & Ck & Cb);
    try (destruct s; assumption); try (destruct s; reflexivity).
  assert (S1 : sent s1 = sent s).
  { unfold sent. destruct s; simpl. rewrite omap_app. simpl. now rewrite app_nil_r. }
  assert (K1 : completed s1 = completed s).
  { unfold completed. destruct s; simpl. rewrite omap_app. simpl. now rewrite app_nil_r. }
  exists s1, s2. split; [exact W|].
  split; [destruct s; reflexivity|]. split; [destruct s; reflexivity|].
  split; [exact S1|]. split; [exact E|]. split; [exact C2|].
  rewrite S1 in S2. rewrite K1 in K2. split.
  - intros T. rewrite T in *. auto.
  - intros ->. simpl in *. rewrite app_nil_r in *. auto.
Qed.

(** * Further properties of the code *)

(** Opens the state as [open_state] does, after what is known of the
    fields has been put in their place. *)
Ltac open_known s :=
  destruct s;
  lazy beta iota zeta delta
    [cls __objectMode initiator channelName channelNegotiated trickle
     allowHalfTrickle iceCompleteTimeout iceRestartEnabled iceFailureRecoveryTimeout
     sdpTransform offerOptions_iceRestart _isReactNativeWebrtc destroyed _destroying
     _connected _connecting _connectedOnce _pcReady _channelReady
     _iceGatheringComplete _iceGatheringCompleteTimer _iceFailureRecoveryTimer
     _channel _pc _pendingCandidates _isNegotiating _isRestartingIce
     _firstNegotiation _batchedNegotiation _queuedNegotiation _sendersAwaitingStable
     _closingInterval _remoteTracks _remoteStreams _chunk _cb _interval
     _onFinishBound _senderMap submaps senders onceIceGatheringComplete onceConnect
     onceFinish microtasks pending next_id replies log] in * |-;
  subst; reduce.

(** ** [_destroy] and the teardown it defers *)

(** The teardowns waiting to run. *)
Definition teardowns (s : Peer) : nat :=
  length (List.filter (fun p : nat * Task => is_teardown p.2) s.(pending)).

(** Destroying is idempotent: after a call of [_destroy], whatever the
    state before, a further call changes nothing; and a call defers one
    teardown if the peer was neither destroyed nor destroying, none
    otherwise. *)
Theorem destroy_idempotent cb err cb' err' s :
  let s1 := state_of (_destroy cb err s) in
  _destroy cb' err' s1 = Ret tt s1
  /\ teardowns s1 = teardowns s + (if s.(destroyed) || s.(_destroying) then 0 else 1)
  /\ (s.(destroyed) || s.(_destroying) = true -> s1 = s).
Proof.
  unfold teardowns.
  destruct (destroyed s) eqn:?, (_destroying s) eqn:?; open_state s;
    rewrite ?List.filter_app, ?length_app; simpl; repeat split; try lia; try discriminate.
Qed.

(** What the teardown leaves. *)
Lemma teardown_run cb err s :
  exists s', teardown cb err s = Ret tt s'
    /\ s'.(_pc) = None /\ s'.(_channel) = None
    /\ s'.(_connected) = false /\ s'.(_pcReady) = false /\ s'.(_channelReady) = false
    /\ s'.(_chunk) = None /\ s'.(_cb) = None /\ s'.(_senderMap) = None
    /\ s'.(_interval) = None /\ s'.(_closingInterval) = None
    /\ s'.(log) = s.(log)
         ++ (if s.(_channel) is Some _ then [ChannelCall OpChannelClose] else [])
         ++ (if s.(_pc) is Some _ then [PcCall OpClose] else [])
         ++ (if err is Some e then [Emit (EvError e)] else [])
         ++ [DestroyDone cb]
    /\ s'.(pending) = cleared s.(_interval) (cleared s.(_closingInterval) s.(pending))
    /\ s'.(_destroying) = s.(_destroying).
Proof.
  unfold cleared. destruct cb, err; open_state s; run;
    (eexists; split; [reflexivity|]); reduce;
    rewrite <- ?app_assoc, ?app_nil_r; repeat split.
Qed.


Lemma task_in_without id k l : k <> id -> task_in id (without k l) = task_in id l.
Proof.
  intros N. unfold without. induction l as [|[j t] l IH]; [reflexivity|].
  rewrite filter_cons. simpl. destruct (decide (j <> k)) as [Jk|Jk]; simpl.
  - now rewrite IH.
  - assert (j = k) as -> by (destruct (decide (j = k)); [auto|contradiction]).
    apply Nat.eqb_neq in N. now rewrite N.
Qed.

(** The teardown does not cancel the recovery timer of a failed ICE
    connection: if it was armed it is still pending afterwards, and its
    body, reading [this._pc.iceConnectionState] on the engine the teardown
    gave up, throws a [TypeError]. *)
Theorem recovery_timer_outlives_teardown cb err id s :
  task_of id s = Some TkIceFailureRecovery ->
  s.(_interval) <> Some id -> s.(_closingInterval) <> Some id ->
  let s1 := state_of (teardown cb err s) in
  task_of id s1 = Some TkIceFailureRecovery
  /\ exists e s2, fire id Elapsed s1 = Throw e s2
       /\ e.(err_name) = "TypeError" /\ s2.(log) = s1.(log).
Proof.
  intros T I C s1.
  destruct (teardown_run cb err s) as (s' & E & P & _ & _ & _ & _ & _ & _ & _ & _ & _ & _ & Pe & _).
  assert (T1 : task_of id s1 = Some TkIceFailureRecovery).
  { unfold s1, task_of. rewrite E. simpl. rewrite Pe. unfold cleared.
    destruct (_interval s) as [i|], (_closingInterval s) as [c|];
      rewrite ?task_in_without; try congruence; exact T. }
  split; [exact T1|].
  unfold fire. rewrite get_bind, T1, modify_bind. simpl run_task.
  unfold iceFailureRecoveryTimeout_elapsed.
  assert (P1 : _pc s1 = None) by (unfold s1; rewrite E; exact P).
  exists (TypeError "Cannot read properties of null (this._pc)"),
         (set_pending (without id (pending s1)) s1).
  split; [|split; [reflexivity|destruct s1; reflexivity]].
  unfold mbind, M_bind, the_pc. destruct s1; simpl in *. rewrite P1. reflexivity.
Qed.

(** ** The writable side *)

(** [send] on a live peer that has no channel yet, a responder before the
    engine announced the channel, throws the [TypeError] of reading
    [this._channel.send] on [null], and leaves the peer as it is. *)
Theorem send_without_channel chunk s :
  s.(_destroying) = false -> s.(destroyed) = false -> s.(_channel) = None ->
  exists e, send chunk s = Throw e s
    /\ e.(err_name) = "TypeError" /\ e.(err_code) = None.
Proof.
  intros G D C. open_state s. eexists. split; [reflexivity|]. split; reflexivity.
Qed.

(** [_write] on a destroyed stream hands the callback an error tagged
    [ERR_DATA_CHANNEL]; nothing is sent and nothing kept. *)
Theorem write_when_destroyed chunk cb s :
  s.(destroyed) = true ->
  exists e s', _write chunk cb s = Ret tt s'
    /\ s'.(log) = s.(log) ++ [Callback cb (Some e)]
    /\ e.(err_code) = Some "ERR_DATA_CHANNEL"
    /\ sent s' = sent s /\ s'.(_chunk) = s.(_chunk) /\ s'.(_cb) = s.(_cb).
Proof.
  intros D. unfold sent. open_state s. do 2 eexists. split; [reflexivity|]. reduce.
  rewrite omap_app. simpl. rewrite app_nil_r. repeat split.
Qed.

(** When the channel's [send] throws under [_write], the peer starts
    destroying with the error tagged [ERR_DATA_CHANNEL]; [_write] returns,
    and the write callback is not invoked, with or without an error. *)
Theorem write_send_failure chunk cb ch e rest s :
  s.(destroyed) = false -> s.(_destroying) = false -> s.(_connected) = true ->
  s.(_channel) = Some ch -> s.(replies) = ReplyThrow e :: rest ->
  exists s', _write chunk cb s = Ret tt s'
    /\ s'.(_destroying) = true
    /\ destroy_errors s' = destroy_errors s ++ [errCode e "ERR_DATA_CHANNEL"]
    /\ occurrences is_callback s'.(log) = occurrences is_callback s.(log)
    /\ s'.(_cb) = s.(_cb).
Proof.
  intros D G C Ch R. unfold destroy_errors, occurrences. open_state s.
  eexists. split; [reflexivity|]. reduce.
  rewrite omap_app, !List.filter_app, !length_app. simpl. repeat split. lia.
Qed.

(** Backpressure: a chunk written while the channel buffers more than
    [MAX_BUFFERED_AMOUNT] is sent, but its callback is held back; the
    polling interval leaves it held while the buffer stays above the limit;
    the next 'bufferedamountlow' invokes it, once: a second one finds no
    callback. *)
Theorem backpressure_released chunk cb ch s :
  s.(destroyed) = false -> s.(_destroying) = false -> s.(_connected) = true ->
  s.(_channel) = Some ch -> s.(replies) = [] ->
  (MAX_BUFFERED_AMOUNT <? ch.(bufferedAmount))%nat = true ->
  exists s1 s2,
    _write chunk cb s = Ret tt s1
    /\ sent s1 = sent s ++ [chunk] /\ completed s1 = completed s /\ s1.(_cb) = Some cb
    /\ _onInterval s1 = Ret tt s1
    /\ _onChannelBufferedAmountLow s1 = Ret tt s2
    /\ completed s2 = completed s ++ [cb] /\ s2.(_cb) = None
    /\ _onChannelBufferedAmountLow s2 = Ret tt s2.
Proof.
  intros D G C Ch R B. unfold sent, completed. open_state s. rewrite B.
  do 2 eexists. split; [reflexivity|]. reduce. rewrite B.
  rewrite !omap_app. simpl. rewrite !app_nil_r.
  do 4 (split; [reflexivity|]). split; [reflexivity|]. reduce.
  rewrite !omap_app. simpl. rewrite !app_nil_r. repeat split.
Qed.

(** ** [signal] *)

Definition candidate_only (c : Candidate) : SignalData :=
  mkSignalData false None (Some c) None None.

Definition renegotiate_only : SignalData := mkSignalData true None None None None.

(** [reduce], reading also the fields of the payload. *)
Ltac reduce_data :=
  reduce;
  repeat (progress cbn [sig_renegotiate sig_transceiverRequest sig_candidate sig_sdp
                        sig_type candidate_only renegotiate_only no_signal] in *;
          reduce).

(** The calls made on the engine, in order. *)
Definition pc_calls (s : Peer) : list PcOp :=
  omap (fun e => if e is PcCall op then Some op else None) s.(log).





Lemma addIceCandidates_run cs : forall s pc,
  s.(_pc) = Some pc ->
  exists s', forEach _addIceCandidate cs s = Ret tt s'
    /\ pc_calls s' = pc_calls s ++ map OpAddIceCandidate cs
    /\ map snd s'.(pending) = map snd s.(pending) ++ map TkAddIceCandidate cs
    /\ s'.(_pc) = s.(_pc) /\ s'.(destroyed) = s.(destroyed)
    /\ s'.(_destroying) = s.(_destroying) /\ s'.(replies) = s.(replies).
Proof.
  induction cs as [|c cs IH]; intros s pc P; simpl.
  - exists s. rewrite !app_nil_r. repeat split.
  - assert (E : exists s1, _addIceCandidate c s = Ret tt s1
               /\ pc_calls s1 = pc_calls s ++ [OpAddIceCandidate c]
               /\ map snd s1.(pending) = map snd s.(pending) ++ [TkAddIceCandidate c]
               /\ s1.(_pc) = s.(_pc) /\ s1.(destroyed) = s.(destroyed)
               /\ s1.(_destroying) = s.(_destroying) /\ s1.(replies) = s.(replies)).
    { unfold pc_calls. open_state s. eexists. split; [reflexivity|]. reduce.
      rewrite omap_app, map_app. repeat split. }
    destruct E as (s1 & E & C1 & P1 & K1 & D1 & G1 & R1).
    rewrite (bind_ret _ _ _ _ _ E).
    destruct (IH s1 pc) as (s2 & E2 & C2 & P2 & K2 & D2 & G2 & R2); [congruence|].
    exists s2. split; [exact E2|].
    rewrite C2, C1, P2, P1, <- !app_assoc. repeat split; congruence.
Qed.

(** A candidate signalled before the engine has a remote description with
    a type is kept, not handed to the engine. When the remote description
    is set, the candidates kept are handed to the engine in the order they
    came, before the answer is asked for, and the list is emptied. *)
Theorem pending_candidates_flushed c d pc s :
  s.(destroyed) = false -> s.(_destroying) = false -> s.(_pc) = Some pc ->
  pc.(remoteDescription) = None -> s.(replies) = [] ->
  exists s1, signal (ArgObject (candidate_only c)) s = Ret tt s1
    /\ s1.(_pendingCandidates) = s.(_pendingCandidates) ++ [c]
    /\ pc_calls s1 = pc_calls s
    /\ exists s2, remoteDescription_set d Fulfilled s1 = Ret tt s2
         /\ s2.(_pendingCandidates) = []
         /\ pc_calls s2 = pc_calls s
              ++ map OpAddIceCandidate (s.(_pendingCandidates) ++ [c])
              ++ (if d.(d_type) is Some Offer then [OpCreateAnswer] else []).
Proof.
  intros D G P Rd Rp.
  assert (E1 : signal (ArgObject (candidate_only c)) s
               = Ret tt (set_pendingCandidates (s.(_pendingCandidates) ++ [c])
                           (set_log (log s ++ [Debug "signal()"]) s))).
  { open_state s. reduce_data. rewrite Rd. reflexivity. }
  eexists. split; [exact E1|].
  split; [destruct s; reflexivity|].
  split; [unfold pc_calls; destruct s; simpl; rewrite omap_app; simpl; now rewrite app_nil_r|].
  set (s1 := set_pendingCandidates _ _).
  unfold remoteDescription_set. rewrite modify_bind.
  set (s1' := set_pc _ s1).
  destruct (addIceCandidates_run (s.(_pendingCandidates) ++ [c]) s1'
              (with_remoteDescription d pc)) as (s2 & E2 & C2 & _ & K2 & D2 & G2 & R2).
  { unfold s1', s1. destruct s; simpl in *. now rewrite P. }
  assert (Ec : pc_calls s1' = pc_calls s).
  { unfold s1', s1, pc_calls. destruct s; simpl. rewrite omap_app. simpl.
    now rewrite app_nil_r. }
  assert (K : _pc s2 = Some (with_remoteDescription d pc)).
  { rewrite K2. unfold s1', s1. destruct s; simpl in *. now rewrite P. }
  assert (Ds : destroyed s1' = false) by (unfold s1', s1; destruct s; exact D).
  assert (Pe : _pendingCandidates s1' = _pendingCandidates s ++ [c])
    by (unfold s1', s1; destruct s; reflexivity).
  unfold try_catch. rewrite get_bind, Ds, Pe.
  rewrite (bind_ret _ _ _ _ _ E2), modify_bind.
  unfold the_pc at 1. unfold mbind at 1, M_bind at 1.
  replace (_pc (set_pendingCandidates [] s2)) with (Some (with_remoteDescription d pc))
    by (destruct s2; exact (eq_sym K)).
  cbn [remoteDescription with_remoteDescription].
  assert (D2' : destroyed s2 = false) by congruence.
  assert (R2' : replies s2 = []).
  { rewrite R2. unfold s1', s1. destruct s; exact Rp. }
  rewrite Ec in C2. clear E2 E1 K2 D2 G2 R2 Ec Ds Pe.
  unfold pc_calls in *.
  destruct (d_type d) as [[]|]; open_state s2;
    (eexists; split; [reflexivity|]; split; [reflexivity|]); reduce;
    rewrite ?omap_app, C2; simpl; rewrite <- ?app_assoc, ?app_nil_r; reflexivity.
Qed.

(** The class of [lite.js] has no [addTransceiver]: on its initiator a
    payload with a [transceiverRequest] makes [signal] throw a [TypeError]
    before it reads the candidate or the description of the payload, so
    that the engine is not handed them. *)
Theorem transceiverRequest_on_lite kind init data s :
  s.(cls) = LitePeer -> s.(initiator) = true ->
  s.(destroyed) = false -> s.(_destroying) = false ->
  data.(sig_transceiverRequest) = Some (kind, init) ->
  exists e s', signal (ArgObject data) s = Throw e s'
    /\ e.(err_name) = "TypeError"
    /\ pc_calls s' = pc_calls s
    /\ s'.(_pendingCandidates) = s.(_pendingCandidates)
    /\ s'.(_destroying) = false.
Proof.
  intros L I D G T. unfold pc_calls. destruct data as [rn tr ca sdp ty]. simpl in T. subst tr.
  destruct (_batchedNegotiation s) eqn:B, rn; open_state s; reduce_data;
    (do 2 eexists; split; [reflexivity|]); reduce;
    rewrite !omap_app; simpl; rewrite ?app_nil_r; repeat split.
Qed.

(** A request to renegotiate is acted on by the initiator only: there it
    requests a negotiation; on the responder [signal] logs the call and
    nothing else happens, the peer is not destroyed either. *)
Theorem renegotiate_request s :
  s.(destroyed) = false -> s.(_destroying) = false ->
  exists s', signal (ArgObject renegotiate_only) s = Ret tt s'
    /\ s'.(_destroying) = false
    /\ pc_calls s' = pc_calls s
    /\ (s.(initiator) = true -> s'.(_batchedNegotiation) = true)
    /\ (s.(initiator) = false -> s' = logged "signal()" s).
Proof.
  intros D G. unfold pc_calls, logged.
  destruct (initiator s) eqn:I, (_batchedNegotiation s) eqn:B; open_state s;
    reduce_data; (eexists; split; [reflexivity|]); reduce;
    rewrite !omap_app; simpl; rewrite ?app_nil_r; repeat split; discriminate.
Qed.

(** ** The connectivity monitor *)

(** [reduce], reading also what the engine and the channel show. *)
Ltac reduce_engine :=
  reduce;
  repeat (progress lazy beta iota zeta delta
            [iceConnectionState iceGatheringState signalingState connectionState
             remoteDescription localDescription pc_restartIce getStats_length
             getTransceivers readyState bufferedAmount bufferedAmountLowThreshold
             Nat.eqb Nat.ltb Nat.leb] in *;
          reduce).

(** Opens the state and the engine it holds. *)
Ltac open_engine s pc :=
  destruct pc; lazy beta iota zeta delta
    [iceConnectionState iceGatheringState signalingState connectionState
     remoteDescription localDescription pc_restartIce getStats_length
     getTransceivers] in *;
  subst; open_known s; reduce_engine.

Definition ERR_ICE_CONNECTION_CLOSED : Err :=
  errCode (Error "Ice connection closed.") "ERR_ICE_CONNECTION_CLOSED".

Definition ERR_CONNECTION_FAILURE : Err :=
  errCode (Error "Connection failed.") "ERR_CONNECTION_FAILURE".

(** The gathering state of the engine has been acted on already. *)
Definition gathering_seen (s : Peer) (pc : Pc) : Prop :=
  pc.(iceGatheringState) = GatherComplete -> s.(_iceGatheringComplete) = true.

(** ICE failing under the policy 'onFailure', with no restart under way
    and no recovery timer armed: the peer is not destroyed; a recovery
    timer is armed; and on the initiator, and there only, an ICE restart is
    started: the engine's [restartIce] is called if it has one and a
    negotiation is requested. *)
Theorem ice_failed_under_restart_policy s pc :
  s.(destroyed) = false -> s.(_destroying) = false -> s.(_pc) = Some pc ->
  pc.(iceConnectionState) = IceFailed -> gathering_seen s pc ->
  s.(iceRestartEnabled) = OnFailure -> s.(_isRestartingIce) = false ->
  s.(_iceFailureRecoveryTimer) = None ->
  exists s' r, _onIceStateChange s = Ret tt s'
    /\ s'.(_destroying) = false
    /\ s'.(_iceFailureRecoveryTimer) = Some r
    /\ In (r, TkIceFailureRecovery) s'.(pending)
    /\ s'.(_isRestartingIce) = s.(initiator)
    /\ occurrences restarts_engine s'.(log)
       = occurrences restarts_engine s.(log)
         + (if s.(initiator) && pc.(pc_restartIce) then 1 else 0)
    /\ s'.(_batchedNegotiation) = s.(initiator) || s.(_batchedNegotiation).
Proof.
  intros D G P I Gs R N T. unfold gathering_seen, occurrences in *.
  destruct (iceGatheringState pc) eqn:Ge; try specialize (Gs eq_refl);
    open_engine s pc; repeat (branch; reduce_engine);
    (do 2 eexists; split; [reflexivity|]); reduce;
    rewrite ?List.filter_app, ?length_app; simpl;
    repeat split; try lia; rewrite ?in_app_iff; simpl; auto.
Qed.

Lemma task_in_without_same id l : task_in id (without id l) = None.
Proof.
  unfold without. induction l as [|[j t] l IH]; [reflexivity|].
  rewrite filter_cons. simpl. destruct (decide (j <> id)) as [N|N]; simpl; [|exact IH].
  apply Nat.eqb_neq in N. now rewrite N.
Qed.

Lemma task_in_app id l l' :
  task_in id (l ++ l') = match task_in id l with Some t => Some t | None => task_in id l' end.
Proof.
  induction l as [|[j t] l IH]; simpl; [reflexivity|]. now destruct (j =? id)%nat.
Qed.

(** ICE coming back while the recovery timer is armed: the timer is
    cancelled and forgotten, the restart is over, the engine counts as
    ready; nothing is pending under the timer's id, so that its elapsing
    does nothing. *)
Theorem recovery_timer_cleared r s pc :
  s.(destroyed) = false -> s.(_pc) = Some pc ->
  ice_established pc.(iceConnectionState) = true -> gathering_seen s pc ->
  s.(_iceFailureRecoveryTimer) = Some r -> r < s.(next_id) ->
  exists o s', _onIceStateChange s = o /\ state_of o = s'
    /\ s'.(_iceFailureRecoveryTimer) = None
    /\ s'.(_isRestartingIce) = false
    /\ s'.(_pcReady) = true
    /\ task_of r s' = None
    /\ fire r Elapsed s' = Ret tt s'.
Proof.
  intros D P I Gs T Lt. unfold gathering_seen in *.
  assert (F : forall s', task_of r s' = None ->
                task_of r s' = None /\ fire r Elapsed s' = Ret tt s').
  { intros s' E. split; [exact E|]. unfold fire. now rewrite get_bind, E. }
  destruct (iceConnectionState pc) eqn:Ic; try discriminate;
    (destruct (iceGatheringState pc) eqn:Ge; try specialize (Gs eq_refl);
     open_engine s pc; repeat (branch; reduce_engine);
     (do 2 eexists; split; [reflexivity|]); reduce;
     (split; [reflexivity|]); reduce; do 3 (split; [reflexivity|]);
     apply F; unfold task_of; reduce;
     rewrite ?task_in_app, ?task_in_without_same; simpl;
     repeat match goal with
            | |- context [(?a =? ?b)%nat] => destruct (Nat.eqb_spec a b); [lia|]
            end; reflexivity).
Qed.

(** ICE closing destroys the peer with [ERR_ICE_CONNECTION_CLOSED],
    whatever the restart policy. *)
Theorem ice_closed_destroys s pc :
  s.(destroyed) = false -> s.(_destroying) = false -> s.(_pc) = Some pc ->
  pc.(iceConnectionState) = IceClosed -> gathering_seen s pc ->
  exists s', _onIceStateChange s = Ret tt s'
    /\ s'.(_destroying) = true
    /\ destroy_errors s' = destroy_errors s ++ [ERR_ICE_CONNECTION_CLOSED]
    /\ s'.(_isRestartingIce) = s.(_isRestartingIce)
    /\ s'.(microtasks) = s.(microtasks).
Proof.
  intros D G P I Gs. unfold gathering_seen, destroy_errors in *.
  destruct (iceGatheringState pc) eqn:Ge; try specialize (Gs eq_refl);
    destruct (iceRestartEnabled s) eqn:?; open_engine s pc;
    (eexists; split; [reflexivity|]); reduce; rewrite omap_app; repeat split.
Qed.

(** The connection failing with restarts disabled and none under way
    destroys the peer with [ERR_CONNECTION_FAILURE]; [_connected] is
    cleared at once, before the teardown. *)
Theorem connection_failed_without_restart s pc :
  s.(destroyed) = false -> s.(_destroying) = false -> s.(_pc) = Some pc ->
  pc.(connectionState) = ConnFailed ->
  s.(iceRestartEnabled) = RestartOff -> s.(_isRestartingIce) = false ->
  exists s', _onConnectionStateChange s = Ret tt s'
    /\ s'.(_connected) = false
    /\ s'.(_destroying) = true
    /\ destroy_errors s' = destroy_errors s ++ [ERR_CONNECTION_FAILURE]
    /\ s'.(_iceFailureRecoveryTimer) = s.(_iceFailureRecoveryTimer).
Proof.
  intros D G P C R N. unfold destroy_errors. open_engine s pc.
  eexists. split; [reflexivity|]. reduce. rewrite omap_app. repeat split.
Qed.

(** A connection state other than 'connected' and 'failed' clears
    [_connected] and destroys nothing: what is written from then on waits
    for the next resolution of connectivity, as a chunk written before the
    connection does. *)
Theorem connection_lost_holds_writes chunk cb s pc :
  s.(destroyed) = false -> s.(_destroying) = false -> s.(_pc) = Some pc ->
  pc.(connectionState) <> ConnConnected -> pc.(connectionState) <> ConnFailed ->
  s.(iceRestartEnabled) <> OnDisconnect ->
  exists s1 s2, _onConnectionStateChange s = Ret tt s1
    /\ s1.(_connected) = false /\ s1.(_destroying) = false
    /\ s1.(pending) = s.(pending)
    /\ _write chunk cb s1 = Ret tt s2
    /\ s2.(_chunk) = Some chunk /\ s2.(_cb) = Some cb /\ sent s2 = sent s.
Proof.
  intros D G P C F R. unfold sent.
  destruct (connectionState pc) eqn:?; try contradiction;
    destruct (iceRestartEnabled s) eqn:?; try contradiction;
    open_engine s pc; (do 2 eexists; split; [reflexivity|]); reduce;
    do 3 (split; [reflexivity|]); (split; [reflexivity|]); reduce;
    rewrite !omap_app; simpl; rewrite !app_nil_r; repeat split.
Qed.

(** A statistics query that fails, or reports nothing, is tried again
    later: the peer is neither connected nor destroyed by it, and no event
    is emitted. *)
Theorem stats_failure_retries res s :
  s.(destroyed) = false -> s.(_destroying) = false ->
  (if res is inr items then items = [] else True) ->
  onStats res s
  = Ret tt (set_next_id (S s.(next_id))
             (set_pending (s.(pending) ++ [(s.(next_id), TkFindCandidatePair)]) s)).
Proof.
  intros D G E. destruct res as [err|items]; [|subst items]; open_known s; reflexivity.
Qed.

(** Connectivity resolved again on a peer that was connected before: with
    no chunk waiting, 'reconnect' is emitted and not 'connect', and no
    polling interval is started. *)
Theorem resolution_again_reconnects items s :
  resolved items = true ->
  s.(destroyed) = false -> s.(_destroying) = false ->
  s.(_connectedOnce) = true -> s.(_chunk) = None ->
  onStats (inr items) s
  = Ret tt (set_log (log s ++ repeat (Debug "connect local: %s:%s remote: %s:%s")
                                     (selections items items)
                           ++ [Debug "reconnect"; Emit EvReconnect])
             (set_connected true (set_connecting false s))).
Proof.
  intros R D G O C. unfold resolved in R. unfold onStats.
  open_known s. rewrite selectCandidatePairs_run.
  destruct (foundSelectedCandidatePair items items false) as [found|]; [|discriminate].
  apply negb_true_iff in R. unfold selected. reduce. rewrite R. reduce.
  rewrite <- !app_assoc. reflexivity.
Qed.

(** ** The negotiation coordinator *)

(** [_createOffer] copies the offer options before it marks them for an
    ICE restart: the offer asked for while a restart is under way carries
    the flag [iceRestart] only if the options held it already, and the
    options hold it from then on, so that a later offer carries it whether
    a restart is under way or not. *)
Theorem restart_offer_options s pc :
  s.(destroyed) = false -> s.(_pc) = Some pc -> s.(_isRestartingIce) = true ->
  exists s1, _createOffer s = Ret tt s1
    /\ pc_calls s1 = pc_calls s ++ [OpCreateOffer s.(offerOptions_iceRestart)]
    /\ s1.(offerOptions_iceRestart) = true
    /\ forall s2 pc2,
         s2.(destroyed) = false -> s2.(_pc) = Some pc2 ->
         s2.(offerOptions_iceRestart) = true ->
         exists s3, _createOffer s2 = Ret tt s3
           /\ pc_calls s3 = pc_calls s2 ++ [OpCreateOffer true]
           /\ s3.(offerOptions_iceRestart) = true.
Proof.
  intros D P R. unfold pc_calls.
  assert (E : exists s1, _createOffer s = Ret tt s1
    /\ pc_calls s1 = pc_calls s ++ [OpCreateOffer s.(offerOptions_iceRestart)]
    /\ s1.(offerOptions_iceRestart) = true).
  { unfold pc_calls. open_known s. eexists. split; [reflexivity|]. reduce.
    rewrite omap_app. split; reflexivity. }
  destruct E as (s1 & E & C & O). exists s1. do 3 (split; [assumption|]).
  clear. intros s2 pc2 D P O. destruct (_isRestartingIce s2) eqn:?; open_known s2;
    (eexists; split; [reflexivity|]); reduce; rewrite omap_app; split; reflexivity.
Qed.

(** The signaling state turning stable with no sender waiting to be
    removed: the round is over; a negotiation that was queued meanwhile is
    requested now, and 'negotiated' is emitted only if none was. *)
Theorem signaling_stable s pc :
  s.(destroyed) = false -> s.(_pc) = Some pc -> pc.(signalingState) = Stable ->
  s.(_sendersAwaitingStable) = [] ->
  exists s', _onSignalingStateChange s = Ret tt s'
    /\ s'.(_isNegotiating) = false /\ s'.(_queuedNegotiation) = false
    /\ s'.(_batchedNegotiation) = s.(_queuedNegotiation) || s.(_batchedNegotiation)
    /\ occurrences (fun e => if e is Emit EvNegotiated then true else false) s'.(log)
       = occurrences (fun e => if e is Emit EvNegotiated then true else false) s.(log)
         + (if s.(_queuedNegotiation) then 0 else 1).
Proof.
  intros D P St Q. unfold occurrences.
  destruct (_queuedNegotiation s) eqn:?, (_batchedNegotiation s) eqn:?;
    open_engine s pc; cbn [forEach]; reduce;
    (eexists; split; [reflexivity|]); reduce;
    rewrite ?List.filter_app, ?length_app; simpl; repeat split; lia.
Qed.

(** Firefox refusing [removeTrack] while the signaling state is not stable
    ([NS_ERROR_UNEXPECTED]): the peer is not destroyed, the sender waits in
    [_sendersAwaitingStable]; when the signaling state turns stable the
    engine is asked again to remove it, the queue is emptied and a
    negotiation is requested. *)
Theorem removal_deferred_until_stable track stream sender e rest s pc pc' :
  s.(destroyed) = false -> s.(_destroying) = false -> s.(_pc) = Some pc ->
  registered s track stream = Some sender ->
  s.(replies) = ReplyThrow e :: rest -> e.(err_name) = "NS_ERROR_UNEXPECTED" ->
  s.(_sendersAwaitingStable) = [] -> pc'.(signalingState) = Stable ->
  exists s1, removeTrack track stream s = Ret tt s1
    /\ s1.(_sendersAwaitingStable) = [sender] /\ s1.(_destroying) = false
    /\ pc_calls s1 = pc_calls s ++ [OpRemoveTrack sender]
    /\ exists s2,
         _onSignalingStateChange (set_replies [] (set_pc (Some pc') s1)) = Ret tt s2
         /\ pc_calls s2 = pc_calls s1 ++ [OpRemoveTrack sender]
         /\ s2.(_sendersAwaitingStable) = []
         /\ s2.(_batchedNegotiation) = true.
Proof.
  intros D G P R Rp N Q St. unfold registered, pc_calls in *.
  destruct (_batchedNegotiation s) eqn:?; open_known s;
    repeat match goal with
           | H : match ?x with _ => _ end = Some _ |- _ =>
               destruct x eqn:?; [|discriminate H]; reduce
           end;
    subst; reduce; rewrite N, String.eqb_refl; reduce;
    (eexists; split; [reflexivity|]); reduce;
    rewrite ?omap_app; simpl; rewrite ?app_nil_r;
    do 3 (split; [reflexivity|]);
    destruct pc'; simpl in St; subst; reduce_engine; cbn [forEach]; reduce;
    (eexists; split; [reflexivity|]); reduce;
    rewrite ?omap_app; simpl; rewrite ?app_nil_r, <- ?app_assoc; repeat split.
Qed.

(** ** The media sender registry, further *)

Definition is_code (code : string) (e : Err) : Prop := e.(err_code) = Some code.

(** [removeTrack] and [replaceTrack] for a pair that has no sender throw
    [ERR_TRACK_NOT_ADDED] and leave the peer as it was but for the log
    line of the call: the engine is not called, nothing is requested. *)
Theorem track_never_added track newTrack stream s :
  s.(destroyed) = false -> s.(_destroying) = false ->
  registered s track stream = None ->
  (exists e, removeTrack track stream s = Throw e (logged "removeSender()" s)
             /\ is_code "ERR_TRACK_NOT_ADDED" e)
  /\ (exists e, replaceTrack track newTrack stream s = Throw e (logged "replaceTrack()" s)
                /\ is_code "ERR_TRACK_NOT_ADDED" e).
Proof.
  intros D G R. unfold registered, logged, is_code in *.
  split; open_known s;
    repeat match goal with
           | H : match ?x with _ => _ end = None |- _ =>
               destruct x eqn:?; try discriminate H; reduce
           end;
    subst; reduce; eexists; split; reflexivity.
Qed.

(** [replaceTrack] does not move the sender from the old track to the new
    one: it registers the new track on the map of the old one, so that
    both tracks have the sender afterwards. The engine's sender is asked to
    replace the track, and no negotiation is requested. *)
Theorem replaceTrack_shares_sender oldTrack newTrack stream sender s :
  s.(destroyed) = false -> s.(_destroying) = false ->
  registered s oldTrack stream = Some sender ->
  default true (sender_replaceTrack <$> s.(senders) !! sender) = true ->
  exists s', replaceTrack oldTrack (Some newTrack) stream s = Ret tt s'
    /\ registered s' newTrack stream = Some sender
    /\ registered s' oldTrack stream = Some sender
    /\ pc_calls s' = pc_calls s ++ [OpReplaceTrack sender (Some newTrack)]
    /\ s'.(microtasks) = s.(microtasks) /\ s'.(_destroying) = false.
Proof.
  intros D G R Rt. unfold registered, pc_calls in *. open_known s.
  repeat match goal with
         | H : match ?x with _ => _ end = Some _ |- _ =>
             destruct x eqn:?; [|discriminate H]; reduce
         end.
  subst. reduce. rewrite Rt. reduce.
  eexists. split; [reflexivity|]. reduce. rewrite lookup_insert_eq. reduce.
  repeat match goal with H : ?x = _ |- context [?x] => rewrite H; reduce end.
  split; [reflexivity|]. split.
  - destruct (decide (track_obj newTrack = track_obj oldTrack)) as [E|E].
    + rewrite E, lookup_insert_eq. reduce.
      repeat match goal with H : ?x = _ |- context [?x] => rewrite H; reduce end.
      reflexivity.
    + rewrite lookup_insert_ne by exact E.
      repeat match goal with H : ?x = _ |- context [?x] => rewrite H; reduce end.
      reflexivity.
  - rewrite !omap_app. simpl. rewrite app_nil_r. repeat split.
Qed.

(** A remote stream is announced once: the first track event naming it
    queues the 'stream' event, a later one naming it emits its 'track'
    event only. *)
Theorem stream_announced_once t1 t2 st tracks streams s :
  s.(destroyed) = false ->
  s.(_remoteTracks) = Some tracks -> s.(_remoteStreams) = Some streams ->
  existsb (fun remoteStream => remoteStream.(stream_id) =? st.(stream_id)) streams = false ->
  exists s1 s2, _onTrack t1 [st] s = Ret tt s1
    /\ s1.(microtasks) = s.(microtasks) ++ [OnStream st]
    /\ _onTrack t2 [st] s1 = Ret tt s2
    /\ s2.(microtasks) = s1.(microtasks)
    /\ s2.(_remoteTracks) = Some (tracks ++ [(t1, st); (t2, st)])
    /\ s2.(_remoteStreams) = Some (streams ++ [st]).
Proof.
  intros D Tr St N. open_known s. cbn [forEach]. reduce. rewrite N. reduce.
  do 2 eexists. split; [reflexivity|]. reduce. split; [reflexivity|].
  cbn [forEach]. reduce. rewrite existsb_app, N. simpl. rewrite String.eqb_refl. reduce.
  split; [reflexivity|]. reduce. rewrite <- app_assoc. repeat split.
Qed.

(** ** The constructor *)

(** With no [RTCPeerConnection] the constructor throws
    [ERR_WEBRTC_SUPPORT]. With one whose construction throws, it returns a
    peer that is destroying with the error tagged [ERR_PC_CONSTRUCTOR],
    holds neither engine nor channel and has requested no negotiation. *)
Theorem constructor_failures c opts env :
  (env.(RTCPeerConnection_defined) = false ->
   new_Peer c opts env = inl (ERR_WEBRTC_SUPPORT env))
  /\ (forall err,
        env.(RTCPeerConnection_defined) = true -> env.(new_RTCPeerConnection) = inl err ->
        exists s, new_Peer c opts env = inr s
          /\ s.(_destroying) = true /\ s.(destroyed) = false
          /\ destroy_errors s = [errCode err "ERR_PC_CONSTRUCTOR"]
          /\ s.(_pc) = None /\ s.(_channel) = None /\ s.(_senderMap) = None
          /\ s.(microtasks) = []).
Proof.
  split.
  - intros U. unfold new_Peer. now rewrite U.
  - intros err U E. unfold new_Peer, full_constructor, lite_constructor. rewrite U, E.
    destruct c; eexists; (split; [reflexivity|]); repeat split.
Qed.

(** ** The channel stuck in 'closing' *)

Lemma task_in_rearm id b l t :
  task_in id l = Some t ->
  task_in id (map (fun p : nat * Task =>
                     if decide (p.1 = id) then (id, TkClosingInterval b) else p) l)
  = Some (TkClosingInterval b).
Proof.
  induction l as [|[k t'] l IH]; simpl; [discriminate|].
  destruct (k =? id)%nat eqn:E.
  - intros _. apply Nat.eqb_eq in E as ->.
    destruct (decide (id = id)); [|contradiction]. simpl. now rewrite Nat.eqb_refl.
  - intros T. apply Nat.eqb_neq in E.
    destruct (decide (k = id)); [contradiction|]. simpl.
    apply Nat.eqb_neq in E. rewrite E. now apply IH.
Qed.

(** The interval of [_setupData] treats a channel seen 'closing' on two
    rounds in a row as closed: the first round destroys nothing, the
    second starts destroying the peer, without an error. *)
Theorem channel_closing_timeout id ch s :
  task_of id s = Some (TkClosingInterval false) -> id < s.(next_id) ->
  s.(_channel) = Some ch -> ch.(readyState) = RsClosing ->
  s.(destroyed) = false -> s.(_destroying) = false ->
  exists s1 s2, fire id Elapsed s = Ret tt s1
    /\ s1.(_destroying) = false /\ s1.(log) = s.(log)
    /\ task_of id s1 = Some (TkClosingInterval true)
    /\ fire id Elapsed s1 = Ret tt s2
    /\ s2.(_destroying) = true
    /\ In (s.(next_id), TkTeardown CbNoop None) s2.(pending).
Proof.
  intros T Lt C R D G.
  set (s1 := set_pending
               (map (fun p : nat * Task =>
                       if decide (p.1 = id) then (id, TkClosingInterval true) else p)
                    s.(pending)) s).
  assert (E1 : fire id Elapsed s = Ret tt s1).
  { unfold fire. rewrite get_bind, T. unfold closingInterval_elapsed.
    rewrite bind_assoc, get_bind, C, R. reflexivity. }
  assert (T1 : task_of id s1 = Some (TkClosingInterval true)).
  { unfold task_of, s1. destruct s. simpl. eapply task_in_rearm. exact T. }
  assert (E2 : exists s2, fire id Elapsed s1 = Ret tt s2
                 /\ s2.(_destroying) = true
                 /\ In (s.(next_id), TkTeardown CbNoop None) s2.(pending)).
  { unfold fire. rewrite get_bind, T1.
    unfold closingInterval_elapsed. rewrite bind_assoc, get_bind.
    replace (_channel s1) with (Some ch) by (destruct s; exact (eq_sym C)).
    rewrite R. clear E1 T1 T C. unfold s1. clear s1.
    destruct (decide (next_id s = id)) as [Eq|Ne] eqn:Dec; [lia|].
    open_known s. eexists. split; [reflexivity|]. split; [reflexivity|]. reduce.
    rewrite map_app, in_app_iff. right. simpl. rewrite Dec. now left. }
  destruct E2 as (s2 & E2 & G2 & I2).
  exists s1, s2. split; [exact E1|].
  split; [destruct s; exact G|]. split; [destruct s; reflexivity|].
  split; [exact T1|]. split; [exact E2|]. split; assumption.
Qed.

(** ** The end of the writable side *)

Definition destroySoons (s : Peer) : nat :=
  length (List.filter (fun p : nat * Task => if p.2 is TkDestroySoon then true else false)
                      s.(pending)).

(** 'finish' before the connection: nothing is scheduled then; the
    listener [_onFinish] left on 'connect' schedules the destruction of the
    peer when connectivity is resolved, once. 'finish' on a connected peer
    schedules it at once. *)
Theorem finish_schedules_destroy items ch s :
  resolved items = true ->
  s.(destroyed) = false -> s.(_destroying) = false ->
  s.(_connectedOnce) = false -> s.(_chunk) = None ->
  s.(_channel) = Some ch -> s.(onceConnect) = 0 ->
  (s.(_connected) = false ->
   exists s1 s2, _onFinish s = Ret tt s1 /\ destroySoons s1 = destroySoons s
     /\ onStats (inr items) s1 = Ret tt s2
     /\ s2.(_connected) = true /\ destroySoons s2 = destroySoons s + 1
     /\ s2.(onceConnect) = 0)
  /\ (s.(_connected) = true ->
      exists s1, _onFinish s = Ret tt s1 /\ destroySoons s1 = destroySoons s + 1).
Proof.
  intros R D G O Ck Ch Oc. unfold resolved in R. unfold destroySoons.
  destruct (foundSelectedCandidatePair items items false) as [found|] eqn:F; [|discriminate].
  apply negb_true_iff in R.
  split; intros C.
  - destruct ch as [rs ba [th|] la bt]; open_known s;
      (do 2 eexists; split; [reflexivity|]); reduce; (split; [reflexivity|]);
      unfold onStats; reduce; rewrite selectCandidatePairs_run, F; unfold selected; reduce;
      rewrite R; reduce_engine;
      unfold emit_connect; reduce; cbn [seq forEach]; reduce;
      (split; [reflexivity|]); reduce;
      rewrite ?List.filter_app, ?length_app; simpl; repeat split; lia.
  - open_known s. eexists. split; [reflexivity|]. reduce.
    rewrite ?List.filter_app, ?length_app. reflexivity.
Qed.

(** ** Descriptions held until the candidates are gathered *)

(** The payloads of the 'signal' events, in order. *)
Definition signals (s : Peer) : list Signal :=
  omap (fun e => if e is Emit (EvSignal sg) then Some sg else None) s.(log).

Definition timeouts (s : Peer) : nat :=
  occurrences (fun e => if e is Emit EvIceTimeout then true else false) s.(log).

(** Without trickle, an offer set before the candidates are gathered is
    not signalled then; when the gathering timer elapses 'iceTimeout' is
    emitted, gathering counts as complete, and the offer is signalled,
    once: with the engine's local description, which is the offer set. *)
Theorem offer_held_until_gathered offer s pc :
  s.(destroyed) = false -> s.(_pc) = Some pc -> s.(trickle) = false ->
  s.(_iceGatheringComplete) = false -> s.(onceIceGatheringComplete) = [] ->
  exists s1, offer_set offer Fulfilled s = Ret tt s1
    /\ signals s1 = signals s
    /\ exists s2, iceCompleteTimeout_elapsed s1 = Ret tt s2
         /\ signals s2 = signals s ++ [SigSdp offer.(d_type) offer.(d_sdp)]
         /\ timeouts s2 = timeouts s + 1
         /\ s2.(_iceGatheringComplete) = true
         /\ s2.(onceIceGatheringComplete) = []
         /\ iceCompleteTimeout_elapsed s2 = Ret tt s2.
Proof.
  intros D P T Gc L. unfold signals, timeouts, occurrences.
  destruct (_iceGatheringCompleteTimer s) eqn:?; destruct pc; open_known s;
    (eexists; split; [reflexivity|]); reduce;
    rewrite ?omap_app; simpl; rewrite ?app_nil_r; (split; [reflexivity|]);
    unfold with_localDescription; cbn [forEach]; reduce_engine;
    (eexists; split; [reflexivity|]); reduce;
    rewrite ?omap_app, ?List.filter_app, ?length_app; simpl;
    rewrite ?app_nil_r, <- ?app_assoc; repeat split; lia.
Qed.

(** ** [filterTrickle] *)

(** Does the description hold, somewhere, the line that advertises
    trickle? *)
Fixpoint advertises_trickle (sdp : string) : bool :=
  trickle_line_at sdp
  || match sdp with
     | EmptyString => false
     | String _ rest => advertises_trickle rest
     end.

Lemma filterTrickle_from_length sdp : forall matched,
  String.length (filterTrickle_from matched sdp) <= String.length sdp - matched.
Proof.
  induction sdp as [|c rest IH]; intros [|k]; simpl; try lia.
  - destruct (trickle_line_at (String c rest)).
    + specialize (IH 22). lia.
    + specialize (IH 0). simpl. lia.
  - apply IH.
Qed.

(** [filterTrickle] changes a description exactly when it holds the line
    that advertises trickle, and then makes it shorter. *)
Theorem filterTrickle_changes sdp :
  (advertises_trickle sdp = false -> filterTrickle sdp = sdp)
  /\ (advertises_trickle sdp = true ->
      String.length (filterTrickle sdp) < String.length sdp).
Proof.
  unfold filterTrickle. induction sdp as [|c rest [IH0 IH1]].
  - split; [reflexivity|]. simpl. unfold trickle_line_at. simpl. discriminate.
  - cbn [advertises_trickle filterTrickle_from].
    destruct (trickle_line_at (String c rest)); cbn [orb]; split; try discriminate.
    + intros _. pose proof (filterTrickle_from_length rest 22). simpl. lia.
    + intros A. now rewrite IH0.
    + intros A. specialize (IH1 A). simpl. lia.
Qed.

(** ** One teardown, one 'error' event *)

Definition is_error (e : Effect) : bool :=
  if e is Emit (EvError _) then true else false.

Definition is_done (e : Effect) : bool :=
  if e is DestroyDone _ then true else false.

(** The 'error' events emitted, and the teardowns run. *)
Definition errors (s : Peer) : nat := occurrences is_error s.(log).
Definition dones (s : Peer) : nat := occurrences is_done s.(log).

(** A teardown waits or has run only on a peer that is destroying, there
    is one at most, and an 'error' event comes from a teardown that ran. *)
Record Once (s : Peer) : Prop := mkOnce {
  once_teardown : teardowns s + dones s <= 1;
  once_error : errors s <= dones s;
  once_alive : s.(_destroying) = false -> teardowns s + dones s = 0
}.

(** A property of the peer that a run keeps. *)
Definition preserves (J : Peer -> Prop) : relation Peer := fun s s' => J s -> J s'.

#[global] Instance preserves_preorder J : PreOrder (preserves J).
Proof. split; unfold preserves; [intros s; auto|intros a b c; auto]. Qed.

(** [stroll], closing the field updates with [close]. *)
Ltac wander close :=
  repeat first
    [ progress intros
    | match goal with |- PreOrder _ => exact _ end
    | apply Keeps_skip | apply Keeps_ret | apply Keeps_throw | apply Keeps_get
    | solve [auto with keeps]
    | apply Keeps_bind
    | apply Keeps_try_catch
    | apply Keeps_forEach
    | match goal with
      | |- Keeps _ (if ?b then _ else _) => destruct b
      | |- Keeps _ (match ?x with _ => _ end) => destruct x
      | |- Keeps _ (let _ := _ in _) => cbv zeta
      end
    | apply Keeps_modify; solve [close]
    | match goal with
      | |- Keeps _ ?m =>
          let h := head_of m in
          first [ is_const h | fail 1 ];
          lazymatch h with
          | setTimeout => fail | new_Map => fail | next_reply => fail
          | the_pc => fail | the_channel => fail | teardown => fail
          | _ => unfold h
          end
      end ].

Lemma teardowns_without id l :
  length (List.filter (fun p : nat * Task => is_teardown p.2) (without id l))
  <= length (List.filter (fun p : nat * Task => is_teardown p.2) l).
Proof.
  unfold without. induction l as [|p l IH]; [reflexivity|].
  rewrite filter_cons. destruct (decide (p.1 <> id)); simpl;
    destruct (is_teardown p.2); simpl; lia.
Qed.

Ltac once_fields :=
  lazy beta iota zeta delta
    [destroyed _destroying pending log set_destroyed set_destroying set_pending set_log
     set_channelName set_offerOptions_iceRestart set_connected set_connecting
     set_connectedOnce set_pcReady set_channelReady set_iceGatheringComplete
     set_iceGatheringCompleteTimer set_iceFailureRecoveryTimer set_channel set_pc
     set_pendingCandidates set_isNegotiating set_isRestartingIce set_firstNegotiation
     set_batchedNegotiation set_queuedNegotiation set_sendersAwaitingStable
     set_closingInterval set_remoteTracks set_remoteStreams set_chunk set_cb
     set_interval set_onFinishBound set_senderMap set_submaps set_senders
     set_onceIceGatheringComplete set_onceConnect set_onceFinish set_microtasks
     set_next_id set_replies] in *.

Ltac once_from s :=
  let A := fresh "A" in let B := fresh "B" in let C := fresh "C" in
  unfold preserves; intros [A B C];
  repeat case_match; try (constructor; assumption);
  constructor; unfold teardowns, dones, errors, occurrences in *;
  destruct s; once_fields;
  rewrite ?List.filter_app, ?length_app; cbn [List.filter length is_error is_done];
  try assumption; try lia; intros; try lia;
  match goal with
  | H : ?x = false -> _, H' : ?x = false |- _ => specialize (H H'); lia
  end.

Ltac once_close := idtac; let s := fresh "s" in intros s; once_from s.

Lemma once_the_pc : Keeps (preserves Once) the_pc.
Proof. intros s. unfold the_pc. destruct (_pc s); exact (fun J => J). Qed.

Lemma once_the_channel : Keeps (preserves Once) the_channel.
Proof. intros s. unfold the_channel. destruct (_channel s); exact (fun J => J). Qed.

Lemma once_next_reply : Keeps (preserves Once) next_reply.
Proof.
  intros s. unfold next_reply. destruct (replies s); [exact (fun J => J)|].
  simpl. once_from s.
Qed.

Lemma once_new_Map : Keeps (preserves Once) new_Map.
Proof. intros s. unfold new_Map. simpl. once_from s. Qed.

Lemma once_setTimeout body : is_teardown body = false -> Keeps (preserves Once) (setTimeout body).
Proof.
  intros T s. unfold setTimeout. simpl. unfold preserves. intros [A B C].
  constructor; unfold teardowns, dones, errors, occurrences in *; destruct s; once_fields;
    rewrite ?List.filter_app, ?length_app; cbn [List.filter length snd]; rewrite ?T;
    cbn [length]; try lia.
  intros G. specialize (C G). lia.
Qed.

Lemma once_clearTimeout t : Keeps (preserves Once) (clearTimeout t).
Proof.
  intros s. destruct t as [id|]; [|exact (fun J => J)]. simpl.
  unfold preserves. intros [A B C].
  pose proof (teardowns_without id (pending s)) as W.
  constructor; unfold teardowns, dones, errors, occurrences in *; destruct s; once_fields;
    try lia.
  intros G. specialize (C G). lia.
Qed.

Lemma once_destroy cb err : Keeps (preserves Once) (_destroy cb err).
Proof.
  intros s. unfold preserves. intros [A B C].
  unfold teardowns, dones, errors, occurrences in *.
  destruct (destroyed s) eqn:D, (_destroying s) eqn:G; open_known s;
    try (constructor; assumption).
  specialize (C eq_refl).
  constructor; unfold teardowns, dones, errors, occurrences; reduce;
    rewrite ?List.filter_app, ?length_app; simpl; try lia.
Qed.

#[global] Hint Resolve once_the_pc once_the_channel once_next_reply once_new_Map
  once_clearTimeout once_destroy : keeps.
#[global] Hint Extern 1 (Keeps (preserves Once) (setTimeout _)) =>
  apply once_setTimeout; reflexivity : keeps.

Lemma once__destroy err : Keeps (preserves Once) (__destroy err).
Proof. unfold __destroy. wander once_close. Qed.
#[global] Hint Resolve once__destroy : keeps.

Lemma once_needsNegotiation : Keeps (preserves Once) _needsNegotiation.
Proof. wander once_close. Qed.
#[global] Hint Resolve once_needsNegotiation : keeps.

Lemma once_send chunk : Keeps (preserves Once) (send chunk).
Proof. wander once_close. Qed.
#[global] Hint Resolve once_send : keeps.

Lemma once_restartIce : Keeps (preserves Once) restartIce.
Proof. wander once_close. Qed.
#[global] Hint Resolve once_restartIce : keeps.


Lemma once_negotiate : Keeps (preserves Once) negotiate.
Proof. wander once_close. Qed.
#[global] Hint Resolve once_negotiate : keeps.

Lemma once_startIceFailureRecoveryTimeout :
  Keeps (preserves Once) _startIceFailureRecoveryTimeout.
Proof. wander once_close. Qed.
#[global] Hint Resolve once_startIceFailureRecoveryTimeout : keeps.

Lemma once_addTransceiver kind init : Keeps (preserves Once) (addTransceiver kind init).
Proof. wander once_close. Qed.
#[global] Hint Resolve once_addTransceiver : keeps.

Lemma once_onIceGatheringComplete : Keeps (preserves Once) _onIceGatheringComplete.
Proof. wander once_close. Qed.
#[global] Hint Resolve once_onIceGatheringComplete : keeps.

Lemma once_createAnswer : Keeps (preserves Once) _createAnswer.
Proof. wander once_close. Qed.
#[global] Hint Resolve once_createAnswer : keeps.

Lemma once_addIceCandidate c : Keeps (preserves Once) (_addIceCandidate c).
Proof. wander once_close. Qed.
#[global] Hint Resolve once_addIceCandidate : keeps.

Lemma once_signal arg : Keeps (preserves Once) (signal arg).
Proof. wander once_close. Qed.
#[global] Hint Resolve once_signal : keeps.

Lemma once_emit_connect : Keeps (preserves Once) emit_connect.
Proof. wander once_close. Qed.
#[global] Hint Resolve once_emit_connect : keeps.

Lemma filter_repeat_false {A} (f : A -> bool) x n :
  f x = false -> List.filter f (repeat x n) = [].
Proof. intros E. induction n as [|n IH]; simpl; [reflexivity|]. now rewrite E. Qed.

Lemma once_selectCandidatePairs all items found :
  Keeps (preserves Once) (selectCandidatePairs all items found).
Proof.
  apply Keeps_selectCandidatePairs. intros n s [A B C].
  constructor; unfold selected, teardowns, dones, errors, occurrences in *;
    destruct s; once_fields; rewrite ?List.filter_app, ?length_app;
    rewrite ?filter_repeat_false by reflexivity; cbn [length]; try lia.
  intros G. specialize (C G). lia.
Qed.
#[global] Hint Resolve once_selectCandidatePairs : keeps.

Lemma once_onStats res : Keeps (preserves Once) (onStats res).
Proof. wander once_close. Qed.
#[global] Hint Resolve once_onStats : keeps.

Lemma once_maybeReady : Keeps (preserves Once) _maybeReady.
Proof. wander once_close. Qed.
#[global] Hint Resolve once_maybeReady : keeps.

Lemma once_setupData channel : Keeps (preserves Once) (_setupData channel).
Proof. wander once_close. Qed.
#[global] Hint Resolve once_setupData : keeps.

Lemma once_addTrack track stream : Keeps (preserves Once) (addTrack track stream).
Proof. wander once_close. Qed.
#[global] Hint Resolve once_addTrack : keeps.

Lemma once_removeTrack track stream : Keeps (preserves Once) (removeTrack track stream).
Proof. wander once_close. Qed.
#[global] Hint Resolve once_removeTrack : keeps.

Lemma once_onChannelClose : Keeps (preserves Once) _onChannelClose.
Proof. wander once_close. Qed.
#[global] Hint Resolve once_onChannelClose : keeps.

Lemma once_run_microtask : Keeps (preserves Once) run_microtask.
Proof. unfold run_microtask. wander once_close. Qed.

Lemma once_run_task t r : is_teardown t = false -> Keeps (preserves Once) (run_task t r).
Proof. destruct t; simpl; try discriminate; intros _; wander once_close. Qed.

Lemma teardowns_found id l t :
  task_in id l = Some t -> is_teardown t = true ->
  S (length (List.filter (fun p : nat * Task => is_teardown p.2) (without id l)))
  <= length (List.filter (fun p : nat * Task => is_teardown p.2) l).
Proof.
  intros T K. pose proof (teardowns_without id) as W. unfold without in *.
  induction l as [|[k t'] l IH]; simpl in T; [discriminate|].
  rewrite filter_cons. destruct (k =? id)%nat eqn:E.
  - injection T as ->. apply Nat.eqb_eq in E as ->.
    destruct (decide ((id, t).1 <> id)) as [N|N]; [now destruct N|].
    cbn [List.filter length snd]. rewrite K. cbn [length].
    specialize (W l). lia.
  - specialize (IH T). apply Nat.eqb_neq in E.
    destruct (decide ((k, t').1 <> id)) as [N|N]; [|now destruct N].
    cbn [List.filter length snd].
    destruct (is_teardown t'); cbn [length]; lia.
Qed.

Lemma teardowns_rearm id b l :
  length (List.filter (fun p : nat * Task => is_teardown p.2)
            (map (fun p : nat * Task =>
                    if decide (p.1 = id) then (id, TkClosingInterval b) else p) l))
  <= length (List.filter (fun p : nat * Task => is_teardown p.2) l).
Proof.
  induction l as [|p l IH]; simpl; [reflexivity|].
  destruct (decide (p.1 = id)); simpl; destruct (is_teardown p.2); simpl; lia.
Qed.

(** The teardown of a peer on which it was waiting. *)
Lemma once_after_teardown id cb err s :
  task_of id s = Some (TkTeardown cb err) -> Once s ->
  Once (state_of (teardown cb err (set_pending (without id s.(pending)) s))).
Proof.
  intros T [A B C].
  pose proof (teardowns_found id (pending s) _ T eq_refl) as F.
  destruct (teardown_run cb err (set_pending (without id s.(pending)) s))
    as (s' & E & _ & _ & _ & _ & _ & _ & _ & _ & _ & _ & L & P & G).
  rewrite E. simpl state_of.
  assert (G' : _destroying s = true).
  { destruct (_destroying s); [reflexivity|]. specialize (C eq_refl).
    unfold teardowns in C. lia. }
  assert (W : teardowns s' <= teardowns (set_pending (without id (pending s)) s)).
  { unfold teardowns. rewrite P. unfold cleared.
    repeat match goal with
           | |- context [match ?x with _ => _ end] => destruct x
           end;
      repeat first [reflexivity | etransitivity; [apply teardowns_without|]]. }
  replace (teardowns (set_pending (without id (pending s)) s))
    with (length (List.filter (fun p : nat * Task => is_teardown p.2)
                    (without id (pending s)))) in W
    by (destruct s; reflexivity).
  replace (log (set_pending (without id (pending s)) s)) with (log s) in L
    by (destruct s; reflexivity).
  replace (_destroying (set_pending (without id (pending s)) s)) with true in G
    by (destruct s; exact (eq_sym G')).
  clear E P T.
  constructor; [| |rewrite G; discriminate];
    unfold teardowns, dones, errors, occurrences in *; rewrite L;
    rewrite !List.filter_app, !length_app;
    repeat match goal with
           | |- context [match ?x with _ => _ end] => destruct x
           end; cbn [List.filter length is_error is_done app]; lia.
Qed.

Section Once.

Variable text2arr : JsData -> list Byte.byte.

Lemma once_handle i : (forall id r, i <> Fire id r) -> Keeps (preserves Once) (handle text2arr i).
Proof.
  intros NF. destruct i; simpl; try (now destruct (NF id r));
    unfold if_full, if_pc, if_channel, _onChannelMessage; wander once_close;
    apply once_run_microtask.
Qed.

Lemma once_fire id r s : Once s -> Once (state_of (fire id r s)).
Proof.
  intros J. unfold fire. rewrite get_bind.
  destruct (task_of id s) as [t|] eqn:T; [|exact J].
  assert (W : Once (set_pending (without id (pending s)) s)).
  { pose proof (teardowns_without id (pending s)) as W. destruct J as [A B C].
    constructor; unfold teardowns, dones, errors, occurrences in *; destruct s; once_fields;
      try lia.
    intros G. specialize (C G). lia. }
  assert (K : is_teardown t = false ->
              Once (state_of ((modify (fun s => set_pending (without id s.(pending)) s) ;;
                               run_task t r) s))).
  { intros N. rewrite modify_bind. now apply (once_run_task t r N). }
  destruct t; try (apply K; reflexivity).
  - rewrite modify_bind. simpl run_task. now apply once_after_teardown.
  - assert (Kc : Keeps (preserves Once) (closingInterval_elapsed isClosing))
      by (wander once_close).
    specialize (Kc s J). unfold mbind, M_bind.
    destruct (closingInterval_elapsed isClosing s) as [b s1|e s1]; simpl in *; [|exact Kc].
    pose proof (teardowns_rearm id b (pending s1)) as R. destruct Kc as [A B C].
    constructor; unfold teardowns, dones, errors, occurrences in *; destruct s1; once_fields;
      try lia.
    intros G. specialize (C G). lia.
  - revert J. generalize s. change (Keeps (preserves Once) _onInterval). wander once_close.
Qed.

Lemma once_step i answers s : Once s -> Once (step text2arr i answers s).
Proof.
  intros J. unfold step.
  assert (J' : Once (set_replies answers s)).
  { destruct J as [A B C]. constructor; destruct s; auto. }
  destruct (classic_fire i) as [(id & r & ->)|NF].
  - now apply once_fire.
  - now apply (once_handle i NF).
Qed.

Lemma once_new c opts env s : new_Peer c opts env = inr s -> Once s.
Proof.
  unfold new_Peer. destruct (negb _); [discriminate|]. intros [= <-].
  assert (F : Once (fields c opts env)) by (constructor; simpl; auto with arith).
  destruct c; revert F; generalize (fields LitePeer opts env) (fields FullPeer opts env);
    intros s1 s2.
  - revert s1. change (Keeps (preserves Once) (lite_constructor env)).
    unfold lite_constructor. wander once_close.
  - revert s2. change (Keeps (preserves Once) (full_constructor opts env)).
    unfold full_constructor, lite_constructor, addStream. wander once_close.
Qed.

Lemma reachable_Once s : reachable text2arr s -> Once s.
Proof. induction 1; eauto using once_new, once_step. Qed.

(** In every state a peer goes through, at most one teardown is waiting or
    has run, and at most one 'error' event has been emitted; none on a
    peer that is not destroying. *)
Theorem one_error_event s :
  reachable text2arr s ->
  errors s <= 1 /\ teardowns s + dones s <= 1
  /\ (s.(_destroying) = false -> errors s = 0 /\ teardowns s = 0).
Proof.
  intros R. destruct (reachable_Once s R) as [A B C].
  split; [lia|]. split; [exact A|]. intros G. specialize (C G). lia.
Qed.

End Once.

(** * Examples

    A browser whose engine and channel answer every call, and the runs of
    a peer in it on which the theorems above are applied. *)

Definition utf8 (data : JsData) : list Byte.byte :=
  match data with
  | JString text => list_byte_of_string text
  | JArrayBuffer bytes | JUint8Array bytes => bytes
  end.

Definition a_pc : Pc :=
  {| iceConnectionState := IceNew;
     iceGatheringState := GatherNew;
     signalingState := Stable;
     connectionState := ConnNew;
     remoteDescription := None;
     localDescription := None;
     pc_restartIce := true;
     getStats_length := 0;
     getTransceivers := Some [] |}.

Definition a_channel : Channel :=
  {| readyState := RsConnecting;
     bufferedAmount := 0;
     bufferedAmountLowThreshold := None;
     label := "data";
     binaryType := "arraybuffer" |}.

Definition a_browser : Platform :=
  {| RTCPeerConnection_defined := true;
     window_defined := true;
     new_RTCPeerConnection := inr a_pc;
     peerConnectionId_is_number := false;
     peerIdentity_is_object := false;
     createDataChannel := Some a_channel;
     randomName := "0a1b2c" |}.

Definition opts_of (initiator objectMode : bool) (restart : option RestartOption)
    : PeerOpts :=
  {| opt_initiator := initiator;
     opt_channelName := None;
     opt_channelNegotiated := false;
     opt_offerOptions_iceRestart := false;
     opt_sdpTransform := None;
     opt_trickle := None;
     opt_allowHalfTrickle := None;
     opt_iceCompleteTimeout := None;
     opt_objectMode := objectMode;
     opt_wrtc := false;
     opt_iceRestartEnabled := restart;
     opt_iceFailureRecoveryTimeout := None;
     opt_streams := [] |}.

(** The peer [new Peer(opts)] leaves. *)
Definition peer_of (c : PeerClass) (opts : PeerOpts) : Peer :=
  match new_Peer c opts a_browser with
  | inr s => s
  | inl _ => fields c opts a_browser
  end.

Definition a_peer (c : PeerClass) (initiator : bool) : Peer :=
  peer_of c (opts_of initiator false None).

(** A run: the inputs in order, each with no answer of the engine queued. *)
Definition run_of (inputs : list Input) (s : Peer) : Peer :=
  fold_left (fun s i => step utf8 i [] s) inputs s.

Definition a_report : list StatItem :=
  [ {| item_type := "candidate-pair"; item_id := "p1";
       item_selectedCandidatePairId := None;
       item_googActiveConnection := ""; item_selected := true |} ].

Definition pc_in (ice : IceConnectionState) : Pc :=
  {| iceConnectionState := ice;
     iceGatheringState := Gathering;
     signalingState := Stable;
     connectionState := ConnNew;
     remoteDescription := None;
     localDescription := None;
     pc_restartIce := true;
     getStats_length := 0;
     getTransceivers := Some [] |}.

(** ICE connects, the channel opens, and the statistics name a selected
    pair: the peer is connected. *)
Definition connecting : list Input :=
  [ PcAttributes (pc_in IceConnected);
    OnIceStateChange;
    ChannelAttributes RsOpen 0;
    OnOpen ].

Definition a_connected_peer : Peer :=
  let s := run_of connecting (a_peer LitePeer true) in
  run_of [Fire (pred s.(next_id)) (Reports a_report)] s.

Lemma reachable_run inputs s :
  reachable utf8 s -> reachable utf8 (run_of inputs s).
Proof.
  revert s. induction inputs as [|i inputs IH]; intros s R; simpl; [exact R|].
  apply IH. apply reachable_step. exact R.
Defined.

Lemma reachable_peer_of c opts : reachable utf8 (peer_of c opts).
Proof. apply (reachable_new utf8 c opts a_browser). reflexivity. Defined.

(** ** The claims on the runs *)

(** Three requests in a tick of an initiator whose first round is over:
    one round more. *)
Definition a_negotiated_peer : Peer :=
  run_of [RunMicrotask; OnSignalingStateChange] (a_peer LitePeer true).

Lemma needsNegotiation_one_round_per_tick_witness :
  rounds_started (state_of (run_microtask
    (state_of (repeatedly 3 _needsNegotiation a_negotiated_peer))))
  = rounds_started a_negotiated_peer + 1.
Proof.
  pose (s := a_negotiated_peer).
  destruct (needsNegotiation_one_round_per_tick 2 s eq_refl eq_refl eq_refl)
    as (_ & _ & _ & _ & _ & R & _).
  exact R.
Defined.


Lemma restartIce_returns_witness :
  exists s', restartIce a_connected_peer = Ret true s'.
Proof.
  destruct (restartIce_returns utf8 a_connected_peer) as (s' & E & _).
  - apply reachable_run, reachable_run, reachable_peer_of.
  - exists s'. exact E.
Defined.

Lemma connected_only_when_both_ready_witness :
  a_connected_peer.(_pcReady) = true /\ a_connected_peer.(_channelReady) = true.
Proof.
  apply (connected_only_when_both_ready utf8 a_connected_peer).
  - apply reachable_run, reachable_run, reachable_peer_of.
  - reflexivity.
Defined.

(** The channel of a connected peer starts closing. *)
Definition a_closing_peer : Peer :=
  run_of [ChannelAttributes RsClosing 0] a_connected_peer.

Lemma connected_getter_witness :
  a_closing_peer.(_connected) = true /\ a_closing_peer.(destroyed) = false
  /\ connected a_closing_peer = Ret false a_closing_peer.
Proof.
  split; [reflexivity|]. split; [reflexivity|].
  apply (connected_getter a_closing_peer
           (with_attributes RsClosing 0 (configured a_channel))); reflexivity.
Defined.

Lemma chunk_before_connect_witness :
  exists s1 s2,
    _write (JString "") 7 (a_peer LitePeer true) = Ret tt s1
    /\ onStats (inr a_report) s1 = Ret tt s2
    /\ s2.(_connected) = true /\ sent s2 = [] /\ completed s2 = []
    /\ s2.(_chunk) = Some (JString "") /\ s2.(_cb) = Some 7.
Proof.
  destruct (chunk_before_connect (JString "") 7 a_report (configured a_channel)
              (a_peer LitePeer true) eq_refl eq_refl eq_refl eq_refl eq_refl eq_refl)
    as (s1 & s2 & W & _ & _ & _ & E & C & _ & Y).
  destruct (Y eq_refl) as (S & K & Ck & Cb).
  exists s1, s2. repeat split; assumption.
Defined.

(** An initiator that does not restart ICE, and its engine failing. *)
Definition a_failing_peer : Peer :=
  run_of [PcAttributes (pc_in IceFailed)]
         (peer_of LitePeer (opts_of true false (Some OptFalse))).

Lemma ice_failure_errors_witness :
  exists e1 e2,
    destroy_errors (state_of (iceFailureRecoveryTimeout_elapsed (a_peer LitePeer true)))
      = [e1]
    /\ destroy_errors (state_of (_onIceStateChange a_failing_peer)) = [e2]
    /\ e1.(err_code) = e2.(err_code) /\ e1.(err_message) <> e2.(err_message).
Proof.
  destruct (ice_failure_errors (a_peer LitePeer true) a_pc a_failing_peer (pc_in IceFailed)
              eq_refl eq_refl eq_refl eq_refl eq_refl eq_refl eq_refl eq_refl)
    as (e1 & e2 & E1 & E2 & C1 & C2 & M1 & M2 & _);
    [discriminate|reflexivity|reflexivity|].
  exists e1, e2. split; [exact E1|]. split; [exact E2|].
  split; [congruence|]. rewrite M1, M2. discriminate.
Defined.

(** The two errors carry one code. *)
Lemma ice_failure_codes_coincide :
  exists e1 e2,
    (a_peer LitePeer true).(_destroying) = false
    /\ destroy_errors (state_of (iceFailureRecoveryTimeout_elapsed (a_peer LitePeer true)))
       = [e1]
    /\ a_failing_peer.(iceRestartEnabled) = RestartOff
    /\ a_failing_peer.(_isRestartingIce) = false
    /\ destroy_errors (state_of (_onIceStateChange a_failing_peer)) = [e2]
    /\ e1.(err_code) = Some "ERR_ICE_CONNECTION_FAILURE"
    /\ e2.(err_code) = Some "ERR_ICE_CONNECTION_FAILURE".
Proof. do 2 eexists. repeat split; reflexivity. Qed.

Lemma onChannelMessage_pushes_witness :
  exists s',
    _onChannelMessage utf8 (JString "abc") (a_peer LitePeer true) = Ret tt s'
    /\ pushed s' = [Some (JUint8Array (list_byte_of_string "abc"))].
Proof.
  destruct (onChannelMessage_pushes utf8 (JString "abc") (a_peer LitePeer true) eq_refl)
    as (payload & E & P & _ & S).
  eexists. split; [exact E|]. rewrite P, S by discriminate. reflexivity.
Defined.

(** In object mode an [ArrayBuffer] is not pushed as it came. *)
Lemma arraybuffer_in_object_mode :
  let s := peer_of LitePeer (opts_of true true None) in
  let data := JArrayBuffer (list_byte_of_string "abc") in
  s.(__objectMode) = true /\ s.(destroyed) = false
  /\ pushed (state_of (_onChannelMessage utf8 data s))
     = [Some (JUint8Array (list_byte_of_string "abc"))]
  /\ pushed (state_of (_onChannelMessage utf8 data s)) <> [Some data].
Proof. repeat split; try reflexivity. discriminate. Qed.

Definition a_track : MediaStreamTrack := {| track_obj := 1; track_kind := "video" |}.

Definition a_stream : MediaStream :=
  {| stream_obj := 2; stream_id := "camera"; getTracks := [a_track] |}.

Definition another_track : MediaStreamTrack := {| track_obj := 3; track_kind := "audio" |}.

Definition another_stream : MediaStream :=
  {| stream_obj := 4; stream_id := "microphone"; getTracks := [another_track] |}.

Lemma addTrack_on_registered_pair_witness :
  let s1 := state_of (addTrack a_track a_stream (a_peer FullPeer true)) in
  addTrack a_track a_stream s1 = Throw ERR_SENDER_ALREADY_ADDED (logged "addTrack()" s1).
Proof.
  assert (H : forall m, a_peer FullPeer true = m ->
                destroyed m = false -> _destroying m = false ->
                _senderMap m = Some ∅ -> _pc m = Some a_pc ->
                registered m a_track a_stream = None ->
                replies m = [] -> engine_sender_marked m = false ->
                let s1 := state_of (addTrack a_track a_stream m) in
                addTrack a_track a_stream s1
                = Throw ERR_SENDER_ALREADY_ADDED (logged "addTrack()" s1)).
  { intros m _ D G Sm P R Rp E s1.
    destruct (addTrack_on_registered_pair a_track a_stream m D G) as [_ H].
    destruct (H a_pc ∅ Sm P R) as [(e & rest & s1' & Er & _)|(s1' & A & T & _)].
    - rewrite Rp in Er. discriminate.
    - rewrite E in T. unfold s1. rewrite A. exact T. }
  apply (H _ eq_refl); vm_compute; reflexivity.
Defined.

(** [addTrack] twice for one track and one stream, with a [replaceTrack]
    in between that registers the track on the map of another track: the
    second call finds no sender for the pair, and returns. *)
Lemma addTrack_twice_returns :
  let s0 := a_peer FullPeer true in
  let s3 := run_of [ CallAddTrack a_track a_stream;
                     CallAddTrack another_track another_stream;
                     CallReplaceTrack another_track (Some a_track) another_stream ] s0 in
  thrown (addTrack a_track a_stream s0) = None
  /\ s3.(destroyed) = false /\ s3.(_destroying) = false
  /\ registered s3 a_track a_stream = None
  /\ thrown (addTrack a_track a_stream s3) = None.
Proof. vm_compute. repeat split. Qed.

(** [addTrack] twice for one track and one stream, the engine handing out a
    sender that [removeTrack] marked removed: the second call throws
    [ERR_SENDER_REMOVED], not [ERR_SENDER_ALREADY_ADDED]. *)
Lemma addTrack_twice_removed :
  let s0 := a_peer FullPeer true in
  let s1 := step utf8 (CallAddTrack a_track a_stream) [ReplySender 100 true] s0 in
  let s2 := step utf8 (CallRemoveTrack a_track a_stream) [] s1 in
  let s3 := step utf8 (CallAddTrack another_track a_stream) [ReplySender 100 true] s2 in
  thrown (addTrack another_track a_stream (set_replies [ReplySender 100 true] s2)) = None
  /\ s3.(destroyed) = false /\ s3.(_destroying) = false
  /\ thrown (addTrack another_track a_stream s3) = Some ERR_SENDER_REMOVED.
Proof. vm_compute. repeat split. Qed.

(** The stream is destroyed, and the teardown has run. *)
Definition a_destroyed_peer : Peer :=
  let s := run_of [StreamDestroy] a_connected_peer in
  run_of [Fire (pred s.(next_id)) Elapsed] s.

Lemma operations_once_destroying_witness :
  a_destroyed_peer.(destroyed) = true
  /\ a_destroyed_peer.(_pc) = None
  /\ call (DoSend (JString "abc")) a_destroyed_peer = Ret None a_destroyed_peer.
Proof.
  split; [reflexivity|]. split; [reflexivity|].
  apply (operations_once_destroying utf8 (DoSend (JString "abc")) a_destroyed_peer).
  - apply reachable_run, reachable_run, reachable_run, reachable_run, reachable_peer_of.
  - right. reflexivity.
  - apply reaches_refl.
Defined.

(** ** The further properties on the runs *)

(** Closes a condition on a run by evaluating it. *)
Ltac evaluated :=
  vm_compute; first [reflexivity | discriminate | exact I | intros; discriminate | lia].

Lemma destroy_idempotent_witness :
  state_of (_destroy CbNoop None a_destroyed_peer) = a_destroyed_peer.
Proof.
  apply (destroy_idempotent CbNoop None CbNoop None a_destroyed_peer). evaluated.
Defined.

(** ICE failed on an initiator that restarts it: the recovery timer is
    armed. *)
Definition a_recovering_peer : Peer :=
  run_of [PcAttributes (pc_in IceFailed); OnIceStateChange] (a_peer LitePeer true).

Lemma recovery_timer_outlives_teardown_witness :
  let s1 := state_of (teardown CbNoop None a_recovering_peer) in
  task_of 3 s1 = Some TkIceFailureRecovery
  /\ exists e s2, fire 3 Elapsed s1 = Throw e s2
       /\ e.(err_name) = "TypeError" /\ s2.(log) = s1.(log).
Proof.
  apply (recovery_timer_outlives_teardown CbNoop None 3 a_recovering_peer); evaluated.
Defined.

Lemma send_without_channel_witness :
  exists e, send (JString "abc") (a_peer LitePeer false) = Throw e (a_peer LitePeer false)
    /\ e.(err_name) = "TypeError" /\ e.(err_code) = None.
Proof. apply send_without_channel; evaluated. Defined.

Lemma write_when_destroyed_witness :
  exists e s', _write (JString "abc") 7 a_destroyed_peer = Ret tt s'
    /\ s'.(log) = a_destroyed_peer.(log) ++ [Callback 7 (Some e)]
    /\ e.(err_code) = Some "ERR_DATA_CHANNEL".
Proof.
  destruct (write_when_destroyed (JString "abc") 7 a_destroyed_peer) as (e & s' & E & L & C & _);
    [evaluated|].
  exists e, s'. split; [exact E|]. split; [exact L|exact C].
Defined.

(** The channel of a connected peer refuses the next [send]. *)
Definition a_refused_peer : Peer :=
  set_replies [ReplyThrow (Error "InvalidStateError")] a_connected_peer.

Lemma write_send_failure_witness :
  exists s', _write (JString "abc") 7 a_refused_peer = Ret tt s'
    /\ s'.(_destroying) = true
    /\ destroy_errors s'
       = destroy_errors a_refused_peer
         ++ [errCode (Error "InvalidStateError") "ERR_DATA_CHANNEL"].
Proof.
  destruct (write_send_failure (JString "abc") 7 (with_attributes RsOpen 0 (configured a_channel))
              (Error "InvalidStateError") [] a_refused_peer)
    as (s' & E & G & De & _); [evaluated ..|].
  exists s'. split; [exact E|]. split; [exact G|exact De].
Defined.

(** The channel of a connected peer buffers more than the limit. *)
Definition a_congested_peer : Peer :=
  run_of [ChannelAttributes RsOpen (S MAX_BUFFERED_AMOUNT)] a_connected_peer.

Lemma backpressure_released_witness :
  exists s1 s2,
    _write (JString "abc") 7 a_congested_peer = Ret tt s1
    /\ s1.(_cb) = Some 7
    /\ _onInterval s1 = Ret tt s1
    /\ _onChannelBufferedAmountLow s1 = Ret tt s2
    /\ completed s2 = completed a_congested_peer ++ [7] /\ s2.(_cb) = None.
Proof.
  destruct (backpressure_released (JString "abc") 7
              (with_attributes RsOpen (S MAX_BUFFERED_AMOUNT) (configured a_channel))
              a_congested_peer)
    as (s1 & s2 & E1 & _ & _ & C1 & I1 & E2 & K2 & C2 & _);
    try reflexivity.
  exists s1, s2. repeat split; assumption.
Defined.


Definition a_candidate : Candidate :=
  {| cand_candidate := "candidate:1 1 udp 2122260223 192.0.2.1 54321 typ host";
     cand_sdpMLineIndex := Some 0;
     cand_sdpMid := Some "0";
     cand_address := Some "192.0.2.1" |}.

Definition an_offer : Description :=
  {| d_type := Some Offer; d_sdp := "v=0" |}.

Lemma pending_candidates_flushed_witness :
  exists s1, signal (ArgObject (candidate_only a_candidate)) (a_peer LitePeer false) = Ret tt s1
    /\ s1.(_pendingCandidates) = (a_peer LitePeer false).(_pendingCandidates) ++ [a_candidate]
    /\ exists s2, remoteDescription_set an_offer Fulfilled s1 = Ret tt s2
         /\ s2.(_pendingCandidates) = [].
Proof.
  destruct (pending_candidates_flushed a_candidate an_offer a_pc (a_peer LitePeer false))
    as (s1 & E1 & P1 & _ & s2 & E2 & P2 & _); [evaluated ..|].
  exists s1. split; [exact E1|]. split; [exact P1|].
  exists s2. split; [exact E2|exact P2].
Defined.

Lemma transceiverRequest_on_lite_witness :
  exists e s',
    signal (ArgObject (mkSignalData false (Some ("video", "{}")) (Some a_candidate) None None))
           (a_peer LitePeer true) = Throw e s'
    /\ e.(err_name) = "TypeError"
    /\ s'.(_pendingCandidates) = (a_peer LitePeer true).(_pendingCandidates).
Proof.
  destruct (transceiverRequest_on_lite "video" "{}"
              (mkSignalData false (Some ("video", "{}")) (Some a_candidate) None None)
              (a_peer LitePeer true))
    as (e & s' & E & N & _ & P & _); [evaluated ..|].
  exists e, s'. split; [exact E|]. split; [exact N|exact P].
Defined.

Lemma renegotiate_request_witness :
  exists s', signal (ArgObject renegotiate_only) (a_peer LitePeer false) = Ret tt s'
    /\ s'.(_destroying) = false
    /\ pc_calls s' = pc_calls (a_peer LitePeer false).
Proof.
  destruct (renegotiate_request (a_peer LitePeer false)) as (s' & E & G & C & _);
    try evaluated.
  exists s'. split; [exact E|]. split; [exact G|exact C].
Defined.

(** The engine reports that ICE failed, on an initiator that restarts it. *)
Definition an_ice_failure : Peer :=
  run_of [PcAttributes (pc_in IceFailed)] (a_peer LitePeer true).

Lemma ice_failed_under_restart_policy_witness :
  exists s' r, _onIceStateChange an_ice_failure = Ret tt s'
    /\ s'.(_destroying) = false
    /\ s'.(_iceFailureRecoveryTimer) = Some r
    /\ In (r, TkIceFailureRecovery) s'.(pending).
Proof.
  destruct (ice_failed_under_restart_policy an_ice_failure (pc_in IceFailed))
    as (s' & r & E & G & T & I & _); [evaluated ..|].
  exists s', r. repeat split; assumption.
Defined.

(** ICE comes back while the recovery timer is armed. *)
Definition a_recovered_peer : Peer :=
  run_of [PcAttributes (pc_in IceConnected)] a_recovering_peer.

Lemma recovery_timer_cleared_witness :
  exists o s', _onIceStateChange a_recovered_peer = o /\ state_of o = s'
    /\ s'.(_iceFailureRecoveryTimer) = None
    /\ task_of 3 s' = None
    /\ fire 3 Elapsed s' = Ret tt s'.
Proof.
  destruct (recovery_timer_cleared 3 a_recovered_peer (pc_in IceConnected))
    as (o & s' & E & S & T & _ & _ & K & F); [evaluated ..|].
  exists o, s'. repeat split; assumption.
Defined.

Lemma ice_closed_destroys_witness :
  exists s',
    _onIceStateChange (run_of [PcAttributes (pc_in IceClosed)] (a_peer LitePeer true))
    = Ret tt s'
    /\ s'.(_destroying) = true.
Proof.
  destruct (ice_closed_destroys (run_of [PcAttributes (pc_in IceClosed)] (a_peer LitePeer true))
              (pc_in IceClosed))
    as (s' & E & G & _); [evaluated ..|].
  exists s'. split; assumption.
Defined.

Definition pc_with (connection : ConnectionState) : Pc :=
  {| iceConnectionState := IceDisconnected;
     iceGatheringState := Gathering;
     signalingState := Stable;
     connectionState := connection;
     remoteDescription := None;
     localDescription := None;
     pc_restartIce := true;
     getStats_length := 0;
     getTransceivers := Some [] |}.

(** The connection fails on a peer that does not restart ICE. *)
Definition a_failed_connection : Peer :=
  run_of [PcAttributes (pc_with ConnFailed)]
         (peer_of LitePeer (opts_of true false (Some OptFalse))).

Lemma connection_failed_without_restart_witness :
  exists s', _onConnectionStateChange a_failed_connection = Ret tt s'
    /\ s'.(_destroying) = true
    /\ destroy_errors s' = destroy_errors a_failed_connection ++ [ERR_CONNECTION_FAILURE].
Proof.
  destruct (connection_failed_without_restart a_failed_connection (pc_with ConnFailed))
    as (s' & E & _ & G & De & _); [evaluated ..|].
  exists s'. repeat split; assumption.
Defined.

(** The connection of a connected peer is lost. *)
Definition a_lost_connection : Peer :=
  run_of [PcAttributes (pc_with ConnDisconnected)] a_connected_peer.

Lemma connection_lost_holds_writes_witness :
  exists s1 s2, _onConnectionStateChange a_lost_connection = Ret tt s1
    /\ s1.(_connected) = false /\ s1.(_destroying) = false
    /\ _write (JString "abc") 7 s1 = Ret tt s2
    /\ s2.(_chunk) = Some (JString "abc") /\ s2.(_cb) = Some 7
    /\ sent s2 = sent a_lost_connection.
Proof.
  destruct (connection_lost_holds_writes (JString "abc") 7 a_lost_connection
              (pc_with ConnDisconnected))
    as (s1 & s2 & E1 & C1 & G1 & _ & E2 & Ck & Cb & S); [evaluated ..|].
  exists s1, s2. repeat split; assumption.
Defined.

Lemma stats_failure_retries_witness :
  exists s', onStats (inl (Error "getStats failed")) (a_peer LitePeer true) = Ret tt s'.
Proof.
  eexists. apply (stats_failure_retries (inl (Error "getStats failed")) (a_peer LitePeer true));
    evaluated.
Defined.

Lemma resolution_again_reconnects_witness :
  exists s', onStats (inr a_report) a_connected_peer = Ret tt s'.
Proof.
  eexists. apply (resolution_again_reconnects a_report a_connected_peer); evaluated.
Defined.

Lemma restart_offer_options_witness :
  exists s1, _createOffer a_recovering_peer = Ret tt s1
    /\ pc_calls s1
       = pc_calls a_recovering_peer
         ++ [OpCreateOffer a_recovering_peer.(offerOptions_iceRestart)]
    /\ s1.(offerOptions_iceRestart) = true.
Proof.
  destruct (restart_offer_options a_recovering_peer (pc_in IceFailed))
    as (s1 & E & C & O & _); [evaluated ..|].
  exists s1. repeat split; assumption.
Defined.

Lemma signaling_stable_witness :
  exists s', _onSignalingStateChange (a_peer LitePeer true) = Ret tt s'
    /\ s'.(_isNegotiating) = false /\ s'.(_queuedNegotiation) = false.
Proof.
  destruct (signaling_stable (a_peer LitePeer true) a_pc) as (s' & E & N & Q & _);
    try evaluated.
  exists s'. repeat split; assumption.
Defined.

Definition NS_ERROR_UNEXPECTED : Err := mkErr "NS_ERROR_UNEXPECTED" "" None.

(** A track was added, and the engine refuses to remove its sender. *)
Definition a_sending_peer : Peer :=
  set_replies [ReplyThrow NS_ERROR_UNEXPECTED]
    (step utf8 (CallAddTrack a_track a_stream) [ReplySender 100 true] (a_peer FullPeer true)).

Lemma removal_deferred_until_stable_witness :
  exists s1, removeTrack a_track a_stream a_sending_peer = Ret tt s1
    /\ s1.(_sendersAwaitingStable) = [100] /\ s1.(_destroying) = false
    /\ exists s2,
         _onSignalingStateChange (set_replies [] (set_pc (Some a_pc) s1)) = Ret tt s2
         /\ s2.(_sendersAwaitingStable) = []
         /\ s2.(_batchedNegotiation) = true.
Proof.
  destruct (removal_deferred_until_stable a_track a_stream 100 NS_ERROR_UNEXPECTED []
              a_sending_peer a_pc a_pc)
    as (s1 & E1 & Q1 & G1 & _ & s2 & E2 & _ & Q2 & B2); [evaluated ..|].
  exists s1. do 3 (split; [assumption|]). exists s2. repeat split; assumption.
Defined.

Lemma track_never_added_witness :
  exists e, removeTrack a_track a_stream (a_peer FullPeer true)
            = Throw e (logged "removeSender()" (a_peer FullPeer true))
    /\ is_code "ERR_TRACK_NOT_ADDED" e.
Proof.
  apply (track_never_added a_track None a_stream (a_peer FullPeer true)); evaluated.
Defined.

(** A track was added on a stream. *)
Definition a_registered_track : Peer :=
  step utf8 (CallAddTrack a_track a_stream) [ReplySender 100 true] (a_peer FullPeer true).

Lemma replaceTrack_shares_sender_witness :
  exists s', replaceTrack a_track (Some another_track) a_stream a_registered_track = Ret tt s'
    /\ registered s' another_track a_stream = Some 100
    /\ registered s' a_track a_stream = Some 100.
Proof.
  destruct (replaceTrack_shares_sender a_track another_track a_stream 100 a_registered_track)
    as (s' & E & N & O & _); [evaluated ..|].
  exists s'. repeat split; assumption.
Defined.

Lemma stream_announced_once_witness :
  exists s1 s2, _onTrack a_track [a_stream] (a_peer FullPeer true) = Ret tt s1
    /\ s1.(microtasks) = (a_peer FullPeer true).(microtasks) ++ [OnStream a_stream]
    /\ _onTrack another_track [a_stream] s1 = Ret tt s2
    /\ s2.(microtasks) = s1.(microtasks).
Proof.
  destruct (stream_announced_once a_track another_track a_stream [] [] (a_peer FullPeer true))
    as (s1 & s2 & E1 & M1 & E2 & M2 & _); [evaluated ..|].
  exists s1, s2. repeat split; assumption.
Defined.

(** A platform without the engine, and one whose engine cannot be built. *)
Definition no_webrtc : Platform :=
  {| RTCPeerConnection_defined := false;
     window_defined := true;
     new_RTCPeerConnection := inr a_pc;
     peerConnectionId_is_number := false;
     peerIdentity_is_object := false;
     createDataChannel := Some a_channel;
     randomName := "0a1b2c" |}.

Definition a_broken_engine : Platform :=
  {| RTCPeerConnection_defined := true;
     window_defined := true;
     new_RTCPeerConnection := inl (Error "bad configuration");
     peerConnectionId_is_number := false;
     peerIdentity_is_object := false;
     createDataChannel := Some a_channel;
     randomName := "0a1b2c" |}.

Lemma constructor_failures_witness :
  new_Peer LitePeer (opts_of true false None) no_webrtc = inl (ERR_WEBRTC_SUPPORT no_webrtc)
  /\ exists s, new_Peer LitePeer (opts_of true false None) a_broken_engine = inr s
       /\ s.(_destroying) = true
       /\ destroy_errors s = [errCode (Error "bad configuration") "ERR_PC_CONSTRUCTOR"].
Proof.
  split.
  - apply (constructor_failures LitePeer (opts_of true false None) no_webrtc). reflexivity.
  - destruct (proj2 (constructor_failures LitePeer (opts_of true false None) a_broken_engine)
                (Error "bad configuration") eq_refl eq_refl)
      as (s & E & G & _ & De & _).
    exists s. repeat split; assumption.
Defined.

Lemma channel_closing_timeout_witness :
  exists s1 s2, fire 1 Elapsed a_closing_peer = Ret tt s1
    /\ s1.(_destroying) = false
    /\ fire 1 Elapsed s1 = Ret tt s2
    /\ s2.(_destroying) = true.
Proof.
  destruct (channel_closing_timeout 1 (with_attributes RsClosing 0 (configured a_channel))
              a_closing_peer)
    as (s1 & s2 & E1 & G1 & _ & _ & E2 & G2 & _); [evaluated ..|].
  exists s1, s2. repeat split; assumption.
Defined.

Lemma finish_schedules_destroy_witness :
  exists s1 s2, _onFinish (a_peer LitePeer true) = Ret tt s1
    /\ destroySoons s1 = destroySoons (a_peer LitePeer true)
    /\ onStats (inr a_report) s1 = Ret tt s2
    /\ s2.(_connected) = true
    /\ destroySoons s2 = destroySoons (a_peer LitePeer true) + 1.
Proof.
  destruct (finish_schedules_destroy a_report (configured a_channel) (a_peer LitePeer true))
    as [H _]; [evaluated ..|].
  destruct H as (s1 & s2 & E1 & D1 & E2 & C2 & D2 & _); [evaluated|].
  exists s1, s2. repeat split; assumption.
Defined.

(** An initiator that does not trickle its candidates. *)
Definition a_patient_peer : Peer :=
  peer_of LitePeer
    {| opt_initiator := true;
       opt_channelName := None;
       opt_channelNegotiated := false;
       opt_offerOptions_iceRestart := false;
       opt_sdpTransform := None;
       opt_trickle := Some false;
       opt_allowHalfTrickle := None;
       opt_iceCompleteTimeout := None;
       opt_objectMode := false;
       opt_wrtc := false;
       opt_iceRestartEnabled := None;
       opt_iceFailureRecoveryTimeout := None;
       opt_streams := [] |}.

Lemma offer_held_until_gathered_witness :
  exists s1, offer_set an_offer Fulfilled a_patient_peer = Ret tt s1
    /\ signals s1 = signals a_patient_peer
    /\ exists s2, iceCompleteTimeout_elapsed s1 = Ret tt s2
         /\ signals s2 = signals a_patient_peer ++ [SigSdp (Some Offer) "v=0"]
         /\ timeouts s2 = timeouts a_patient_peer + 1.
Proof.
  destruct (offer_held_until_gathered an_offer a_patient_peer a_pc)
    as (s1 & E1 & S1 & s2 & E2 & S2 & T2 & _); [evaluated ..|].
  exists s1. do 2 (split; [assumption|]). exists s2. repeat split; assumption.
Defined.

(** A description that advertises trickle. *)
Definition a_trickling_sdp : string :=
  "v=0" ++ newline ++ "a=ice-options:trickle " ++ newline ++ "a=end-of-candidates" ++ newline.

Lemma filterTrickle_changes_witness :
  String.length (filterTrickle a_trickling_sdp) < String.length a_trickling_sdp
  /\ filterTrickle "v=0" = "v=0".
Proof.
  split.
  - apply (filterTrickle_changes a_trickling_sdp). reflexivity.
  - apply (filterTrickle_changes "v=0"). reflexivity.
Defined.

(** ICE closes: the peer is destroyed with an error. *)
Definition an_errored_peer : Peer :=
  let s := run_of [PcAttributes (pc_in IceClosed); OnIceStateChange] (a_peer LitePeer true) in
  run_of [Fire (pred s.(next_id)) Elapsed] s.

Lemma one_error_event_witness :
  errors an_errored_peer <= 1 /\ teardowns an_errored_peer + dones an_errored_peer <= 1.
Proof.
  destruct (one_error_event utf8 an_errored_peer) as (E & T & _).
  - apply reachable_run, reachable_run, reachable_peer_of.
  - split; assumption.
Defined.
